(** * Cortona desktop: completion detectors and the audio frame pipeline

    A shallow embedding of the parts of [cortona-desktop/main.js] that carry
    timing, buffering and state-machine behaviour:

    - the wake-word listener ([startNativeWakeWordListening]) with its
      accumulate-and-slice audio loop,
    - the Leopard recording session ([startNativeLeopardRecording],
      [stopNativeLeopardRecording]),
    - the availability handlers registered in [setupIPC],
    - the filesystem agent watcher ([startAgentWatcher]),
    - the visual window watcher ([startWindowWatcher]).

    Module-level [let] variables of the source become fields of explicit state
    records; callbacks become step functions on those records; timers of the
    event loop are handles in an explicit pending set. *)

From Stdlib Require Import ZArith List Bool Lia String Ascii Arith PeanoNat.
From Stdlib Require Import Strings.Byte.
Import ListNotations.
Local Open Scope string_scope.
Local Open Scope list_scope.
Local Open Scope nat_scope.

(* ====================================================================== *)
(** * Outcomes of JavaScript calls *)
(* ====================================================================== *)

(** A call either returns, throws an exception (we keep its message), or,
    for the loops we model with fuel, has not finished within the fuel. *)
Inductive outcome (A : Type) : Type :=
| Returned (a : A)
| Threw (e : string)
| OutOfFuel.
Arguments Returned {A} a.
Arguments Threw {A} e.
Arguments OutOfFuel {A}.

Definition obind {A B} (m : outcome A) (k : A -> outcome B) : outcome B :=
  match m with
  | Returned a => k a
  | Threw e => Threw e
  | OutOfFuel => OutOfFuel
  end.

Notation "x <- m ;; k" := (obind m (fun x => k))
  (at level 61, m at next level, right associativity).

(* ====================================================================== *)
(** * Messages sent to the renderer ([mainWindow.webContents.send]) *)
(* ====================================================================== *)

Inductive ipc_msg : Type :=
| wake_word_detected (keywordIndex : Z)
| audio_level
| agent_finished (changedFiles : list string) (watchPath : string) (duration : Z)
| window_activity (app title : string) (timestamp : Z)
| window_agent_finished (app title : string) (idleTime : Z).

(* ====================================================================== *)
(** * Audio: wake word listener and Leopard recording *)
(* ====================================================================== *)

Module Audio.

(** A Node [Buffer] is a sequence of bytes. *)
Definition Buffer := list byte.

(** One signed 16-bit sample from two bytes.  [Int16Array] reads in the
    platform byte order; the application targets macOS on x86-64 and arm64,
    both little-endian. *)
Definition int16 (lo hi : byte) : Z :=
  let u := (Z.of_N (Byte.to_N lo) + 256 * Z.of_N (Byte.to_N hi))%Z in
  if (u <? 32768)%Z then u else (u - 65536)%Z.

(** [new Int16Array(b.buffer, b.byteOffset, length)] seen from the slice [b]:
    [length] samples read from the start of [b].  A view that would run past
    the bytes of the slice is a [RangeError]. *)
Fixpoint Int16Array (b : Buffer) (length : nat) : outcome (list Z) :=
  match length with
  | O => Returned []
  | S n =>
      match b with
      | lo :: hi :: rest =>
          fr <- Int16Array rest n ;; Returned (int16 lo hi :: fr)
      | _ => Threw "RangeError"
      end
  end.

(** Results handed back to the IPC caller. *)
Inductive result : Type :=
| Fail (error : string)                        (* { success: false, error } *)
| OkMessage (message : string)                 (* { success: true, message } *)
| OkListening (sampleRate frameLength : nat)   (* { success: true, sampleRate, frameLength } *)
| OkPlain                                      (* { success: true } *)
| OkTranscript (transcript : string) (audioBytes samples : nat).

Definition success (r : result) : bool :=
  match r with Fail _ => false | _ => true end.

Section Engines.

(** The external engines are opaque.  A Porcupine handle is a value of type
    [porcupine]; [process] may return a keyword index or throw ([inr]).  A
    Leopard handle is a value of type [leopard]. *)
Variable porcupine : Type.
Variable porcupine_frameLength : porcupine -> nat.
Variable porcupine_sampleRate : porcupine -> nat.
Variable porcupine_process : porcupine -> list Z -> porcupine * (Z + string).

Variable leopard : Type.
Variable leopard_process : leopard -> list Z -> leopard * (string + string).

(** What the data callback of a capture stream closes over. *)
Inductive listener : Type :=
| WakeListener (audioBuffer : Buffer) (frameLength : nat)
| LeopardCollector (audioChunks : list Buffer).

(** The capture streams opened through [record.record(...)] and not yet
    stopped, each with its data callback's closure.  A recording object is
    identified by its position in the order of creation. *)
Record state : Type := mkState {
  (* modules that loaded at startup: [Porcupine], [Leopard], [record] are
     non-null exactly when the flag is true *)
  Porcupine : bool;
  Leopard : bool;
  record : bool;
  (* wake word *)
  porcupineHandle : option porcupine;
  porcupineListening : bool;
  audioInputStream : option nat;
  wakeWordAccessKey : option string;
  (* Leopard *)
  leopardHandle : option leopard;
  leopardRecording : option nat;
  leopardAccessKey : option string;
  (* the main window: [mainWindow && !mainWindow.isDestroyed()] *)
  mainWindowOk : bool;
  (* the world *)
  streams : list (nat * listener);
  next_stream : nat;
  sent : list ipc_msg;
  (* every sample buffer handed to [leopardHandle.process], in order *)
  leopard_calls : list (list Z)
}.

(** The environment a start call runs in: file system and constructors. *)
Record env : Type := mkEnv {
  BuiltinKeyword : string -> bool;       (* [BuiltinKeyword[keyword.toUpperCase()]] is truthy *)
  keyword_file_exists : string -> bool;  (* [fs.existsSync(keywordPath)] *)
  model_file_exists : bool;              (* [fs.existsSync(modelPath)] *)
  keywordPath : string -> string;
  modelPath : string;
  new_Porcupine : string -> string -> porcupine + string;  (* returns or throws *)
  new_Leopard : string -> leopard + string;
  (* [handle.release()]: the handle afterwards, and returns or throws *)
  leopard_release : leopard -> leopard * (unit + string);
  record_record : unit + string;         (* [record.record(...)]: returns or throws *)
  recording_stop : unit + string         (* [recording.stop()]: returns or throws *)
}.

(** ** Field updates *)

Definition set_wake (s : state) (h : option porcupine) (l : bool)
    (a : option nat) (k : option string) : state :=
  mkState (Porcupine s) (Leopard s) (record s) h l a k
          (leopardHandle s) (leopardRecording s) (leopardAccessKey s)
          (mainWindowOk s) (streams s) (next_stream s) (sent s)
          (leopard_calls s).

Definition set_leopard (s : state) (h : option leopard) (r : option nat)
    (k : option string) : state :=
  mkState (Porcupine s) (Leopard s) (record s)
          (porcupineHandle s) (porcupineListening s) (audioInputStream s)
          (wakeWordAccessKey s) h r k
          (mainWindowOk s) (streams s) (next_stream s) (sent s)
          (leopard_calls s).

Definition set_world (s : state) (st : list (nat * listener)) (n : nat)
    (m : list ipc_msg) (c : list (list Z)) : state :=
  mkState (Porcupine s) (Leopard s) (record s)
          (porcupineHandle s) (porcupineListening s) (audioInputStream s)
          (wakeWordAccessKey s)
          (leopardHandle s) (leopardRecording s) (leopardAccessKey s)
          (mainWindowOk s) st n m c.

Definition set_streams (s : state) (st : list (nat * listener)) : state :=
  set_world s st (next_stream s) (sent s) (leopard_calls s).

(** [if (mainWindow && !mainWindow.isDestroyed()) mainWindow.webContents.send(...)] *)
Definition send (s : state) (m : ipc_msg) : state :=
  if mainWindowOk s
  then set_world s (streams s) (next_stream s) (sent s ++ [m]) (leopard_calls s)
  else s.

(** Streams as a store keyed by recording id. *)
Fixpoint lookup_stream (id : nat) (l : list (nat * listener)) : option listener :=
  match l with
  | [] => None
  | (i, c) :: l' => if Nat.eqb i id then Some c else lookup_stream id l'
  end.

Fixpoint update_stream (id : nat) (c : listener) (l : list (nat * listener))
  : list (nat * listener) :=
  match l with
  | [] => []
  | (i, c0) :: l' =>
      if Nat.eqb i id then (i, c) :: l' else (i, c0) :: update_stream id c l'
  end.

Definition close_stream (id : nat) (l : list (nat * listener))
  : list (nat * listener) :=
  filter (fun p => negb (Nat.eqb (fst p) id)) l.

Definition open_ids (s : state) : list nat := map fst (streams s).

(** ** The accumulate-and-slice loop

    [[
      while (audioBuffer.length >= bytesPerFrame) {
        const frameBuffer = audioBuffer.slice(0, bytesPerFrame);
        audioBuffer = audioBuffer.slice(bytesPerFrame);
        const frame = new Int16Array(frameBuffer.buffer, frameBuffer.byteOffset, frameLength);
        try { const keywordIndex = porcupineHandle.process(frame); ... } catch (e) {}
      }
    ]]

    The loop returns the handle after the calls, the residual buffer, the
    messages it asked to send, and the trace of its iterations: the byte
    slice cut off and the frame handed to [process]. *)

Record drained : Type := mkDrained {
  d_handle : porcupine;
  d_rest : Buffer;
  d_msgs : list ipc_msg;
  d_trace : list (Buffer * list Z)
}.

Fixpoint process_frames (fuel : nat) (frameLength : nat) (h : porcupine)
    (audioBuffer : Buffer) : outcome drained :=
  let bytesPerFrame := frameLength * 2 in
  match fuel with
  | O => OutOfFuel
  | S fuel' =>
      if bytesPerFrame <=? List.length audioBuffer then
        let frameBuffer := firstn bytesPerFrame audioBuffer in
        let audioBuffer' := skipn bytesPerFrame audioBuffer in
        frame <- Int16Array frameBuffer frameLength ;;
        let (h', r) := porcupine_process h frame in
        let msgs :=
          match r with
          | inl keywordIndex =>
              if (0 <=? keywordIndex)%Z then [wake_word_detected keywordIndex] else []
          | inr _ => []   (* processing errors are ignored *)
          end in
        d <- process_frames fuel' frameLength h' audioBuffer' ;;
        Returned (mkDrained (d_handle d) (d_rest d) (msgs ++ d_msgs d)
                            ((frameBuffer, frame) :: d_trace d))
      else Returned (mkDrained h audioBuffer [] [])
  end.

(** The ['data'] callback of the wake-word stream with closure
    [(audioBuffer, frameLength)].  It returns the new module state, the new
    closure buffer and the iteration trace. *)
Definition wake_on_data (fuel : nat) (s : state) (audioBuffer : Buffer)
    (frameLength : nat) (data : Buffer)
  : outcome (state * Buffer * list (Buffer * list Z)) :=
  match porcupineListening s, porcupineHandle s with
  | true, Some h =>
      let audioBuffer1 := audioBuffer ++ data in   (* Buffer.concat *)
      d <- process_frames fuel frameLength h audioBuffer1 ;;
      let s1 := set_wake s (Some (d_handle d)) (porcupineListening s)
                         (audioInputStream s) (wakeWordAccessKey s) in
      let s2 := fold_left send (d_msgs d) s1 in
      Returned (s2, d_rest d, d_trace d)
  | _, _ => Returned (s, audioBuffer, [])
  end.

(** Feeding a sequence of chunks, one callback per chunk. *)
Fixpoint wake_feed (fuel : nat) (s : state) (audioBuffer : Buffer)
    (frameLength : nat) (chunks : list Buffer)
  : outcome (state * Buffer * list (Buffer * list Z)) :=
  match chunks with
  | [] => Returned (s, audioBuffer, [])
  | data :: rest =>
      r1 <- wake_on_data fuel s audioBuffer frameLength data ;;
      let '(s1, b1, t1) := r1 in
      r2 <- wake_feed fuel s1 b1 frameLength rest ;;
      let '(s2, b2, t2) := r2 in
      Returned (s2, b2, t1 ++ t2)
  end.

(** ** [stopNativeWakeWordListening]

    Errors of [audioInputStream.stop()] and [porcupineHandle.release()] are
    caught and logged, so the function always returns [{ success: true }]. *)
Definition stopNativeWakeWordListening (s : state) : state * result :=
  let streams1 :=
    match audioInputStream s with
    | Some id => close_stream id (streams s)
    | None => streams s
    end in
  (set_streams (set_wake s None false None (wakeWordAccessKey s)) streams1,
   OkPlain).

(** [record.record({...})] creates a recording and starts the capture
    process; the new stream gets the callback closure [c]. *)
Definition open_stream (s : state) (c : listener) : state * nat :=
  let id := next_stream s in
  (set_world s ((id, c) :: streams s) (S id) (sent s) (leopard_calls s), id).

(** ** [startNativeWakeWordListening] *)
Definition startNativeWakeWordListening (e : env) (s : state)
    (accessKey keyword : string) : state * result :=
  if negb (record s) || negb (Porcupine s) then
    (s, Fail "Audio recording or Porcupine not available")
  else if porcupineListening s then
    (s, OkMessage "Already listening")
  else
    (* try { *)
    let s1 := fst (stopNativeWakeWordListening s) in
    if negb (BuiltinKeyword e keyword) then
      (s1, Fail ("Unknown keyword: " ++ keyword)%string)
    else if negb (keyword_file_exists e keyword) then
      (s1, Fail ("Keyword file not found: " ++ keywordPath e keyword)%string)
    else if negb (model_file_exists e) then
      (s1, Fail ("Model file not found: " ++ modelPath e)%string)
    else
      match new_Porcupine e accessKey keyword with
      | inr msg =>
          (* } catch (e) { stopNativeWakeWordListening(); ... } *)
          (fst (stopNativeWakeWordListening s1), Fail msg)
      | inl h =>
          let s2 := set_wake s1 (Some h) (porcupineListening s1)
                             (audioInputStream s1) (wakeWordAccessKey s1) in
          let frameLength := porcupine_frameLength h in
          let sampleRate := porcupine_sampleRate h in
          match record_record e with
          | inr msg => (fst (stopNativeWakeWordListening s2), Fail msg)
          | inl _ =>
              let (s3, id) := open_stream s2 (WakeListener [] frameLength) in
              let s4 := set_wake s3 (porcupineHandle s3) true (Some id)
                                 (Some accessKey) in
              (s4, OkListening sampleRate frameLength)
          end
      end.

(** ** [startNativeLeopardRecording] *)
Definition option_string_eqb (a : option string) (b : string) : bool :=
  match a with Some x => String.eqb x b | None => false end.

Definition startNativeLeopardRecording (e : env) (s : state)
    (accessKey : string) : state * result :=
  if negb (record s) || negb (Leopard s) then
    (s, Fail "Native recording or Leopard not available")
  else
    (* try { *)
    let construct (s0 : state) : state + state * string :=
      match new_Leopard e accessKey with
      | inl h => inl (set_leopard s0 (Some h) (leopardRecording s0) (Some accessKey))
      | inr msg => inr (s0, msg)
      end in
    let init : state + state * string :=
      match leopardHandle s with
      | Some old =>
          if option_string_eqb (leopardAccessKey s) accessKey then inl s
          else
            (* [leopardHandle.release()]: the variable goes on holding the
               object, released or not *)
            let (old', released) := leopard_release e old in
            let s0 := set_leopard s (Some old') (leopardRecording s)
                                  (leopardAccessKey s) in
            match released with
            | inl _ => construct s0
            | inr msg => inr (s0, msg)
            end
      | None => construct s
      end in
    match init with
    | inr (s0, msg) => (s0, Fail msg)
    | inl s1 =>
        match record_record e with
        | inr msg => (s1, Fail msg)
        | inl _ =>
            let (s2, id) := open_stream s1 (LeopardCollector []) in
            (set_leopard s2 (leopardHandle s2) (Some id) (leopardAccessKey s2),
             OkPlain)
        end
    end.

(** The ['data'] callback of a Leopard recording: [audioChunks.push(data)],
    then the level message.  The level itself is a floating point number and
    is not represented. *)
Definition leopard_on_data (s : state) (id : nat) (audioChunks : list Buffer)
    (data : Buffer) : state :=
  let s1 := set_streams s
              (update_stream id (LeopardCollector (audioChunks ++ [data])) (streams s)) in
  send s1 audio_level.

(** Delivery of one chunk on the capture stream [id]. *)
Definition stream_data (fuel : nat) (s : state) (id : nat) (data : Buffer)
  : outcome state :=
  match lookup_stream id (streams s) with
  | None => Returned s
  | Some (LeopardCollector audioChunks) =>
      Returned (leopard_on_data s id audioChunks data)
  | Some (WakeListener audioBuffer frameLength) =>
      r <- wake_on_data fuel s audioBuffer frameLength data ;;
      let '(s1, b1, _) := r in
      Returned (set_streams s1
                  (update_stream id (WakeListener b1 frameLength) (streams s1)))
  end.

(** ** [stopNativeLeopardRecording]

    [leopardRecording.audioChunks] is the very array the data callback
    pushes to, so the chunks are read from the stream's closure. *)
Definition chunks_of (s : state) (id : nat) : list Buffer :=
  match lookup_stream id (streams s) with
  | Some (LeopardCollector audioChunks) => audioChunks
  | _ => []     (* [leopardRecording.audioChunks || []] *)
  end.

Definition stopNativeLeopardRecording (e : env) (s : state)
  : outcome (state * result) :=
  match leopardRecording s with
  | None => Returned (s, Fail "No active recording")
  | Some id =>
      (* try { *)
      let audioChunks := chunks_of s id in
      match recording_stop e with
      | inr msg =>
          (* catch: [leopardRecording] is still set, [stop()] is called again *)
          Threw msg
      | inl _ =>
          let s1 := set_leopard (set_streams s (close_stream id (streams s)))
                                (leopardHandle s) None (leopardAccessKey s) in
          if Nat.eqb (List.length audioChunks) 0 then
            Returned (s1, Fail "No audio recorded")
          else
            let audioBuffer := List.concat audioChunks in
            match Int16Array audioBuffer (Nat.div (List.length audioBuffer) 2) with
            | Returned samples =>
                match leopardHandle s1 with
                | None =>
                    Returned (s1, Fail "Cannot read properties of null (reading 'process')")
                | Some h =>
                    let (h', r) := leopard_process h samples in
                    let s2 := set_world
                                (set_leopard s1 (Some h') None (leopardAccessKey s1))
                                (streams s1) (next_stream s1) (sent s1)
                                (leopard_calls s1 ++ [samples]) in
                    match r with
                    | inl transcript =>
                        Returned (s2, OkTranscript transcript
                                        (List.length audioBuffer) (List.length samples))
                    | inr msg => Returned (s2, Fail msg)
                    end
                end
            | Threw msg => Returned (s1, Fail msg)
            | OutOfFuel => OutOfFuel
            end
      end
  end.

(** ** Availability handlers of [setupIPC]

    The handlers read identifiers of the top level of [main.js].
    [Porcupine], [Leopard] and [record] are declared there by [let] and hold
    the loaded module or [null].  [portAudio] is declared nowhere in the
    file (and is no global of the runtime), so reading it is a
    [ReferenceError]. *)
Inductive ident : Type := id_Porcupine | id_Leopard | id_record | id_portAudio.

Inductive jsval : Type := JNull | JObject.

Definition top_level (s : state) (x : ident) : outcome jsval :=
  match x with
  | id_Porcupine => Returned (if Porcupine s then JObject else JNull)
  | id_Leopard => Returned (if Leopard s then JObject else JNull)
  | id_record => Returned (if record s then JObject else JNull)
  | id_portAudio => Threw "ReferenceError: portAudio is not defined"
  end.

Definition strict_neq_null (v : jsval) : bool :=
  match v with JNull => false | JObject => true end.

Definition truthy (v : jsval) : bool :=
  match v with JNull => false | JObject => true end.

(** [ipcMain.handle('porcupine-available', () =>
       ({ available: Porcupine !== null && portAudio !== null }))];
    the returned boolean is the [available] field. *)
Definition porcupine_available (s : state) : outcome bool :=
  a <- top_level s id_Porcupine ;;
  if strict_neq_null a then
    b <- top_level s id_portAudio ;; Returned (strict_neq_null b)
  else Returned false.

(** [ipcMain.handle('leopard-available', () =>
       ({ available: !!Leopard && !!record }))]. *)
Definition leopard_available (s : state) : outcome bool :=
  a <- top_level s id_Leopard ;;
  if truthy a then
    b <- top_level s id_record ;; Returned (truthy b)
  else Returned false.

(** ** Vocabulary for the properties *)

(** An iteration of the loop is well formed for frame length [fl]: the slice
    has [fl * 2] bytes and the frame is its view as [fl] samples. *)
Definition frame_ok (fl : nat) (it : Buffer * list Z) : Prop :=
  List.length (fst it) = fl * 2 /\
  List.length (snd it) = fl /\
  Int16Array (fst it) fl = Returned (snd it).

(** A start call is rejected: it reports failure. *)
Definition rejected (r : result) : Prop := success r = false.

(** The module state after a callback that left the handle [h'] and sent
    [msgs]. *)
Definition after_data (s : state) (h' : porcupine) (msgs : list ipc_msg) : state :=
  fold_left send msgs
    (set_wake s (Some h') (porcupineListening s)
       (audioInputStream s) (wakeWordAccessKey s)).

(** The Leopard engine is ready for [accessKey]: either the handle exists
    for this very key, or the constructor returns, after the release of a
    handle made for another key has returned. *)
Definition leopard_ready (e : env) (s : state) (accessKey : string) : Prop :=
  (exists h, leopardHandle s = Some h /\
             leopardAccessKey s = Some accessKey) \/
  ((exists h, new_Leopard e accessKey = inl h) /\
   forall old, leopardHandle s = Some old -> snd (leopard_release e old) = inl tt).

End Engines.
End Audio.

(* ====================================================================== *)
(** * Timers of the event loop *)
(* ====================================================================== *)

(** What a watcher makes visible outside: messages to the renderer and
    system notifications.  A notification keeps its title and the number
    interpolated into its body. *)
Inductive output : Type :=
| Send (m : ipc_msg)
| Notify (title : string) (n : Z).

Module Timers.
Section WithClosure.

(** [C] is what the callback of a timeout closes over. *)
Variable C : Type.

(** Pending timeouts: handle, due time, closure.  Handles are never reused. *)
Record t : Type := mk {
  pending : list (nat * (Z * C));
  next_id : nat
}.

Definition empty : t := mk [] 0.

Definition ids (tm : t) : list nat := map fst (pending tm).

(** Node sets a delay below 1 or above 2^31 - 1 to 1. *)
Definition effective_delay (delay : Z) : Z :=
  if ((delay <? 1) || (2147483647 <? delay))%Z then 1%Z else delay.

Definition setTimeout (tm : t) (now delay : Z) (c : C) : t * nat :=
  (mk ((next_id tm, ((now + effective_delay delay)%Z, c)) :: pending tm)
      (S (next_id tm)),
   next_id tm).

Definition clearTimeout (tm : t) (id : nat) : t :=
  mk (filter (fun p => negb (Nat.eqb (fst p) id)) (pending tm)) (next_id tm).

Fixpoint find (id : nat) (l : list (nat * (Z * C))) : option (Z * C) :=
  match l with
  | [] => None
  | (i, x) :: l' => if Nat.eqb i id then Some x else find id l'
  end.

(** The timer [id] may run at [now]: it is pending and due. *)
Definition due (tm : t) (id : nat) (now : Z) : option C :=
  match find id (pending tm) with
  | Some (d, c) => if (d <=? now)%Z then Some c else None
  | None => None
  end.

(** The pending timer that is due first, if any is due by [now]. *)
Fixpoint earliest (l : list (nat * (Z * C))) : option (nat * Z) :=
  match l with
  | [] => None
  | (i, (d, _)) :: l' =>
      match earliest l' with
      | Some (j, d') => if (d' <? d)%Z then Some (j, d') else Some (i, d)
      | None => Some (i, d)
      end
  end.

End WithClosure.
Arguments mk {C} pending next_id.
Arguments pending {C} t.
Arguments next_id {C} t.
Arguments empty {C}.
Arguments ids {C} tm.
Arguments setTimeout {C} tm now delay c.
Arguments clearTimeout {C} tm id.
Arguments find {C} id l.
Arguments due {C} tm id now.
Arguments earliest {C} l.
End Timers.

(* ====================================================================== *)
(** * Runs of an event-driven component *)
(* ====================================================================== *)

(** A watcher is driven by events: calls of its start and stop functions,
    callbacks of its change source, and timers run by the event loop.  Its
    model is a step function with the outputs of each step, and a test
    telling whether an event can happen in a state. *)
Module Machine.
Section Run.

Variables state event : Type.
Variable enabled : state -> event -> bool.
Variable step : state -> event -> state * list output.

(** A run: every event must be enabled where it happens.  The log pairs
    each event with what it made visible. *)
Fixpoint run (s : state) (evs : list event)
  : option (state * list (event * list output)) :=
  match evs with
  | [] => Some (s, [])
  | e :: rest =>
      if enabled s e then
        let (s1, out) := step s e in
        match run s1 rest with
        | Some (s2, log) => Some (s2, (e, out) :: log)
        | None => None
        end
      else None
  end.

(** Some step of the run reported a change. *)
Variable is_change : state -> event -> bool.

Fixpoint any_change (s : state) (evs : list event) : bool :=
  match evs with
  | [] => false
  | e :: rest => is_change s e || any_change (fst (step s e)) rest
  end.

(** The timers that the events of a run say have run. *)
Variable fires : event -> option nat.

Fixpoint fired (evs : list event) : list nat :=
  match evs with
  | [] => []
  | e :: rest =>
      match fires e with
      | Some id => id :: fired rest
      | None => fired rest
      end
  end.

End Run.
Arguments run {state event} enabled step s evs.
Arguments any_change {state event} step is_change s evs.
Arguments fired {event} fires evs.

(** How many outputs of a step satisfy [p]. *)
Definition count (p : output -> bool) (out : list output) : nat :=
  List.length (filter p out).

(** An entry of a log carries at most one finished message, and carries one
    only if its event is a timer running. *)
Definition one_finished_per_timer {event : Type} (is_finished : output -> bool)
    (fires : event -> option nat) (entry : event * list output) : Prop :=
  count is_finished (snd entry) <= 1 /\
  (0 < count is_finished (snd entry) -> fires (fst entry) <> None).

End Machine.

(* ====================================================================== *)
(** * Filesystem agent watcher ([startAgentWatcher]) *)
(* ====================================================================== *)

Module AgentWatcher.

Definition AGENT_IDLE_THRESHOLD : Z := 3000.

Record state : Type := mkState {
  (* module level *)
  agentWatcher : bool;              (* the chokidar watcher is non-null *)
  agentWatcherEnabled : bool;
  lastFileChange : option Z;
  agentIdleTimer : option nat;      (* a timer handle; stale after firing *)
  mainWindowOk : bool;
  (* closure of the running [startAgentWatcher] call *)
  watchPath : string;
  idleThreshold : Z;
  hasSeenActivity : bool;
  changedFiles : list string;
  (* event loop *)
  timers : Timers.t unit
}.

Definition init : state :=
  mkState false false None None true "" AGENT_IDLE_THRESHOLD false [] Timers.empty.

Inductive event : Type :=
| Start (watchPath : string) (idleThreshold : option Z)
| Stop
| Ready                                    (* chokidar ['ready'] *)
| Change (now : Z) (relativePath : string) (* chokidar ['change'] *)
| Add (now : Z) (relativePath : string)    (* chokidar ['add'] *)
| TimerFired (now : Z) (id : nat)             (* the event loop runs a timer *)
| MainWindow (ok : bool).                  (* the main window appears or goes *)

(** [changedFiles.includes(relativePath)] *)
Fixpoint includes (l : list string) (x : string) : bool :=
  match l with
  | [] => false
  | y :: l' => if String.eqb y x then true else includes l' x
  end.

Definition stopAgentWatcher (s : state) : state :=
  let tm := match agentIdleTimer s with
            | Some id => Timers.clearTimeout (timers s) id
            | None => timers s
            end in
  mkState false false None None (mainWindowOk s)
          (watchPath s) (idleThreshold s) (hasSeenActivity s) (changedFiles s) tm.

Definition startAgentWatcher (s : state) (path : string) (idle : option Z) : state :=
  let s1 := if agentWatcher s then stopAgentWatcher s else s in
  let idleThreshold := match idle with Some v => v | None => AGENT_IDLE_THRESHOLD end in
  mkState true (agentWatcherEnabled s1) (lastFileChange s1) (agentIdleTimer s1)
          (mainWindowOk s1) path idleThreshold false [] (timers s1).

(** The ['change'] listener. *)
Definition on_change (s : state) (now : Z) (relativePath : string) : state :=
  let changedFiles1 :=
    if includes (changedFiles s) relativePath then changedFiles s
    else changedFiles s ++ [relativePath] in
  let tm1 := match agentIdleTimer s with
             | Some id => Timers.clearTimeout (timers s) id
             | None => timers s
             end in
  let (tm2, id) := Timers.setTimeout tm1 now (idleThreshold s) tt in
  mkState (agentWatcher s) (agentWatcherEnabled s) (Some now) (Some id)
          (mainWindowOk s) (watchPath s) (idleThreshold s) true changedFiles1 tm2.

(** JavaScript's [null] in arithmetic is 0. *)
Definition num (x : option Z) : Z := match x with Some v => v | None => 0%Z end.

(** The callback handed to [setTimeout].  The notification is kept by its
    title and the number of changed files its body is made of. *)
Definition on_timeout (s : state) (now : Z) : state * list output :=
  if hasSeenActivity s && agentWatcherEnabled s then
    let msg := agent_finished (changedFiles s) (watchPath s)
                 (now - (num (lastFileChange s) - idleThreshold s))%Z in
    let out := (if mainWindowOk s then [Send msg] else [])
               ++ [Notify "Agent Finished" (Z.of_nat (List.length (changedFiles s)))] in
    (mkState (agentWatcher s) (agentWatcherEnabled s) (lastFileChange s)
             (agentIdleTimer s) (mainWindowOk s) (watchPath s) (idleThreshold s)
             false [] (timers s),
     out)
  else (s, []).

Definition with_timers (s : state) (tm : Timers.t unit) : state :=
  mkState (agentWatcher s) (agentWatcherEnabled s) (lastFileChange s)
          (agentIdleTimer s) (mainWindowOk s) (watchPath s) (idleThreshold s)
          (hasSeenActivity s) (changedFiles s) tm.

(** An event can happen: file events come from a live watcher only, a timer
    runs only while it is pending and due. *)
Definition enabled (s : state) (e : event) : bool :=
  match e with
  | Change _ _ | Add _ _ | Ready => agentWatcher s
  | TimerFired now id =>
      match Timers.due (timers s) id now with Some _ => true | None => false end
  | _ => true
  end.

Definition step (s : state) (e : event) : state * list output :=
  match e with
  | Start path idle => (startAgentWatcher s path idle, [])
  | Stop => (stopAgentWatcher s, [])
  | Ready =>
      (mkState (agentWatcher s) true (lastFileChange s) (agentIdleTimer s)
               (mainWindowOk s) (watchPath s) (idleThreshold s)
               (hasSeenActivity s) (changedFiles s) (timers s), [])
  | Change now p => (on_change s now p, [])
  | Add now p => (on_change s now p, [])   (* [agentWatcher.emit('change', filePath)] *)
  | TimerFired now id =>
      on_timeout (with_timers s (Timers.clearTimeout (timers s) id)) now
  | MainWindow ok =>
      (mkState (agentWatcher s) (agentWatcherEnabled s) (lastFileChange s)
               (agentIdleTimer s) ok (watchPath s) (idleThreshold s)
               (hasSeenActivity s) (changedFiles s) (timers s), [])
  end.

Definition is_change (e : event) : bool :=
  match e with Change _ _ | Add _ _ => true | _ => false end.

Definition is_finished (o : output) : bool :=
  match o with
  | Send (agent_finished _ _ _) => true
  | _ => false
  end.

Definition fires (e : event) : option nat :=
  match e with TimerFired _ id => Some id | _ => None end.

Definition run := Machine.run enabled step.

(** ** Vocabulary for the properties *)

Definition pending (s : state) : list nat := Timers.ids (timers s).
Definition next_id (s : state) : nat := Timers.next_id (timers s).

(** Every pending timer is the one [agentIdleTimer] holds, and handles in
    use lie below the next fresh one. *)
Definition inv (s : state) : Prop :=
  forall id, In id (pending s) ->
             agentIdleTimer s = Some id /\ id < next_id s.

Definition is_start (e : event) : bool :=
  match e with Start _ _ => true | _ => false end.

(** A log entry that neither starts the watcher anew nor sends a finished
    message. *)
Definition quiet (entry : event * list output) : Prop :=
  is_start (fst entry) = false /\
  Machine.count is_finished (snd entry) = 0.

(** The log holds a change or add event that no start and no finished
    message follows. *)
Definition activity_since (l : list (event * list output)) : Prop :=
  exists la c outc lb,
    l = la ++ (c, outc) :: lb /\
    is_change c = true /\
    Forall quiet lb.

(** What holds between steps: if activity has been seen, the list of
    changed files is not empty and the log so far shows the activity. *)
Definition seen_ok (s : state) (prefix : list (event * list output)) : Prop :=
  hasSeenActivity s = true ->
  changedFiles s <> [] /\ activity_since prefix.

(** [if (!changedFiles.includes(p)) changedFiles.push(p)] *)
Definition add_file (l : list string) (p : string) : list string :=
  if includes l p then l else l ++ [p].

End AgentWatcher.


(* ====================================================================== *)
(** * Visual window watcher ([startWindowWatcher]) *)
(* ====================================================================== *)

Module WindowWatcher.

Record config : Type := mkConfig {
  idleThreshold : Z;
  captureInterval : Z
}.

Definition default_config : config := mkConfig 5000 500.

Record state : Type := mkState {
  windowWatcherEnabled : bool;
  windowWatcherApp : option string;
  windowWatcherInterval : bool;      (* the polling interval is installed *)
  lastWindowHash : option string;
  lastWindowActivity : option Z;
  windowIdleTimer : option nat;
  windowWatcherConfig : config;
  windowWatcherTitle : option string;
  mainWindowOk : bool;
  (* event loop; a confirm callback closes over [currentInfo], of which it
     reads the title *)
  timers : Timers.t string
}.

Definition init : state :=
  mkState false None false None None None default_config None true Timers.empty.

(** What the desktop queries of one call answer.  [found] is the result of
    [findAppByName]; [info] the title of the window [getWindowInfo] found,
    if any; [hash] the result of [captureWindowHash]. *)
Record observed : Type := mkObserved {
  info : option string;
  hash : option string
}.

(** Options of a start call; [None] where the property is absent. *)
Record options : Type := mkOptions {
  opt_idleThreshold : option Z;
  opt_captureInterval : option Z
}.

Inductive event : Type :=
| Start (now : Z) (found : option string) (opts : options) (obs : observed)
| Stop
| Poll (now : Z) (obs : observed)   (* a tick of the polling interval *)
| TimerFired (now : Z) (id : nat)      (* the event loop runs the confirm timer *)
| MainWindow (ok : bool).

Definition with_timers (s : state) (tm : Timers.t string) : state :=
  mkState (windowWatcherEnabled s) (windowWatcherApp s) (windowWatcherInterval s)
          (lastWindowHash s) (lastWindowActivity s) (windowIdleTimer s)
          (windowWatcherConfig s) (windowWatcherTitle s) (mainWindowOk s) tm.

Definition stopWindowWatcher (s : state) : state :=
  let tm := match windowIdleTimer s with
            | Some id => Timers.clearTimeout (timers s) id
            | None => timers s
            end in
  mkState false None false None None None (windowWatcherConfig s) None
          (mainWindowOk s) tm.

(** [Object.assign(windowWatcherConfig, options)] *)
Definition assign (c : config) (o : options) : config :=
  mkConfig (match opt_idleThreshold o with Some v => v | None => idleThreshold c end)
           (match opt_captureInterval o with Some v => v | None => captureInterval c end).

Definition startWindowWatcher (s : state) (now : Z) (found : option string)
    (opts : options) (obs : observed) : state :=
  let s0 := stopWindowWatcher s in
  match found with
  | None => s0
  | Some appName =>
      let cfg := assign (windowWatcherConfig s0) opts in
      match info obs with
      | Some title =>
          mkState true (Some appName) true (hash obs) (Some now) (windowIdleTimer s0)
                  cfg (Some title) (mainWindowOk s0) (timers s0)
      | None =>
          mkState true (Some appName) false (lastWindowHash s0) (Some now)
                  (windowIdleTimer s0) cfg (windowWatcherTitle s0)
                  (mainWindowOk s0) (timers s0)
      end
  end.

(** [currentHash && currentHash !== lastWindowHash] *)
Definition hasHashChanged (currentHash : option string) (last : option string) : bool :=
  match currentHash with
  | None => false
  | Some h =>
      if String.eqb h "" then false
      else match last with
           | Some l => negb (String.eqb h l)
           | None => true
           end
  end.

Definition num (x : option Z) : Z := match x with Some v => v | None => 0%Z end.

Definition str (x : option string) : string :=
  match x with Some v => v | None => "" end.

(** One tick of the monitoring loop. *)
Definition on_poll (s : state) (now : Z) (obs : observed) : state * list output :=
  if negb (windowWatcherEnabled s) then (s, [])
  else
    match info obs with
    | None => (s, [])
    | Some title =>
        let currentHash := hash obs in
        if hasHashChanged currentHash (lastWindowHash s) then
          let tm := match windowIdleTimer s with
                    | Some id => Timers.clearTimeout (timers s) id
                    | None => timers s
                    end in
          (mkState (windowWatcherEnabled s) (windowWatcherApp s)
                   (windowWatcherInterval s) currentHash (Some now) None
                   (windowWatcherConfig s) (windowWatcherTitle s)
                   (mainWindowOk s) tm,
           if mainWindowOk s
           then [Send (window_activity (str (windowWatcherApp s)) title now)]
           else [])
        else
          let idleTime := (now - num (lastWindowActivity s))%Z in
          match windowIdleTimer s with
          | None =>
              if (idleThreshold (windowWatcherConfig s) <=? idleTime)%Z then
                let (tm, id) := Timers.setTimeout (timers s) now 2000 title in
                (mkState (windowWatcherEnabled s) (windowWatcherApp s)
                         (windowWatcherInterval s) (lastWindowHash s)
                         (lastWindowActivity s) (Some id)
                         (windowWatcherConfig s) (windowWatcherTitle s)
                         (mainWindowOk s) tm,
                 [])
              else (s, [])
          | Some _ => (s, [])
          end
    end.

(** The confirm callback; [title] is read from the [currentInfo] of the tick
    that installed it.  The notification is kept by the text of its title
    (without the emoji in front) and the idle time its body is made of. *)
Definition on_timeout (s : state) (now : Z) (title : string) : state * list output :=
  let finalIdleTime := (now - num (lastWindowActivity s))%Z in
  let out :=
    if (idleThreshold (windowWatcherConfig s) <=? finalIdleTime)%Z then
      (if mainWindowOk s
       then [Send (window_agent_finished (str (windowWatcherApp s)) title finalIdleTime)]
       else [])
      ++ [Notify "Agent Finished!" finalIdleTime]
    else [] in
  (mkState (windowWatcherEnabled s) (windowWatcherApp s) (windowWatcherInterval s)
           (lastWindowHash s) (lastWindowActivity s) None
           (windowWatcherConfig s) (windowWatcherTitle s) (mainWindowOk s)
           (timers s),
   out).

Definition enabled (s : state) (e : event) : bool :=
  match e with
  | Poll _ _ => windowWatcherInterval s
  | TimerFired now id =>
      match Timers.due (timers s) id now with Some _ => true | None => false end
  | _ => true
  end.

Definition step (s : state) (e : event) : state * list output :=
  match e with
  | Start now found opts obs => (startWindowWatcher s now found opts obs, [])
  | Stop => (stopWindowWatcher s, [])
  | Poll now obs => on_poll s now obs
  | TimerFired now id =>
      match Timers.due (timers s) id now with
      | Some title =>
          on_timeout (with_timers s (Timers.clearTimeout (timers s) id)) now title
      | None => (s, [])
      end
  | MainWindow ok =>
      (mkState (windowWatcherEnabled s) (windowWatcherApp s) (windowWatcherInterval s)
               (lastWindowHash s) (lastWindowActivity s) (windowIdleTimer s)
               (windowWatcherConfig s) (windowWatcherTitle s) ok (timers s), [])
  end.

(** A tick reports a change: it runs the hash-changed branch. *)
Definition is_change (s : state) (e : event) : bool :=
  match e with
  | Poll _ obs =>
      windowWatcherEnabled s &&
      match info obs with
      | Some _ => hasHashChanged (hash obs) (lastWindowHash s)
      | None => false
      end
  | _ => false
  end.

Definition is_activity (o : output) : bool :=
  match o with Send (window_activity _ _ _) => true | _ => false end.

Definition is_finished (o : output) : bool :=
  match o with
  | Send (window_agent_finished _ _ _) => true
  | _ => false
  end.

Definition fires (e : event) : option nat :=
  match e with TimerFired _ id => Some id | _ => None end.

Definition run := Machine.run enabled step.

(** ** Vocabulary for the properties *)

Definition pending (s : state) : list nat := Timers.ids (timers s).
Definition next_id (s : state) : nat := Timers.next_id (timers s).

(** Every pending timer is the one [windowIdleTimer] holds, and handles in
    use lie below the next fresh one. *)
Definition inv (s : state) : Prop :=
  forall id, In id (pending s) ->
             windowIdleTimer s = Some id /\ id < next_id s.

(** The timers after [clearTimeout(windowIdleTimer)], if it is set. *)
Definition clear_idle (s : state) : Timers.t string :=
  match windowIdleTimer s with
  | Some id => Timers.clearTimeout (timers s) id
  | None => timers s
  end.

(** Events during which the watched region keeps the fingerprint [h]: ticks
    that compute [h] or compute nothing, timers, and changes of the main
    window. *)
Definition region_unchanged (h : string) (e : event) : Prop :=
  match e with
  | Poll _ obs =>
      hash obs = Some h \/ hash obs = None
  | TimerFired _ _ => True
  | MainWindow _ => True
  | _ => False
  end.

End WindowWatcher.

(* ====================================================================== *)
(** * An ideal clock

    To speak about the instants at which messages are sent we run a watcher
    against an ideal event loop: a pending timer runs exactly at the time it
    is due, and callbacks take no time.  When a timer is due at the very
    instant of another event, [timers_first] says which one runs first. *)
(* ====================================================================== *)

Module Clock.
Section Machine.

Variables state event C : Type.
Variable timers : state -> Timers.t C.
Variable step : state -> event -> state * list output.
Variable timeout : Z -> nat -> event.
Variable event_time : event -> option Z.

(** Run the timers due before [t] (or at [t], with [inclusive]), earliest
    first, each at its due time.  The callbacks of both watchers install no
    timer, so [fuel] pending timers need [fuel] rounds. *)
Fixpoint advance (fuel : nat) (inclusive : bool) (s : state) (t : Z)
  : state * list (Z * list output) :=
  match fuel with
  | O => (s, [])
  | S fuel' =>
      match Timers.earliest (Timers.pending (timers s)) with
      | Some (id, d) =>
          if ((d <? t) || (inclusive && (d =? t)))%Z then
            let (s1, out) := step s (timeout d id) in
            let (s2, log) := advance fuel' inclusive s1 t in
            (s2, (d, out) :: log)
          else (s, [])
      | None => (s, [])
      end
  end.

Definition settle (inclusive : bool) (s : state) (t : Z)
  : state * list (Z * list output) :=
  advance (List.length (Timers.pending (timers s))) inclusive s t.

(** Play a list of external events in order.  Before an event that carries a
    time, the timers due by then are run. *)
Fixpoint play (timers_first : bool) (s : state) (evs : list event)
  : state * list (Z * list output) :=
  match evs with
  | [] => (s, [])
  | e :: rest =>
      match event_time e with
      | Some t =>
          let (s1, log1) := settle timers_first s t in
          let (s2, out) := step s1 e in
          let (s3, log3) := play timers_first s2 rest in
          (s3, log1 ++ (t, out) :: log3)
      | None =>
          let (s2, _) := step s e in
          play timers_first s2 rest
      end
  end.

(** The timed log of playing [evs] and then letting time pass until
    [horizon]. *)
Definition simulate (timers_first : bool) (s : state) (evs : list event)
    (horizon : Z) : list (Z * list output) :=
  let (s1, log1) := play timers_first s evs in
  let (_, log2) := settle true s1 horizon in
  log1 ++ log2.

End Machine.
Arguments advance {state event C} timers step timeout fuel inclusive s t.
Arguments settle {state event C} timers step timeout inclusive s t.
Arguments play {state event C} timers step timeout event_time timers_first s evs.
Arguments simulate {state event C} timers step timeout event_time timers_first s evs horizon.

(** The entries of a timed log that carry an output satisfying [p]. *)
Definition select (p : output -> bool) (log : list (Z * list output))
  : list (Z * list output) :=
  filter (fun x => negb (Nat.eqb (List.length (snd x)) 0))
         (map (fun x => (fst x, filter p (snd x))) log).

End Clock.

Module AgentClock.

Definition event_time (e : AgentWatcher.event) : option Z :=
  match e with
  | AgentWatcher.Change now _ | AgentWatcher.Add now _ => Some now
  | AgentWatcher.TimerFired now _ => Some now
  | _ => None
  end.

Definition simulate :=
  Clock.simulate AgentWatcher.timers AgentWatcher.step AgentWatcher.TimerFired event_time.

Definition play :=
  Clock.play AgentWatcher.timers AgentWatcher.step AgentWatcher.TimerFired event_time.

Definition settle :=
  Clock.settle AgentWatcher.timers AgentWatcher.step AgentWatcher.TimerFired.

End AgentClock.

Module WindowClock.

Definition event_time (e : WindowWatcher.event) : option Z :=
  match e with
  | WindowWatcher.Start now _ _ _ => Some now
  | WindowWatcher.Poll now _ => Some now
  | WindowWatcher.TimerFired now _ => Some now
  | _ => None
  end.

Definition simulate :=
  Clock.simulate WindowWatcher.timers WindowWatcher.step WindowWatcher.TimerFired event_time.

(** The ticks of [setInterval]: [n] polls, [interval] apart, the first one
    [interval] after [t0]; [screen] gives what each tick observes. *)
Fixpoint ticks (n : nat) (t0 interval : Z) (screen : Z -> WindowWatcher.observed)
  : list WindowWatcher.event :=
  match n with
  | O => []
  | S n' =>
      let t := (t0 + interval)%Z in
      WindowWatcher.Poll t (screen t) :: ticks n' t interval screen
  end.

End WindowClock.

(* ====================================================================== *)
(** * More of the audio components *)
(* ====================================================================== *)

Module AudioRuns.
Section Engines.

Variable porcupine : Type.
Variable porcupine_process : porcupine -> list Z -> porcupine * (Z + string).
Variable leopard : Type.

(** What the engine is asked and what is sent for it, frame by frame: the
    handle after the calls and one [wake-word-detected] message for every
    frame whose result is a keyword index of at least 0. *)
Fixpoint engine_run (h : porcupine) (frames : list (list Z))
  : porcupine * list ipc_msg :=
  match frames with
  | [] => (h, [])
  | frame :: rest =>
      let (h', r) := porcupine_process h frame in
      let msgs :=
        match r with
        | inl keywordIndex =>
            if (0 <=? keywordIndex)%Z then [wake_word_detected keywordIndex] else []
        | inr _ => []
        end in
      let (h'', more) := engine_run h' rest in
      (h'', msgs ++ more)
  end.

(** Chunks delivered one after the other on the capture stream [id]. *)
Fixpoint deliver (fuel : nat) (s : Audio.state porcupine leopard) (id : nat)
    (chunks : list Audio.Buffer) : outcome (Audio.state porcupine leopard) :=
  match chunks with
  | [] => Returned s
  | data :: rest =>
      s1 <- Audio.stream_data porcupine porcupine_process leopard fuel s id data ;;
      deliver fuel s1 id rest
  end.

End Engines.
End AudioRuns.

(* ====================================================================== *)
(** * Reading the log of the agent watcher *)
(* ====================================================================== *)

Module AgentTrace.
Import AgentWatcher.

Definition is_notify (o : output) : bool :=
  match o with Notify _ _ => true | _ => false end.

(** An entry after which the list of changed files is empty again: a start,
    or a timer callback that took its branch (it always notifies). *)
Definition is_reset (entry : event * list output) : bool :=
  is_start (fst entry) || existsb is_notify (snd entry).

(** The entries after the last reset. *)
Definition last_segment (log : list (event * list output))
  : list (event * list output) :=
  fold_left (fun acc entry => if is_reset entry then [] else acc ++ [entry]) log [].

(** The paths of the change and add events of a log, in order. *)
Definition change_paths (log : list (event * list output)) : list string :=
  flat_map (fun entry =>
              match fst entry with
              | Change _ p | Add _ p => [p]
              | _ => []
              end) log.

(** First occurrences, in order. *)
Definition first_occurrences (paths : list string) : list string :=
  fold_left add_file paths [].

(** What holds between steps: the list of changed files is the list of
    first occurrences of the paths changed since the last reset. *)
Definition files_ok (s : state) (prefix : list (event * list output)) : Prop :=
  changedFiles s = first_occurrences (change_paths (last_segment prefix)).

(** What holds of the pending timer: without a watcher nothing is pending,
    and a pending timer is due one (effective) idle threshold after the
    last file change. *)
Definition timer_ok (s : state) : Prop :=
  (agentWatcher s = false -> Timers.pending (timers s) = []) /\
  forall id due c,
    Timers.find id (Timers.pending (timers s)) = Some (due, c) ->
    exists l, lastFileChange s = Some l /\
              due = (l + Timers.effective_delay (idleThreshold s))%Z.

(** Nothing can happen by itself: no watcher, no pending timer. *)
Definition at_rest (s : state) : Prop :=
  agentWatcher s = false /\ Timers.pending (timers s) = [].

(** The watcher started on [w] with threshold [idle] and ready; then the
    changes, each with its time and path. *)
Definition burst (w : string) (idle : Z) (changes : list (Z * string)) : list event :=
  Start w (Some idle) :: Ready :: map (fun c => Change (fst c) (snd c)) changes.

(** Each change comes no earlier than the one before and less than [idle]
    after it. *)
Fixpoint close_together (idle : Z) (t : Z) (later : list Z) : Prop :=
  match later with
  | [] => True
  | t' :: rest => (t <= t' < t + idle)%Z /\ close_together idle t' rest
  end.

Definition last_time (t : Z) (later : list Z) : Z := last later t.

(** The watcher with activity seen at [t] and its timer [id] pending. *)
Definition armed (w : string) (idle : Z) (files : list string) (t : Z)
    (id next : nat) : state :=
  mkState true true (Some t) (Some id) true w idle true files
          (Timers.mk [(id, ((t + idle)%Z, tt))] next).

End AgentTrace.

(* ====================================================================== *)
(** * Reading the state of the window watcher *)
(* ====================================================================== *)

Module WindowTrace.
Import WindowWatcher.

Definition is_start (e : event) : bool :=
  match e with Start _ _ _ _ => true | _ => false end.

(** [startWindowWatcher] answers [success: true] exactly when the app and
    the window were found; otherwise it returns early with [success: false]. *)
Definition start_succeeds (found : option string) (obs : observed) : bool :=
  match found, info obs with
  | Some _, Some _ => true
  | _, _ => false
  end.

(** The [enabled] field of [getWindowWatcherStatus()]. *)
Definition status_enabled (s : state) : bool := windowWatcherEnabled s.

(** Nothing can happen by itself: no polling interval, no pending timer. *)
Definition at_rest (s : state) : Prop :=
  windowWatcherInterval s = false /\ Timers.pending (timers s) = [].

(** What holds of the pending confirm timer: it is due 2000 ms after a tick
    that saw at least the idle threshold pass since the last activity. *)
Definition confirm_ok (s : state) : Prop :=
  forall id due c,
    Timers.find id (Timers.pending (timers s)) = Some (due, c) ->
    (idleThreshold (windowWatcherConfig s) + 2000 <=
     due - num (lastWindowActivity s))%Z.

End WindowTrace.

(* ====================================================================== *)
(** * Resolving apps and windows *)
(* ====================================================================== *)

Module Resolver.

(** [s.includes(sub)]: [sub] occurs in [s]. *)
Fixpoint includes (s sub : string) : bool :=
  if String.prefix sub s then true
  else match s with
       | EmptyString => false
       | String _ s' => includes s' sub
       end.

(** [const AI_APP_ALIASES = { ... }] *)
Definition AI_APP_ALIASES : list (string * list string) :=
  [("cursor", ["Cursor"; "cursor"]);
   ("vscode", ["Visual Studio Code"; "Code"; "code"]);
   ("chrome", ["Google Chrome"; "Chrome"]);
   ("safari", ["Safari"]);
   ("firefox", ["Firefox"]);
   ("chatgpt", ["Google Chrome"; "Safari"; "Firefox"]);
   ("claude", ["Google Chrome"; "Safari"; "Firefox"]);
   ("gemini", ["Google Chrome"; "Safari"; "Firefox"]);
   ("discord", ["Discord"]);
   ("windsurf", ["Windsurf"; "windsurf"]);
   ("terminal", ["Terminal"; "iTerm"; "iTerm2"])].

(** Reading [table[key]] of an object literal gives the own property if
    there is one; otherwise what [Object.prototype] has under that name, a
    function or an object; otherwise [undefined]. *)
Inductive property : Type :=
| Own (aliases : list string)
| Inherited
| Absent.

Definition object_prototype_names : list string :=
  ["constructor"; "__defineGetter__"; "__defineSetter__"; "hasOwnProperty";
   "__lookupGetter__"; "__lookupSetter__"; "isPrototypeOf";
   "propertyIsEnumerable"; "toString"; "valueOf"; "__proto__"; "toLocaleString"].

Fixpoint own_property (table : list (string * list string)) (key : string)
  : option (list string) :=
  match table with
  | [] => None
  | (k, v) :: rest => if String.eqb k key then Some v else own_property rest key
  end.

Definition get_property (table : list (string * list string)) (key : string)
  : property :=
  match own_property table key with
  | Some v => Own v
  | None =>
      if existsb (String.eqb key) object_prototype_names then Inherited else Absent
  end.

(** [array.find(pred)] *)
Fixpoint find (pred : string -> bool) (l : list string) : option string :=
  match l with
  | [] => None
  | x :: rest => if pred x then Some x else find pred rest
  end.

(** The end of [getRunningApps]: of the names the output splits into, the
    empty ones are dropped ([.filter(a => a)]). *)
Definition getRunningApps (names : list string) : list string :=
  filter (fun a => negb (String.eqb a "")) names.

Section Runtime.

(** [String.prototype.toLowerCase] of the runtime. *)
Variable toLowerCase : string -> string.

(** The test of [running.find(app => ...)] for one alias. *)
Definition alias_matches (alias app : string) : bool :=
  includes (toLowerCase app) (toLowerCase alias) ||
  includes (toLowerCase alias) (toLowerCase app).

(** The loop [for (const alias of aliases)]: the first alias with a match
    that is a non-empty string decides. *)
Fixpoint search (aliases running : list string) : option string :=
  match aliases with
  | [] => None
  | alias :: rest =>
      match find (alias_matches alias) running with
      | Some found => if String.eqb found "" then search rest running else Some found
      | None => search rest running
      end
  end.

(** The aliases tried when the lookup gives an array or nothing:
    [AI_APP_ALIASES[lower] || [searchName]]. *)
Definition aliases_of (searchName : string) : list string :=
  match get_property AI_APP_ALIASES (toLowerCase searchName) with
  | Own aliases => aliases
  | _ => [searchName]
  end.

(** [findAppByName(searchName)], [running] being what [getRunningApps()]
    returned; [None] is [null]. *)
Definition findAppByName (running : list string) (searchName : string)
  : outcome (option string) :=
  let lower := toLowerCase searchName in
  match get_property AI_APP_ALIASES lower with
  | Own aliases => Returned (search aliases running)
  | Inherited => Threw "TypeError: aliases is not iterable"
  | Absent => Returned (search [searchName] running)
  end.

(** [parseInt] of the runtime; [None] is [NaN]. *)
Variable parseInt : string -> option Z.

(** [s.split(sep)] for a separator of one character. *)
Fixpoint split_char (sep : ascii) (s : string) : list string :=
  match s with
  | EmptyString => [EmptyString]
  | String c s' =>
      if Ascii.eqb c sep then EmptyString :: split_char sep s'
      else match split_char sep s' with
           | p :: ps => String c p :: ps
           | [] => [String c EmptyString]
           end
  end.

(** [parts.join(sep)] *)
Fixpoint join_char (sep : ascii) (parts : list string) : string :=
  match parts with
  | [] => EmptyString
  | [p] => p
  | p :: ps => (p ++ String sep (join_char sep ps))%string
  end.

Record window : Type := mkWindow {
  index : option Z;
  x : option Z;
  y : option Z;
  width : option Z;
  height : option Z;
  title : string;
  app : string
}.

(** [parseInt(part)] for a part of a destructured array; a part that is not
    there is [undefined] and gives [NaN]. *)
Definition number (part : option string) : option Z :=
  match part with
  | Some v => parseInt v
  | None => None
  end.

(** The callback of [getAllWindows]:
    [[
      const [index, x, y, width, height, ...titleParts] = w.split('|');
      return { index: parseInt(index), ..., title: titleParts.join('|'), app: appName };
    ]] *)
Definition parse_window_entry (appName : string) (w : string) : window :=
  let parts := split_char "|" w in
  mkWindow (number (nth_error parts 0)) (number (nth_error parts 1))
           (number (nth_error parts 2)) (number (nth_error parts 3))
           (number (nth_error parts 4))
           (join_char "|" (skipn 5 parts)) appName.

(** The end of [getWindowInfo], [trimmed] being [result.trim()]:
    [[
      const [x, y, width, height, ...titleParts] = result.trim().split(',');
      return { index: windowSelector, ..., title: titleParts.join(','), app: appName };
    ]] *)
Definition parse_window_info (appName : string) (windowSelector : Z)
    (trimmed : string) : window :=
  let parts := split_char "," trimmed in
  mkWindow (Some windowSelector) (number (nth_error parts 0))
           (number (nth_error parts 1)) (number (nth_error parts 2))
           (number (nth_error parts 3))
           (join_char "," (skipn 4 parts)) appName.

End Runtime.

(** The separator does not occur in the string. *)
Fixpoint free_of (sep : ascii) (s : string) : bool :=
  match s with
  | EmptyString => true
  | String c s' => negb (Ascii.eqb c sep) && free_of sep s'
  end.

End Resolver.

(* ====================================================================== *)
(** * Controlling apps ([executeCommand]) *)
(* ====================================================================== *)

Module AppControl.

(** What is asked of the desktop, in order. *)
Inductive op : Type :=
| Focus (appName : string)        (* [focusApp(appName)] *)
| TypeText (text : string)        (* [typeText(text)] *)
| PressKey (key : string)         (* [pressKey(key)] *)
| OpenExternal (url : string).    (* [shell.openExternal(url)] *)

(** How the desktop answers: a promise resolves ([inl]) or rejects with an
    error ([inr], its message); [encodeURIComponent] returns or throws. *)
Record env : Type := mkEnv {
  focusApp : string -> unit + string;
  typeText : string -> unit + string;
  pressKey : string -> unit + string;
  encodeURIComponent : string -> string + string
}.

Inductive result : Type :=
| Success                   (* { success: true } *)
| Failure (error : string). (* { success: false, error } *)

(** The body of the [try]: the operations asked so far, and whether an
    exception is on its way to the [catch]. *)
Definition attempt : Type := list op * (unit + string).

Definition and_then (a : attempt) (k : list op -> attempt) : attempt :=
  match a with
  | (ops, inl _) => k ops
  | (ops, inr msg) => (ops, inr msg)
  end.

Definition ask (o : op) (answer : unit + string) (ops : list op) : attempt :=
  (ops ++ [o], answer).

(** [if (targetApp)]: neither [undefined] nor the empty string. *)
Definition truthy (targetApp : option string) : option string :=
  match targetApp with
  | Some a => if String.eqb a "" then None else Some a
  | None => None
  end.

Definition executeCommand (e : env) (action command : string)
    (targetApp : option string) : list op * result :=
  let focused : attempt :=
    match truthy targetApp with
    | Some a => ask (Focus a) (focusApp e a) []
    | None => ([], inl tt)
    end in
  let done : attempt :=
    and_then focused (fun ops =>
      if String.eqb action "type" then
        ask (TypeText command) (typeText e command) ops
      else if String.eqb action "type_and_send" then
        and_then (ask (TypeText command) (typeText e command) ops)
                 (ask (PressKey "enter") (pressKey e "enter"))
      else if String.eqb action "open" then
        ask (Focus command) (focusApp e command) ops
      else if String.eqb action "open_url" then
        ask (OpenExternal command) (inl tt) ops
      else if String.eqb action "search" then
        match encodeURIComponent e command with
        | inl q =>
            ask (OpenExternal ("https://www.google.com/search?q=" ++ q)%string)
                (inl tt) ops
        | inr msg => (ops, inr msg)
        end
      else
        ask (TypeText command) (typeText e command) ops) in
  match done with
  | (ops, inl _) => (ops, Success)
  | (ops, inr msg) => (ops, Failure msg)
  end.

(** How the desktop answers an operation. [shell.openExternal] is not
    awaited: what becomes of its promise does not reach the [try]. *)
Definition answer (e : env) (o : op) : unit + string :=
  match o with
  | Focus a => focusApp e a
  | TypeText t => typeText e t
  | PressKey k => pressKey e k
  | OpenExternal _ => inl tt
  end.

(** No target app to focus, or focusing it succeeds. *)
Definition focused (e : env) (targetApp : option string) : bool :=
  match truthy targetApp with
  | Some a => match focusApp e a with inl _ => true | inr _ => false end
  | None => true
  end.

(** Typing the text succeeds. *)
Definition typed (e : env) (text : string) : bool :=
  match typeText e text with inl _ => true | inr _ => false end.

End AppControl.

(* ====================================================================== *)
(** * Concrete engines, environments and states *)
(* ====================================================================== *)

Module Demo.

(** A Porcupine engine without state that never matches; frames of 512
    samples at 16 kHz. *)
Definition silent (h : unit) (frame : list Z) : unit * (Z + string) :=
  (h, inl (-1)%Z).

Definition frameLength512 (h : unit) : nat := 512.
Definition sampleRate16k (h : unit) : nat := 16 * 1000.

Definition transcribe (h : unit) (samples : list Z) : unit * (string + string) :=
  (h, inl "hello").

(** Every keyword is known, every file is there, constructors and the
    capture utility work. *)
Definition env_ok : Audio.env unit unit :=
  Audio.mkEnv unit unit (fun _ => true) (fun _ => true) true
    (fun k => k) "porcupine_params.pv"
    (fun _ _ => inl tt) (fun _ => inl tt) (fun h => (h, inl tt)) (inl tt) (inl tt).

(** After startup, all three modules loaded, nothing started. *)
Definition idle : Audio.state unit unit :=
  Audio.mkState unit unit true true true None false None None
    None None None true [] 0 [] [].

(** The detector is listening on stream 0. *)
Definition listening : Audio.state unit unit :=
  Audio.mkState unit unit true true true (Some tt) true (Some 0) (Some "key")
    None None None true [(0, Audio.WakeListener [] 512)] 1 [] [].

(** A recording session is open on stream 0 and has collected nothing. *)
Definition recording : Audio.state unit unit :=
  Audio.mkState unit unit true true true None false None None
    (Some tt) (Some 0) (Some "key") true [(0, Audio.LeopardCollector [])] 1 [] [].

(** Porcupine loaded, the capture module [node-record-lpcm16] did not. *)
Definition no_capture : Audio.state unit unit :=
  Audio.mkState unit unit true true false None false None None
    None None None true [] 0 [] [].

(** Porcupine did not load. *)
Definition no_porcupine : Audio.state unit unit :=
  Audio.mkState unit unit false true true None false None None
    None None None true [] 0 [] [].

Definition chunk1500 : Audio.Buffer := repeat x01 1500.

(** The agent watcher started on [w] with an idle threshold of 3000 ms and
    ready; then changes of [a], [b] and [c] at 0, 1000 and 1800 ms. *)
Definition three_changes (w a b c : string) : list AgentWatcher.event :=
  [AgentWatcher.Start w (Some 3000%Z); AgentWatcher.Ready;
   AgentWatcher.Change 0 a; AgentWatcher.Change 1000 b; AgentWatcher.Change 1800 c].

(** What the ticks of the window watcher see: the changes of 0, 1000 and
    1800 ms show at the ticks of 500, 1000 and 2000 ms. *)
Definition screen (t : Z) : WindowWatcher.observed :=
  WindowWatcher.mkObserved (Some "Editor")
    (Some (if (t <? 1000)%Z then "h1" else if (t <? 2000)%Z then "h2" else "h3")).

(** The window watcher started at 0 ms on the app "Cursor" with an idle
    threshold of 3000 ms, the baseline fingerprint being "h0"; then twenty
    ticks, 500 ms apart. *)
Definition watched_window : list WindowWatcher.event :=
  WindowWatcher.Start 0 (Some "Cursor")
    (WindowWatcher.mkOptions (Some 3000%Z) None)
    (WindowWatcher.mkObserved (Some "Editor") (Some "h0"))
  :: WindowClock.ticks 20 0 500 screen.

(** What a tick sees of a window that changes at 0, 1000 and 1800 ms. *)
Definition screen_at (t : Z) : WindowWatcher.observed :=
  WindowWatcher.mkObserved (Some "Editor")
    (Some (if (t <? 0)%Z then "h0"
           else if (t <? 1000)%Z then "h1"
           else if (t <? 1800)%Z then "h2" else "h3")).

(** The window watcher started on the app "Cursor" with an idle threshold
    of 3000 ms and a capture interval of [interval] ms, one interval before
    0 ms, the baseline fingerprint being "h0"; then its ticks up to 10 s.
    With an interval that divides 200 ms the ticks fall on 0, 1000 and 1800
    ms, so that the three changes are reported at these very times. *)
Definition polled_window (interval : Z) : list WindowWatcher.event :=
  WindowWatcher.Start (- interval) (Some "Cursor")
    (WindowWatcher.mkOptions (Some 3000%Z) (Some interval))
    (WindowWatcher.mkObserved (Some "Editor") (Some "h0"))
  :: WindowClock.ticks (Z.to_nat (10000 / interval)) (- interval) interval screen_at.

(** The agent watcher after one change: timer 0 is pending, due at 3000. *)
Definition agent_pre : list AgentWatcher.event :=
  [AgentWatcher.Start "/w" (Some 3000%Z); AgentWatcher.Ready;
   AgentWatcher.Change 0 "a.js"].

Definition agent_after (evs : list AgentWatcher.event)
  : AgentWatcher.state * list (AgentWatcher.event * list output) :=
  match AgentWatcher.run AgentWatcher.init evs with
  | Some r => r
  | None => (AgentWatcher.init, [])
  end.

(** The window watcher after 3000 ms without change: timer 0 is pending,
    due at 5000. *)
Definition window_pre : list WindowWatcher.event :=
  [WindowWatcher.Start 0 (Some "Cursor")
     (WindowWatcher.mkOptions (Some 3000%Z) None)
     (WindowWatcher.mkObserved (Some "Editor") (Some "h0"));
   WindowWatcher.Poll 3000 (WindowWatcher.mkObserved (Some "Editor") (Some "h0"))].

Definition window_from (s : WindowWatcher.state) (evs : list WindowWatcher.event)
  : WindowWatcher.state * list (WindowWatcher.event * list output) :=
  match WindowWatcher.run s evs with
  | Some r => r
  | None => (s, [])
  end.

(** Right after the start: baseline "h0", no timer. *)
Definition window_started : WindowWatcher.state :=
  fst (window_from WindowWatcher.init
         [WindowWatcher.Start 0 (Some "Cursor")
            (WindowWatcher.mkOptions (Some 3000%Z) None)
            (WindowWatcher.mkObserved (Some "Editor") (Some "h0"))]).

Definition same_polls : list WindowWatcher.event :=
  [WindowWatcher.Poll 500 (WindowWatcher.mkObserved (Some "Editor") (Some "h0"));
   WindowWatcher.Poll 1000 (WindowWatcher.mkObserved (Some "Editor") (Some "h0"))].

Definition window_after (evs : list WindowWatcher.event)
  : WindowWatcher.state * list (WindowWatcher.event * list output) :=
  match WindowWatcher.run WindowWatcher.init evs with
  | Some r => r
  | None => (WindowWatcher.init, [])
  end.

End Demo.

(* ====================================================================== *)
(** * A sample runtime and desktop *)
(* ====================================================================== *)

Module Samples.

(** Lower case of the ASCII letters. *)
Definition lower_char (c : ascii) : ascii :=
  let n := nat_of_ascii c in
  if ((65 <=? n) && (n <=? 90))%nat then ascii_of_nat (n + 32) else c.

Fixpoint toLowerCase (s : string) : string :=
  match s with
  | EmptyString => EmptyString
  | String c s' => String (lower_char c) (toLowerCase s')
  end.

(** The decimal digits a string starts with, as a number. *)
Fixpoint digits (acc : option Z) (s : string) : option Z :=
  match s with
  | EmptyString => acc
  | String c s' =>
      let n := nat_of_ascii c in
      if ((48 <=? n) && (n <=? 57))%nat then
        digits (Some (10 * match acc with Some a => a | None => 0 end
                      + Z.of_nat (n - 48))%Z) s'
      else acc
  end.

Definition parseInt (s : string) : option Z := digits None s.

Definition running : list string :=
  ["Finder"; ""; "Google Chrome"; "Cursor"; "Terminal"].

(** A Porcupine engine that hears the keyword 0 in every frame. *)
Definition eager (h : unit) (frame : list Z) : unit * (Z + string) :=
  (h, inl 0%Z).

(** The listening detector after one chunk of 1500 bytes, with [eager]. *)
Definition wake_after : Audio.state unit unit * Audio.Buffer * list (Audio.Buffer * list Z) :=
  match Audio.wake_on_data unit eager unit 1501 Demo.listening [] 512 Demo.chunk1500 with
  | Returned r => r
  | _ => (Demo.listening, [], [])
  end.

(** The open recording session stopped at once. *)
Definition stopped : Audio.state unit unit :=
  match Audio.stopNativeLeopardRecording unit unit Demo.transcribe Demo.env_ok
          Demo.recording with
  | Returned r => fst r
  | _ => Demo.recording
  end.

Definition agent_from (s : AgentWatcher.state) (evs : list AgentWatcher.event)
  : AgentWatcher.state * list (AgentWatcher.event * list output) :=
  match AgentWatcher.run s evs with
  | Some r => r
  | None => (s, [])
  end.

(** After a stop: the main window goes and comes back, and a second stop. *)
Definition agent_quiet : list AgentWatcher.event :=
  [AgentWatcher.MainWindow false; AgentWatcher.Stop; AgentWatcher.MainWindow true].

Definition window_quiet : list WindowWatcher.event :=
  [WindowWatcher.MainWindow false; WindowWatcher.Stop; WindowWatcher.MainWindow true].

(** Leopard handles that show whether they were released ([false]); the
    constructor accepts one access key only. *)
Definition env_one_key : Audio.env unit bool :=
  Audio.mkEnv unit bool (fun _ => true) (fun _ => true) true
    (fun k => k) "porcupine_params.pv"
    (fun _ _ => inl tt)
    (fun k => if String.eqb k "key" then inl true else inr "Invalid AccessKey")
    (fun _ => (false, inl tt)) (inl tt) (inl tt).

(** An engine made for "key", not released; nothing started. *)
Definition keyed : Audio.state unit bool :=
  Audio.mkState unit bool true true true None false None None
    (Some true) None (Some "key") true [] 0 [] [].

(** A desktop on which every app but one can be focused. *)
Definition desktop : AppControl.env :=
  AppControl.mkEnv
    (fun a => if String.eqb a "Ghost" then inr "Application is not running" else inl tt)
    (fun _ => inl tt)
    (fun _ => inl tt)
    (fun s => inl s).

End Samples.

(* ====================================================================== *)
(** * Facts about the audio frame loop *)
(* ====================================================================== *)

Section AudioFacts.

Variable porcupine : Type.
Variable porcupine_process : porcupine -> list Z -> porcupine * (Z + string).
Variable leopard : Type.

Local Abbreviation process_frames := (Audio.process_frames porcupine porcupine_process).
Local Abbreviation wake_on_data := (Audio.wake_on_data porcupine porcupine_process leopard).
Local Abbreviation wake_feed := (Audio.wake_feed porcupine porcupine_process leopard).
Local Abbreviation state := (Audio.state porcupine leopard).
Local Abbreviation drained := (Audio.drained porcupine).
Local Abbreviation after_data := (Audio.after_data porcupine leopard).


Lemma Int16Array_slice (fl : nat) :
  forall buf : Audio.Buffer,
    fl * 2 <= List.length buf ->
    exists fr, Audio.Int16Array (firstn (fl * 2) buf) fl = Returned fr /\
               List.length fr = fl.
Proof.
  induction fl as [|n IH]; intros buf Hlen.
  - exists []. split; reflexivity.
  - destruct buf as [|lo [|hi rest]]; simpl in Hlen; try lia.
    destruct (IH rest) as [fr [Hfr Hl]]; [lia|].
    exists (Audio.int16 lo hi :: fr).
    change (S n * 2) with (S (S (n * 2))).
    simpl firstn. simpl Audio.Int16Array. rewrite Hfr. simpl.
    split; [reflexivity | now rewrite Hl].
Qed.

Lemma process_frames_unfold (fuel fl : nat) (h : porcupine) (buf : Audio.Buffer) :
  process_frames (S fuel) fl h buf =
  if fl * 2 <=? List.length buf then
    frame <- Audio.Int16Array (firstn (fl * 2) buf) fl ;;
    let (h', r) := porcupine_process h frame in
    let msgs :=
      match r with
      | inl keywordIndex =>
          if (0 <=? keywordIndex)%Z then [wake_word_detected keywordIndex] else []
      | inr _ => []
      end in
    d <- process_frames fuel fl h' (skipn (fl * 2) buf) ;;
    Returned (Audio.mkDrained porcupine (Audio.d_handle _ d) (Audio.d_rest _ d)
                (msgs ++ Audio.d_msgs _ d)
                ((firstn (fl * 2) buf, frame) :: Audio.d_trace _ d))
  else Returned (Audio.mkDrained porcupine h buf [] []).
Proof. reflexivity. Qed.

(** With a positive frame length the loop ends within [length buf + 1]
    rounds; what it cuts off are whole frames, in order, and the bytes left
    are the rest of the buffer, shorter than one frame. *)
Lemma process_frames_spec (fl : nat) (Hfl : 0 < fl) :
  forall (fuel : nat) (h : porcupine) (buf : Audio.Buffer),
    List.length buf < fuel ->
    exists d : drained,
      process_frames fuel fl h buf = Returned d /\
      Forall (Audio.frame_ok fl) (Audio.d_trace _ d) /\
      List.concat (map fst (Audio.d_trace _ d)) ++ Audio.d_rest _ d = buf /\
      List.length (Audio.d_rest _ d) < fl * 2.
Proof.
  induction fuel as [|fuel IH]; intros h buf Hlen; [lia|].
  rewrite process_frames_unfold.
  destruct (Nat.leb_spec (fl * 2) (List.length buf)) as [Hge|Hlt].
  - destruct (Int16Array_slice fl buf Hge) as [fr [Hfr Hl]].
    rewrite Hfr. cbn [obind].
    destruct (porcupine_process h fr) as [h' r].
    destruct (IH h' (skipn (fl * 2) buf)) as [d [Hd [Hok [Hcat Hrest]]]].
    { rewrite length_skipn. lia. }
    rewrite Hd. cbn [obind].
    eexists. split; [reflexivity|]. simpl.
    split; [|split].
    + constructor; [|exact Hok].
      repeat split; simpl; auto.
      rewrite length_firstn. lia.
    + rewrite <- app_assoc, Hcat. apply firstn_skipn.
    + exact Hrest.
  - eexists. split; [reflexivity|]. simpl.
    repeat split; auto.
Qed.

(** The result does not depend on the fuel, once there is enough of it. *)
Lemma process_frames_fuel (fl : nat) (Hfl : 0 < fl) :
  forall (f1 f2 : nat) (h : porcupine) (buf : Audio.Buffer),
    List.length buf < f1 -> List.length buf < f2 ->
    process_frames f1 fl h buf = process_frames f2 fl h buf.
Proof.
  induction f1 as [|f1 IH]; intros f2 h buf H1 H2; [lia|].
  destruct f2 as [|f2]; [lia|].
  rewrite !process_frames_unfold.
  destruct (Nat.leb_spec (fl * 2) (List.length buf)) as [Hge|Hlt]; [|reflexivity].
  destruct (Audio.Int16Array (firstn (fl * 2) buf) fl) as [fr| |]; simpl; try reflexivity.
  destruct (porcupine_process h fr) as [h' r].
  rewrite (IH f2 h' (skipn (fl * 2) buf)); [reflexivity| |];
    rewrite length_skipn; lia.
Qed.

(** Bytes appended behind the buffer do not change the frames cut from the
    front: draining [a ++ b] is draining [a] and then draining what was left
    of [a] followed by [b]. *)
Lemma process_frames_app (fl : nat) (Hfl : 0 < fl) :
  forall (fuel : nat) (h : porcupine) (a b : Audio.Buffer),
    List.length a + List.length b < fuel ->
    process_frames fuel fl h (a ++ b) =
    (d1 <- process_frames fuel fl h a ;;
     d2 <- process_frames fuel fl (Audio.d_handle _ d1) (Audio.d_rest _ d1 ++ b) ;;
     Returned (Audio.mkDrained porcupine (Audio.d_handle _ d2) (Audio.d_rest _ d2)
                 (Audio.d_msgs _ d1 ++ Audio.d_msgs _ d2)
                 (Audio.d_trace _ d1 ++ Audio.d_trace _ d2))).
Proof.
  induction fuel as [|fuel IH]; intros h a b Hlen; [lia|].
  rewrite (process_frames_unfold fuel fl h a).
  destruct (Nat.leb_spec (fl * 2) (List.length a)) as [Hge|Hlt].
  - rewrite process_frames_unfold.
    assert (Hge' : fl * 2 <= List.length (a ++ b)) by (rewrite length_app; lia).
    apply Nat.leb_le in Hge'. rewrite Hge'.
    rewrite firstn_app, skipn_app.
    replace (fl * 2 - List.length a) with 0 by lia.
    simpl firstn. simpl skipn. rewrite app_nil_r.
    destruct (Audio.Int16Array (firstn (fl * 2) a) fl) as [fr| |]; cbn [obind];
      try reflexivity.
    destruct (porcupine_process h fr) as [h' r].
    rewrite (IH h' (skipn (fl * 2) a) b) by (rewrite length_skipn; lia).
    destruct (process_frames_spec fl Hfl fuel h' (skipn (fl * 2) a))
      as [d1 [Hd1 [_ [Hcat Hrest]]]].
    { rewrite length_skipn. lia. }
    rewrite Hd1. cbn [obind Audio.d_handle Audio.d_rest Audio.d_msgs Audio.d_trace].
    assert (Hl1 : List.length (Audio.d_rest _ d1) <= List.length a).
    { apply (f_equal (@List.length _)) in Hcat.
      rewrite length_app, length_skipn in Hcat. lia. }
    rewrite (process_frames_fuel fl Hfl (S fuel) fuel)
      by (rewrite length_app; lia).
    destruct (process_frames fuel fl (Audio.d_handle _ d1) (Audio.d_rest _ d1 ++ b))
      as [d2| |]; simpl; try reflexivity.
    now rewrite <- app_assoc.
  - cbn [obind]. simpl Audio.d_handle. simpl Audio.d_rest.
    destruct (process_frames (S fuel) fl h (a ++ b)) as [d| |]; simpl; try reflexivity.
    now destruct d.
Qed.


Lemma wake_on_data_listening (fuel fl : nat) (s : state) (h : porcupine)
    (buf data : Audio.Buffer) :
  Audio.porcupineListening _ _ s = true ->
  Audio.porcupineHandle _ _ s = Some h ->
  wake_on_data fuel s buf fl data =
  (d <- process_frames fuel fl h (buf ++ data) ;;
   Returned (after_data s (Audio.d_handle _ d) (Audio.d_msgs _ d),
             Audio.d_rest _ d, Audio.d_trace _ d)).
Proof.
  intros Hl Hh. unfold Audio.wake_on_data, Audio.after_data.
  destruct (Audio.porcupineListening _ _ s); [|discriminate].
  rewrite Hh. reflexivity.
Qed.

Lemma send_fields (s : state) (m : ipc_msg) :
  Audio.porcupineListening _ _ (Audio.send _ _ s m) = Audio.porcupineListening _ _ s /\
  Audio.porcupineHandle _ _ (Audio.send _ _ s m) = Audio.porcupineHandle _ _ s /\
  Audio.audioInputStream _ _ (Audio.send _ _ s m) = Audio.audioInputStream _ _ s /\
  Audio.wakeWordAccessKey _ _ (Audio.send _ _ s m) = Audio.wakeWordAccessKey _ _ s /\
  Audio.mainWindowOk _ _ (Audio.send _ _ s m) = Audio.mainWindowOk _ _ s.
Proof.
  unfold Audio.send. destruct (Audio.mainWindowOk _ _ s) eqn:E; simpl; auto.
Qed.

Lemma sends_fields (msgs : list ipc_msg) :
  forall s : state,
    let s' := fold_left (Audio.send porcupine leopard) msgs s in
    Audio.porcupineListening _ _ s' = Audio.porcupineListening _ _ s /\
    Audio.porcupineHandle _ _ s' = Audio.porcupineHandle _ _ s /\
    Audio.audioInputStream _ _ s' = Audio.audioInputStream _ _ s /\
    Audio.wakeWordAccessKey _ _ s' = Audio.wakeWordAccessKey _ _ s /\
    Audio.mainWindowOk _ _ s' = Audio.mainWindowOk _ _ s.
Proof.
  induction msgs as [|m msgs IH]; intros s; simpl; [auto|].
  destruct (IH (Audio.send _ _ s m)) as (A & B & C & D & E).
  destruct (send_fields s m) as (A' & B' & C' & D' & E').
  repeat split; congruence.
Qed.

Lemma set_wake_send (s : state) (m : ipc_msg) h l a k :
  Audio.set_wake _ _ (Audio.send _ _ s m) h l a k =
  Audio.send _ _ (Audio.set_wake _ _ s h l a k) m.
Proof.
  unfold Audio.send. simpl.
  destruct (Audio.mainWindowOk _ _ s); reflexivity.
Qed.

Lemma set_wake_sends (msgs : list ipc_msg) h l a k :
  forall s : state,
    Audio.set_wake _ _ (fold_left (Audio.send porcupine leopard) msgs s) h l a k =
    fold_left (Audio.send porcupine leopard) msgs (Audio.set_wake _ _ s h l a k).
Proof.
  induction msgs as [|m msgs IH]; intros s; simpl; [reflexivity|].
  rewrite IH, set_wake_send. reflexivity.
Qed.

Lemma after_data_fields (s : state) (h' : porcupine) (msgs : list ipc_msg) :
  Audio.porcupineListening _ _ (after_data s h' msgs) = Audio.porcupineListening _ _ s /\
  Audio.porcupineHandle _ _ (after_data s h' msgs) = Some h'.
Proof.
  unfold Audio.after_data.
  match goal with |- context [fold_left _ _ ?s0] =>
    destruct (sends_fields msgs s0) as (A & B & _) end.
  split; [rewrite A | rewrite B]; reflexivity.
Qed.

Lemma after_data_twice (s : state) (h1 h2 : porcupine) (m1 m2 : list ipc_msg) :
  after_data (after_data s h1 m1) h2 m2 = after_data s h2 (m1 ++ m2).
Proof.
  unfold Audio.after_data at 1.
  set (s1 := after_data s h1 m1).
  assert (E : Audio.porcupineListening _ _ s1 = Audio.porcupineListening _ _ s /\
              Audio.audioInputStream _ _ s1 = Audio.audioInputStream _ _ s /\
              Audio.wakeWordAccessKey _ _ s1 = Audio.wakeWordAccessKey _ _ s).
  { unfold s1, Audio.after_data.
    match goal with |- context [fold_left _ _ ?s0] =>
      destruct (sends_fields m1 s0) as (A & _ & C & D & _) end.
    cbn zeta in A, C, D. rewrite A, C, D. simpl. auto. }
  destruct E as (A & C & D). rewrite A, C, D.
  unfold s1, Audio.after_data. rewrite set_wake_sends, fold_left_app.
  reflexivity.
Qed.

Lemma after_data_same (s : state) (h : porcupine) :
  Audio.porcupineHandle _ _ s = Some h ->
  after_data s h [] = s.
Proof.
  intros Hh. destruct s; simpl in *. subst. reflexivity.
Qed.

(** Feeding chunks one by one is feeding their concatenation at once. *)
Lemma wake_feed_concat (fl : nat) (Hfl : 0 < fl) (fuel : nat) :
  forall (chunks : list Audio.Buffer) (s : state) (h : porcupine)
         (buf data : Audio.Buffer),
    Audio.porcupineListening _ _ s = true ->
    Audio.porcupineHandle _ _ s = Some h ->
    List.length buf + List.length data + List.length (List.concat chunks) < fuel ->
    wake_feed fuel s buf fl (data :: chunks) =
    wake_on_data fuel s buf fl (data ++ List.concat chunks).
Proof.
  induction chunks as [|c chunks IH]; intros s h buf data Hl Hh Hfuel.
  - simpl. rewrite app_nil_r.
    destruct (wake_on_data fuel s buf fl data) as [[[s1 b1] t1]| |]; simpl; auto.
    now rewrite app_nil_r.
  - change (wake_feed fuel s buf fl (data :: c :: chunks))
      with (r1 <- wake_on_data fuel s buf fl data ;;
            let '(s1, b1, t1) := r1 in
            r2 <- wake_feed fuel s1 b1 fl (c :: chunks) ;;
            let '(s2, b2, t2) := r2 in
            Returned (s2, b2, t1 ++ t2)).
    simpl List.concat in *. rewrite !length_app in Hfuel.
    rewrite (wake_on_data_listening fuel fl s h buf data Hl Hh).
    rewrite (wake_on_data_listening fuel fl s h buf _ Hl Hh).
    rewrite app_assoc.
    rewrite (process_frames_app fl Hfl fuel h (buf ++ data) (c ++ List.concat chunks))
      by (rewrite !length_app; lia).
    destruct (process_frames_spec fl Hfl fuel h (buf ++ data))
      as [d1 [Hd1 [_ [Hcat Hrest]]]].
    { rewrite length_app. lia. }
    rewrite Hd1. cbn [obind].
    destruct (after_data_fields s (Audio.d_handle _ d1) (Audio.d_msgs _ d1)) as [Hl1 Hh1].
    assert (Hlen1 : List.length (Audio.d_rest _ d1) <= List.length buf + List.length data).
    { apply (f_equal (@List.length _)) in Hcat.
      rewrite !length_app in Hcat. lia. }
    rewrite (IH _ (Audio.d_handle _ d1)); [|congruence|exact Hh1|lia].
    rewrite (wake_on_data_listening fuel fl _ (Audio.d_handle _ d1)); [|congruence|exact Hh1].
    destruct (process_frames fuel fl (Audio.d_handle _ d1)
                (Audio.d_rest _ d1 ++ c ++ List.concat chunks)) as [d2| |];
      cbn [obind]; try reflexivity.
    cbn [Audio.d_handle Audio.d_rest Audio.d_msgs Audio.d_trace].
    now rewrite after_data_twice.
Qed.

Lemma trace_bytes (fl : nat) (trace : list (Audio.Buffer * list Z)) :
  Forall (Audio.frame_ok fl) trace ->
  List.length (List.concat (map fst trace)) = fl * 2 * List.length trace.
Proof.
  induction 1 as [|it trace [Hb _] _ IH]; simpl; [lia|].
  rewrite length_app, IH, Hb. lia.
Qed.

(** One callback while listening: it returns, every iteration is a whole
    frame, no byte is lost and less than a frame is left. *)
Lemma wake_on_data_spec (fl : nat) (Hfl : 0 < fl) (fuel : nat) (s : state)
    (h : porcupine) (buf data : Audio.Buffer) :
  Audio.porcupineListening _ _ s = true ->
  Audio.porcupineHandle _ _ s = Some h ->
  List.length buf + List.length data < fuel ->
  exists s' rest trace,
    wake_on_data fuel s buf fl data = Returned (s', rest, trace) /\
    Forall (Audio.frame_ok fl) trace /\
    List.concat (map fst trace) ++ rest = buf ++ data /\
    List.length rest < fl * 2 /\
    Audio.porcupineListening _ _ s' = true /\
    exists h', Audio.porcupineHandle _ _ s' = Some h'.
Proof.
  intros Hl Hh Hfuel.
  rewrite (wake_on_data_listening fuel fl s h buf data Hl Hh).
  destruct (process_frames_spec fl Hfl fuel h (buf ++ data))
    as [d [Hd [Hok [Hcat Hrest]]]].
  { rewrite length_app. lia. }
  rewrite Hd. cbn [obind].
  destruct (after_data_fields s (Audio.d_handle _ d) (Audio.d_msgs _ d)) as [Hl1 Hh1].
  do 3 eexists. split; [reflexivity|].
  repeat split; auto; [congruence | eauto].
Qed.

(** C1.  Split invariance of the audio frame buffer.  While the detector is
    listening, for every positive frame length and every way of cutting a
    byte sequence into successive chunks, running the data callback once per
    chunk from an empty buffer returns, and yields the same iterations (the
    same frames with the same samples, in the same order), the same residual
    buffer and the same module state as one callback on the whole sequence.
    In particular, with a frame length of 512 samples, two chunks of 1500
    bytes give one frame per callback with residuals of 476 and then 952
    bytes, and a single callback on the 3000 bytes gives these two frames
    and the residual of 952 bytes. *)
Theorem frame_split_invariance (s : state) (h : porcupine) :
  Audio.porcupineListening _ _ s = true ->
  Audio.porcupineHandle _ _ s = Some h ->
  (forall (fl : nat) (chunks : list Audio.Buffer) (fuel : nat),
      0 < fl ->
      List.length (List.concat chunks) < fuel ->
      exists s' rest trace,
        wake_feed fuel s [] fl chunks = Returned (s', rest, trace) /\
        wake_on_data fuel s [] fl (List.concat chunks) = Returned (s', rest, trace)) /\
  (forall (d1 d2 : Audio.Buffer) (fuel : nat),
      List.length d1 = 1500 ->
      List.length d2 = 1500 ->
      3000 < fuel ->
      exists s1 s2 r1 r2 f1 f2,
        wake_on_data fuel s [] 512 d1 = Returned (s1, r1, [f1]) /\
        List.length r1 = 476 /\
        wake_on_data fuel s1 r1 512 d2 = Returned (s2, r2, [f2]) /\
        List.length r2 = 952 /\
        wake_on_data fuel s [] 512 (d1 ++ d2) = Returned (s2, r2, [f1; f2])).
Proof.
  intros Hl Hh. split.
  - intros fl chunks fuel Hfl Hfuel.
    destruct chunks as [|c chunks].
    + simpl List.concat.
      rewrite (wake_on_data_listening fuel fl s h [] [] Hl Hh).
      destruct fuel as [|fuel]; [simpl in Hfuel; lia|].
      rewrite process_frames_unfold.
      destruct (Nat.leb_spec (fl * 2) (List.length (@nil byte ++ []))) as [Hge|_];
        [simpl in Hge; lia|].
      cbn [obind Audio.d_handle Audio.d_rest Audio.d_msgs Audio.d_trace].
      rewrite (after_data_same s h Hh).
      exists s, [], []. split; reflexivity.
    + simpl List.concat in *. rewrite length_app in Hfuel.
      rewrite (wake_feed_concat fl Hfl fuel chunks s h [] c Hl Hh)
        by (simpl; lia).
      destruct (wake_on_data_spec fl Hfl fuel s h [] (c ++ List.concat chunks) Hl Hh)
        as (s' & rest & trace & Hrun & _).
      { simpl. rewrite length_app. lia. }
      exists s', rest, trace. split; exact Hrun.
  - intros d1 d2 fuel Hd1 Hd2 Hfuel.
    assert (Hfl : 0 < 512) by lia.
    destruct (wake_on_data_spec 512 Hfl fuel s h [] d1 Hl Hh)
      as (s1 & r1 & t1 & Hrun1 & Hok1 & Hcat1 & Hrest1 & Hl1 & h1 & Hh1).
    { simpl List.length. lia. }
    destruct (wake_on_data_spec 512 Hfl fuel s1 h1 r1 d2 Hl1 Hh1)
      as (s2 & r2 & t2 & Hrun2 & Hok2 & Hcat2 & Hrest2 & _).
    { lia. }
    pose proof (trace_bytes 512 t1 Hok1) as Hb1.
    pose proof (trace_bytes 512 t2 Hok2) as Hb2.
    apply (f_equal (@List.length _)) in Hcat1, Hcat2.
    rewrite !length_app in Hcat1, Hcat2.
    change (List.length (@nil byte)) with 0 in Hcat1.
    assert (Hn1 : List.length t1 = 1 /\ List.length r1 = 476) by lia.
    assert (Hn2 : List.length t2 = 1 /\ List.length r2 = 952) by lia.
    destruct Hn1 as [Hn1 Hr1]. destruct Hn2 as [Hn2 Hr2].
    destruct t1 as [|f1 [|? ?]]; try discriminate Hn1.
    destruct t2 as [|f2 [|? ?]]; try discriminate Hn2.
    exists s1, s2, r1, r2, f1, f2.
    repeat split; auto.
    rewrite <- (app_nil_r d2).
    change (d2 ++ []) with (List.concat [d2]).
    rewrite <- (wake_feed_concat 512 Hfl fuel [d2] s h [] d1 Hl Hh)
      by (simpl; rewrite length_app; simpl; lia).
    change (wake_feed fuel s [] 512 [d1; d2])
      with (x1 <- wake_on_data fuel s [] 512 d1 ;;
            let '(s1, b1, t1) := x1 in
            x2 <- (y1 <- wake_on_data fuel s1 b1 512 d2 ;;
                   let '(s2, b2, t2) := y1 in
                   Returned (s2, b2, t2 ++ [])) ;;
            let '(s2, b2, t2) := x2 in
            Returned (s2, b2, t1 ++ t2)).
    rewrite Hrun1. cbn [obind]. rewrite Hrun2. reflexivity.
Qed.

(** C7.  Whole frames only, and no residual byte lost.  While the detector
    is listening, for every positive frame length and every sequence of
    chunks pushed into a buffer holding less than one frame, the callbacks
    return; every frame handed to the engine is the view of a slice of
    exactly [frameLength * 2] bytes as exactly [frameLength] samples; the
    slices in order followed by the bytes left in the buffer are exactly the
    bytes that were in the buffer followed by all chunks; and less than one
    frame is left. *)
Theorem frames_whole_residual_kept (fl : nat) (fuel : nat) :
  0 < fl ->
  forall (chunks : list Audio.Buffer) (s : state) (h : porcupine) (buf : Audio.Buffer),
    Audio.porcupineListening _ _ s = true ->
    Audio.porcupineHandle _ _ s = Some h ->
    List.length buf < fl * 2 ->
    List.length buf + List.length (List.concat chunks) < fuel ->
    exists s' rest trace,
      wake_feed fuel s buf fl chunks = Returned (s', rest, trace) /\
      Forall (Audio.frame_ok fl) trace /\
      List.concat (map fst trace) ++ rest = buf ++ List.concat chunks /\
      List.length rest < fl * 2.
Proof.
  intros Hfl chunks.
  induction chunks as [|c chunks IH]; intros s h buf Hl Hh Hbuf Hfuel.
  - exists s, buf, []. simpl. rewrite app_nil_r. auto.
  - simpl List.concat in Hfuel. rewrite length_app in Hfuel.
    destruct (wake_on_data_spec fl Hfl fuel s h buf c Hl Hh)
      as (s1 & r1 & t1 & Hrun1 & Hok1 & Hcat1 & Hrest1 & Hl1 & h1 & Hh1); [lia|].
    assert (Hlen1 : List.length r1 <= List.length buf + List.length c).
    { apply (f_equal (@List.length _)) in Hcat1.
      rewrite !length_app in Hcat1. lia. }
    destruct (IH s1 h1 r1 Hl1 Hh1 Hrest1) as (s2 & r2 & t2 & Hrun2 & Hok2 & Hcat2 & Hrest2);
      [lia|].
    exists s2, r2, (t1 ++ t2).
    split; [|split; [|split]].
    + simpl. rewrite Hrun1. cbn [obind].
      change (Audio.wake_feed porcupine porcupine_process leopard fuel s1 r1 fl chunks)
        with (wake_feed fuel s1 r1 fl chunks).
      rewrite Hrun2. reflexivity.
    + apply Forall_app. auto.
    + rewrite map_app, concat_app, <- app_assoc, Hcat2.
      simpl List.concat. rewrite !app_assoc. f_equal. exact Hcat1.
    + exact Hrest2.
Qed.

End AudioFacts.

(** With a frame length of zero the loop condition always holds and nothing
    is consumed: the loop does not end, whatever the fuel. *)
Lemma process_frames_zero_diverges (porcupine : Type)
    (porcupine_process : porcupine -> list Z -> porcupine * (Z + string)) :
  forall (fuel : nat) (h : porcupine) (buf : Audio.Buffer),
    Audio.process_frames porcupine porcupine_process fuel 0 h buf = OutOfFuel.
Proof.
  induction fuel as [|fuel IH]; intros h buf; [reflexivity|].
  simpl. destruct (porcupine_process h []) as [h' r].
  rewrite IH. reflexivity.
Qed.

Lemma frame_split_invariance_witness :
  (exists s' rest trace,
      Audio.wake_feed unit Demo.silent unit 3001 Demo.listening [] 512
        [Demo.chunk1500; Demo.chunk1500] = Returned (s', rest, trace) /\
      Audio.wake_on_data unit Demo.silent unit 3001 Demo.listening [] 512
        (List.concat [Demo.chunk1500; Demo.chunk1500]) = Returned (s', rest, trace)) /\
  (exists s1 s2 r1 r2 f1 f2,
      Audio.wake_on_data unit Demo.silent unit 3001 Demo.listening [] 512
        Demo.chunk1500 = Returned (s1, r1, [f1]) /\
      List.length r1 = 476 /\
      Audio.wake_on_data unit Demo.silent unit 3001 s1 r1 512
        Demo.chunk1500 = Returned (s2, r2, [f2]) /\
      List.length r2 = 952 /\
      Audio.wake_on_data unit Demo.silent unit 3001 Demo.listening [] 512
        (Demo.chunk1500 ++ Demo.chunk1500) = Returned (s2, r2, [f1; f2])).
Proof.
  destruct (frame_split_invariance unit Demo.silent unit Demo.listening tt
              eq_refl eq_refl) as [G S].
  split.
  - apply (G 512 [Demo.chunk1500; Demo.chunk1500] 3001); [lia | vm_compute; lia].
  - apply (S Demo.chunk1500 Demo.chunk1500 3001); [reflexivity | reflexivity | lia].
Defined.

Lemma frames_whole_residual_kept_witness :
  exists s' rest trace,
    Audio.wake_feed unit Demo.silent unit 3001 Demo.listening [] 512
      [Demo.chunk1500; Demo.chunk1500] = Returned (s', rest, trace) /\
    Forall (Audio.frame_ok 512) trace /\
    List.concat (map fst trace) ++ rest = [] ++ List.concat [Demo.chunk1500; Demo.chunk1500] /\
    List.length rest < 512 * 2.
Proof.
  apply (frames_whole_residual_kept unit Demo.silent unit 512 3001) with (h := tt);
    [lia | reflexivity | reflexivity | simpl; lia | vm_compute; lia].
Defined.

(* ====================================================================== *)
(** * Facts about starting and stopping the audio components *)
(* ====================================================================== *)

Section SessionFacts.

Variable porcupine : Type.
Variable porcupine_frameLength : porcupine -> nat.
Variable porcupine_sampleRate : porcupine -> nat.
Variable leopard : Type.
Variable leopard_process : leopard -> list Z -> leopard * (string + string).

Local Abbreviation state := (Audio.state porcupine leopard).
Local Abbreviation env := (Audio.env porcupine leopard).
Local Abbreviation startWake :=
  (Audio.startNativeWakeWordListening porcupine porcupine_frameLength
     porcupine_sampleRate leopard).
Local Abbreviation startLeopard := (Audio.startNativeLeopardRecording porcupine leopard).
Local Abbreviation stopLeopard :=
  (Audio.stopNativeLeopardRecording porcupine leopard leopard_process).
Local Abbreviation open_ids := (Audio.open_ids porcupine leopard).


Lemma option_string_eqb_same (k : string) :
  Audio.option_string_eqb (Some k) k = true.
Proof. simpl. apply String.eqb_refl. Qed.

(** A recording start that gets past the module check and whose engine and
    capture utility start: it opens a new stream and touches nothing of the
    wake word side. *)
Lemma startLeopard_opens (e : env) (s : state) (accessKey : string) :
  Audio.record _ _ s = true ->
  Audio.Leopard _ _ s = true ->
  Audio.leopard_ready _ _ e s accessKey ->
  Audio.record_record _ _ e = inl tt ->
  let r := startLeopard e s accessKey in
  snd r = Audio.OkPlain /\
  open_ids (fst r) = Audio.next_stream _ _ s :: open_ids s /\
  Audio.leopardRecording _ _ (fst r) = Some (Audio.next_stream _ _ s) /\
  Audio.porcupineListening _ _ (fst r) = Audio.porcupineListening _ _ s /\
  Audio.audioInputStream _ _ (fst r) = Audio.audioInputStream _ _ s.
Proof.
  intros Hrec Hleo Hready Hcap r. subst r.
  unfold Audio.startNativeLeopardRecording.
  rewrite Hrec, Hleo. cbn [negb orb].
  destruct Hready as [[h [Hh Hk]] | [[h Hnew] Hrel]].
  - rewrite Hh, Hk, option_string_eqb_same, Hcap. simpl. auto.
  - rewrite Hnew.
    destruct (Audio.leopardHandle _ _ s) as [old|];
      [destruct (Audio.option_string_eqb _ accessKey)|].
    + rewrite Hcap. simpl. auto.
    + specialize (Hrel old eq_refl).
      destruct (Audio.leopard_release _ _ e old) as [old' released].
      simpl in Hrel. subst released.
      rewrite Hcap. simpl. auto.
    + rewrite Hcap. simpl. auto.
Qed.

(** A wake word start from the not-listening state in a working
    environment: it opens a new stream and touches nothing of the Leopard
    side. *)
Lemma startWake_opens (e : env) (s : state) (accessKey keyword : string)
    (h : porcupine) :
  Audio.record _ _ s = true ->
  Audio.Porcupine _ _ s = true ->
  Audio.porcupineListening _ _ s = false ->
  Audio.audioInputStream _ _ s = None ->
  Audio.BuiltinKeyword _ _ e keyword = true ->
  Audio.keyword_file_exists _ _ e keyword = true ->
  Audio.model_file_exists _ _ e = true ->
  Audio.new_Porcupine _ _ e accessKey keyword = inl h ->
  Audio.record_record _ _ e = inl tt ->
  let r := startWake e s accessKey keyword in
  snd r = Audio.OkListening (porcupine_sampleRate h) (porcupine_frameLength h) /\
  open_ids (fst r) = Audio.next_stream _ _ s :: open_ids s /\
  Audio.porcupineListening _ _ (fst r) = true /\
  Audio.leopardRecording _ _ (fst r) = Audio.leopardRecording _ _ s.
Proof.
  intros Hrec Hp Hl Hs Hk Hkf Hmf Hnew Hcap r. subst r.
  unfold Audio.startNativeWakeWordListening.
  rewrite Hrec, Hp, Hl. cbn [negb orb].
  unfold Audio.stopNativeWakeWordListening.
  rewrite Hs, Hk, Hkf, Hmf, Hnew, Hcap. simpl. auto.
Qed.


(** C4 (amended).  Neither start function looks at the other component.
    With the modules loaded and the engine and the capture utility starting
    normally, a recording start while the wake word detector is listening
    succeeds and opens a second capture stream, the detector's stream
    staying open and listening; and a wake word start (from the
    not-listening state) while a recording session is open succeeds and
    opens a second capture stream, the session staying open. *)
Theorem concurrent_start_opens_second_stream :
  (forall (e : env) (s : state) (accessKey : string),
      Audio.record _ _ s = true ->
      Audio.Leopard _ _ s = true ->
      Audio.porcupineListening _ _ s = true ->
      Audio.leopard_ready _ _ e s accessKey ->
      Audio.record_record _ _ e = inl tt ->
      let r := startLeopard e s accessKey in
      Audio.success (snd r) = true /\
      open_ids (fst r) = Audio.next_stream _ _ s :: open_ids s /\
      Audio.porcupineListening _ _ (fst r) = true /\
      Audio.audioInputStream _ _ (fst r) = Audio.audioInputStream _ _ s) /\
  (forall (e : env) (s : state) (accessKey keyword : string) (h : porcupine) (id : nat),
      Audio.record _ _ s = true ->
      Audio.Porcupine _ _ s = true ->
      Audio.porcupineListening _ _ s = false ->
      Audio.audioInputStream _ _ s = None ->
      Audio.leopardRecording _ _ s = Some id ->
      Audio.BuiltinKeyword _ _ e keyword = true ->
      Audio.keyword_file_exists _ _ e keyword = true ->
      Audio.model_file_exists _ _ e = true ->
      Audio.new_Porcupine _ _ e accessKey keyword = inl h ->
      Audio.record_record _ _ e = inl tt ->
      let r := startWake e s accessKey keyword in
      Audio.success (snd r) = true /\
      open_ids (fst r) = Audio.next_stream _ _ s :: open_ids s /\
      Audio.porcupineListening _ _ (fst r) = true /\
      Audio.leopardRecording _ _ (fst r) = Some id).
Proof.
  split.
  - intros e s accessKey Hrec Hleo Hl Hready Hcap r.
    destruct (startLeopard_opens e s accessKey Hrec Hleo Hready Hcap)
      as (Hr & Hids & _ & Hl' & Hs').
    fold r in Hr, Hids, Hl', Hs'.
    rewrite Hr, Hids, Hl', Hs', Hl. auto.
  - intros e s accessKey keyword h id Hrec Hp Hl Hs Hid Hk Hkf Hmf Hnew Hcap r.
    destruct (startWake_opens e s accessKey keyword h Hrec Hp Hl Hs Hk Hkf Hmf Hnew Hcap)
      as (Hr & Hids & Hl' & Hrec').
    fold r in Hr, Hids, Hl', Hrec'.
    rewrite Hr, Hids, Hl', Hrec', Hid. auto.
Qed.

(** C5 (amended).  A wake word start while the detector is already listening
    is not an error: it returns success with the message "Already
    listening" and leaves the whole state as it was, so no second capture
    stream is opened. *)
Theorem duplicate_wake_start_is_noop (e : env) (s : state)
    (accessKey keyword : string) :
  Audio.record _ _ s = true ->
  Audio.Porcupine _ _ s = true ->
  Audio.porcupineListening _ _ s = true ->
  startWake e s accessKey keyword = (s, Audio.OkMessage "Already listening").
Proof.
  intros Hrec Hp Hl. unfold Audio.startNativeWakeWordListening.
  rewrite Hrec, Hp, Hl. reflexivity.
Qed.

(** Whatever happens, stopping a session without chunks hands nothing to the
    engine. *)
Lemma stop_empty_no_call (e : env) (s s' : state) (id : nat) (r : Audio.result) :
  Audio.leopardRecording _ _ s = Some id ->
  Audio.chunks_of _ _ s id = [] ->
  stopLeopard e s = Returned (s', r) ->
  Audio.leopard_calls _ _ s' = Audio.leopard_calls _ _ s.
Proof.
  intros Hid Hch. unfold Audio.stopNativeLeopardRecording.
  rewrite Hid, Hch.
  destruct (Audio.recording_stop _ _ e); [|discriminate].
  simpl. intros H. inversion H. reflexivity.
Qed.

(** C8.  Stopping a recording session that collected no chunk, the capture
    utility's [stop()] returning normally, gives the failure "No audio
    recorded", closes the session, and hands nothing to the transcription
    engine: the log of calls of [leopardHandle.process] is as before. *)
Theorem stop_without_audio (e : env) (s : state) (id : nat) :
  Audio.leopardRecording _ _ s = Some id ->
  Audio.chunks_of _ _ s id = [] ->
  Audio.recording_stop _ _ e = inl tt ->
  exists s',
    stopLeopard e s = Returned (s', Audio.Fail "No audio recorded") /\
    Audio.leopardRecording _ _ s' = None /\
    Audio.leopard_calls _ _ s' = Audio.leopard_calls _ _ s.
Proof.
  intros Hid Hch Hstop. unfold Audio.stopNativeLeopardRecording.
  rewrite Hid, Hch, Hstop. simpl.
  eexists. split; [reflexivity|]. simpl. auto.
Qed.

(** The availability handler for Porcupine: without the engine it answers
    [available: false]; with the engine it throws, whatever the state of the
    capture module. *)
Lemma porcupine_available_cases (s : state) :
  (Audio.Porcupine _ _ s = false ->
   Audio.porcupine_available _ _ s = Returned false) /\
  (Audio.Porcupine _ _ s = true ->
   Audio.porcupine_available _ _ s = Threw "ReferenceError: portAudio is not defined").
Proof.
  unfold Audio.porcupine_available, Audio.top_level. simpl.
  split; intros H; rewrite H; reflexivity.
Qed.

(** The sibling handler for Leopard answers in every state. *)
Lemma leopard_available_total (s : state) :
  Audio.leopard_available _ _ s =
  Returned (Audio.Leopard _ _ s && Audio.record _ _ s).
Proof.
  unfold Audio.leopard_available, Audio.top_level. simpl.
  destruct (Audio.Leopard _ _ s), (Audio.record _ _ s); reflexivity.
Qed.

End SessionFacts.

Lemma concurrent_start_opens_second_stream_witness :
  (let r := Audio.startNativeLeopardRecording unit unit Demo.env_ok Demo.listening "key" in
   Audio.success (snd r) = true /\
   Audio.open_ids unit unit (fst r) = [1; 0] /\
   Audio.porcupineListening _ _ (fst r) = true /\
   Audio.audioInputStream _ _ (fst r) = Some 0) /\
  (let r := Audio.startNativeWakeWordListening unit Demo.frameLength512
              Demo.sampleRate16k unit Demo.env_ok Demo.recording "key" "porcupine" in
   Audio.success (snd r) = true /\
   Audio.open_ids unit unit (fst r) = [1; 0] /\
   Audio.porcupineListening _ _ (fst r) = true /\
   Audio.leopardRecording _ _ (fst r) = Some 0).
Proof.
  destruct (concurrent_start_opens_second_stream unit Demo.frameLength512
              Demo.sampleRate16k unit) as [L W].
  split.
  - apply (L Demo.env_ok Demo.listening "key");
      [reflexivity | reflexivity | reflexivity | | reflexivity].
    right. split; [exists tt; reflexivity | intros old H; discriminate H].
  - apply (W Demo.env_ok Demo.recording "key" "porcupine" tt 0); reflexivity.
Defined.

(** C4, as stated, fails: with the detector listening on stream 0, a
    recording start is not Audio.rejected and a second stream is open afterwards;
    with a recording session open on stream 0, a wake word start is not
    Audio.rejected and a second stream is open afterwards. *)
Lemma concurrent_start_not_rejected :
  ~ (Audio.rejected (snd (Audio.startNativeLeopardRecording unit unit
                      Demo.env_ok Demo.listening "key")) /\
     Audio.open_ids unit unit
       (fst (Audio.startNativeLeopardRecording unit unit
               Demo.env_ok Demo.listening "key")) = [0]) /\
  ~ (Audio.rejected (snd (Audio.startNativeWakeWordListening unit Demo.frameLength512
                      Demo.sampleRate16k unit Demo.env_ok Demo.recording
                      "key" "porcupine")) /\
     Audio.open_ids unit unit
       (fst (Audio.startNativeWakeWordListening unit Demo.frameLength512
               Demo.sampleRate16k unit Demo.env_ok Demo.recording
               "key" "porcupine")) = [0]).
Proof.
  split; intros [H _]; vm_compute in H; discriminate H.
Qed.

Lemma duplicate_wake_start_is_noop_witness :
  Audio.startNativeWakeWordListening unit Demo.frameLength512 Demo.sampleRate16k
    unit Demo.env_ok Demo.listening "key" "porcupine" =
  (Demo.listening, Audio.OkMessage "Already listening").
Proof.
  apply (duplicate_wake_start_is_noop unit Demo.frameLength512 Demo.sampleRate16k
           unit Demo.env_ok Demo.listening "key" "porcupine");
    reflexivity.
Defined.

(** C5, as stated, fails: a wake word start while listening is not
    Audio.rejected; and a recording start while a session is open on stream 0 is
    not Audio.rejected either, but opens stream 1 next to stream 0 and makes it the
    session. *)
Lemma duplicate_start_not_rejected :
  ~ Audio.rejected (snd (Audio.startNativeWakeWordListening unit Demo.frameLength512
                     Demo.sampleRate16k unit Demo.env_ok Demo.listening
                     "key" "porcupine")) /\
  ~ Audio.rejected (snd (Audio.startNativeLeopardRecording unit unit
                     Demo.env_ok Demo.recording "key")) /\
  Audio.open_ids unit unit
    (fst (Audio.startNativeLeopardRecording unit unit
            Demo.env_ok Demo.recording "key")) = [1; 0] /\
  Audio.leopardRecording unit unit
    (fst (Audio.startNativeLeopardRecording unit unit
            Demo.env_ok Demo.recording "key")) = Some 1.
Proof.
  repeat split; try reflexivity; intros H; vm_compute in H; discriminate H.
Qed.

Lemma stop_without_audio_witness :
  exists s',
    Audio.stopNativeLeopardRecording unit unit Demo.transcribe Demo.env_ok
      Demo.recording = Returned (s', Audio.Fail "No audio recorded") /\
    Audio.leopardRecording _ _ s' = None /\
    Audio.leopard_calls _ _ s' = Audio.leopard_calls _ _ Demo.recording.
Proof.
  apply (stop_without_audio unit unit Demo.transcribe Demo.env_ok Demo.recording 0);
    reflexivity.
Defined.

(** C9, at the failing input.  With Porcupine loaded and the capture module
    missing, the handler for ['porcupine-available'] does not answer
    [available: false]: reading [portAudio] throws.  The sibling handler for
    ['leopard-available'] answers [available: false] in the same state, and
    so does the Porcupine handler when the engine itself is missing. *)
Theorem porcupine_available_throws :
  Audio.porcupine_available unit unit Demo.no_capture =
    Threw "ReferenceError: portAudio is not defined" /\
  Audio.leopard_available unit unit Demo.no_capture = Returned false /\
  Audio.porcupine_available unit unit Demo.no_porcupine = Returned false.
Proof. repeat split; reflexivity. Qed.

(* ====================================================================== *)
(** * The timer discipline shared by both watchers *)
(* ====================================================================== *)

Section TimerDiscipline.

Variables state event : Type.
Variable enabled : state -> event -> bool.
Variable step : state -> event -> state * list output.
Variable is_change : state -> event -> bool.
Variable fires : event -> option nat.

(** The handles of the pending timers, the next fresh handle, and an
    invariant of the states that can be reached. *)
Variable pending : state -> list nat.
Variable next_id : state -> nat.
Variable inv : state -> Prop.

Hypothesis inv_step : forall s e,
  inv s -> enabled s e = true -> inv (fst (step s e)).
Hypothesis pending_bound : forall s id,
  inv s -> In id (pending s) -> id < next_id s.
Hypothesis pending_step : forall s e id,
  inv s -> enabled s e = true ->
  In id (pending (fst (step s e))) -> In id (pending s) \/ id = next_id s.
Hypothesis next_step : forall s e,
  inv s -> next_id s <= next_id (fst (step s e)).
Hypothesis change_cancels : forall s e id,
  inv s -> enabled s e = true -> is_change s e = true ->
  In id (pending (fst (step s e))) -> id = next_id s.
Hypothesis fire_removes : forall s e id,
  inv s -> fires e = Some id -> enabled s e = true ->
  In id (pending s) /\ ~ In id (pending (fst (step s e))).

Local Abbreviation run := (Machine.run enabled step).
Local Abbreviation any_change := (Machine.any_change step is_change).
Local Abbreviation fired := (Machine.fired fires).

Lemma run_cons_inv (s s' : state) (e : event) (rest : list event)
    (log : list (event * list output)) :
  run s (e :: rest) = Some (s', log) ->
  enabled s e = true /\
  exists log', run (fst (step s e)) rest = Some (s', log') /\
               log = (e, snd (step s e)) :: log'.
Proof.
  simpl. destruct (enabled s e); [|discriminate].
  destruct (step s e) as [s1 out]. simpl.
  destruct (Machine.run enabled step s1 rest) as [[s2 log2]|]; [|discriminate].
  intros H. inversion H; subst. eauto.
Qed.

Lemma run_inv (evs : list event) :
  forall s s' log, inv s -> run s evs = Some (s', log) -> inv s'.
Proof.
  induction evs as [|e rest IH]; intros s s' log Hinv Hrun.
  - simpl in Hrun. inversion Hrun; subst. exact Hinv.
  - apply run_cons_inv in Hrun. destruct Hrun as (Hen & log' & Hrun & _).
    eapply IH; [|exact Hrun]. now apply inv_step.
Qed.

(** A handle that was handed out and is not pending will never be pending
    again. *)
Lemma cancelled_stays (evs : list event) :
  forall s s' log id,
    inv s -> id < next_id s -> ~ In id (pending s) ->
    run s evs = Some (s', log) ->
    ~ In id (pending s') /\ id < next_id s'.
Proof.
  induction evs as [|e rest IH]; intros s s' log id Hinv Hlt Hnot Hrun.
  - simpl in Hrun. inversion Hrun; subst. auto.
  - apply run_cons_inv in Hrun. destruct Hrun as (Hen & log' & Hrun & _).
    eapply IH; [| | |exact Hrun].
    + now apply inv_step.
    + pose proof (next_step s e Hinv). lia.
    + intros Hin. destruct (pending_step s e id Hinv Hen Hin) as [H|H];
        [contradiction | lia].
Qed.

(** If a timer that is pending now runs at the end of a run, no step of the
    run reported a change. *)
Lemma no_change_before_fire (mid : list event) :
  forall s s' log id e,
    inv s -> In id (pending s) ->
    run s mid = Some (s', log) ->
    fires e = Some id -> enabled s' e = true ->
    any_change s mid = false.
Proof.
  induction mid as [|c rest IH]; intros s s' log id e Hinv Hin Hrun Hf Hen;
    [reflexivity|].
  apply run_cons_inv in Hrun. destruct Hrun as (Hc & log' & Hrun & _).
  pose proof (inv_step s c Hinv Hc) as Hinv1.
  pose proof (run_inv rest _ _ _ Hinv1 Hrun) as Hinv'.
  destruct (fire_removes s' e id Hinv' Hf Hen) as [Hend _].
  simpl. destruct (is_change s c) eqn:Hchg; simpl.
  - exfalso.
    pose proof (pending_bound s id Hinv Hin) as Hlt.
    assert (Hnot : ~ In id (pending (fst (step s c)))).
    { intros H. apply (change_cancels s c id Hinv Hc Hchg) in H. lia. }
    assert (Hlt1 : id < next_id (fst (step s c))).
    { pose proof (next_step s c Hinv). lia. }
    destruct (cancelled_stays rest _ _ _ id Hinv1 Hlt1 Hnot Hrun) as [Hno _].
    contradiction.
  - destruct (in_dec Nat.eq_dec id (pending (fst (step s c)))) as [Hin1|Hout].
    + eapply IH; eauto.
    + exfalso.
      assert (Hlt1 : id < next_id (fst (step s c))).
      { pose proof (pending_bound s id Hinv Hin).
        pose proof (next_step s c Hinv). lia. }
      destruct (cancelled_stays rest _ _ _ id Hinv1 Hlt1 Hout Hrun) as [Hno _].
      contradiction.
Qed.

Lemma fired_enabled (evs : list event) :
  forall s s' log id,
    inv s -> run s evs = Some (s', log) -> In id (fired evs) ->
    In id (pending s) \/ next_id s <= id.
Proof.
  induction evs as [|e rest IH]; intros s s' log id Hinv Hrun Hin;
    [destruct Hin|].
  apply run_cons_inv in Hrun. destruct Hrun as (Hen & log' & Hrun & _).
  pose proof (inv_step s e Hinv Hen) as Hinv1.
  simpl in Hin.
  assert (Hrest : In id (fired rest) -> In id (pending s) \/ next_id s <= id).
  { intros H. destruct (IH _ _ _ id Hinv1 Hrun H) as [H1|H1].
    - destruct (pending_step s e id Hinv Hen H1) as [H2|H2]; [auto | right; lia].
    - right. pose proof (next_step s e Hinv). lia. }
  destruct (fires e) as [j|] eqn:Hf; [|auto].
  destruct Hin as [->|Hin]; [|auto].
  left. now destruct (fire_removes s e id Hinv Hf Hen).
Qed.

(** In a run no timer runs twice. *)
Lemma fired_once (evs : list event) :
  forall s s' log, inv s -> run s evs = Some (s', log) -> NoDup (fired evs).
Proof.
  induction evs as [|e rest IH]; intros s s' log Hinv Hrun; [constructor|].
  apply run_cons_inv in Hrun. destruct Hrun as (Hen & log' & Hrun & _).
  pose proof (inv_step s e Hinv Hen) as Hinv1.
  simpl. destruct (fires e) as [id|] eqn:Hf; [|eauto].
  constructor; [|eauto].
  intros Hin.
  destruct (fire_removes s e id Hinv Hf Hen) as [Hp Hnot].
  pose proof (pending_bound s id Hinv Hp) as Hlt.
  destruct (fired_enabled rest _ _ _ id Hinv1 Hrun Hin) as [H|H];
    [contradiction|].
  pose proof (next_step s e Hinv). lia.
Qed.

End TimerDiscipline.

(* ====================================================================== *)
(** * Facts about timers *)
(* ====================================================================== *)

Section TimerFacts.

Variable C : Type.

Lemma ids_clearTimeout (tm : Timers.t C) (id x : nat) :
  In x (Timers.ids (Timers.clearTimeout tm id)) <->
  In x (Timers.ids tm) /\ x <> id.
Proof.
  unfold Timers.ids, Timers.clearTimeout. simpl.
  induction (Timers.pending tm) as [|[i c] l IH]; simpl.
  - tauto.
  - destruct (Nat.eqb_spec i id) as [->|Hne]; simpl; rewrite IH.
    + split; [tauto|]. intros [[->|H] Hx]; [contradiction | tauto].
    + split; [intros [->|H]; tauto | tauto].
Qed.

Lemma find_in (id : nat) (l : list (nat * (Z * C))) (x : Z * C) :
  Timers.find id l = Some x -> In id (map fst l).
Proof.
  induction l as [|[i c] l IH]; simpl; [discriminate|].
  destruct (Nat.eqb_spec i id) as [->|Hne]; auto.
Qed.

Lemma find_not_in (id : nat) (l : list (nat * (Z * C))) :
  ~ In id (map fst l) -> Timers.find id l = None.
Proof.
  induction l as [|[i c] l IH]; simpl; [reflexivity|].
  intros H. destruct (Nat.eqb_spec i id) as [->|Hne]; [tauto|].
  apply IH. tauto.
Qed.

Lemma due_in (tm : Timers.t C) (id : nat) (now : Z) (c : C) :
  Timers.due tm id now = Some c -> In id (Timers.ids tm).
Proof.
  unfold Timers.due.
  destruct (Timers.find id (Timers.pending tm)) as [[d c']|] eqn:E; [|discriminate].
  intros _. eapply find_in; eauto.
Qed.

(** A timer that is not pending cannot run. *)
Lemma not_pending_not_due (tm : Timers.t C) (id : nat) (now : Z) :
  ~ In id (Timers.ids tm) -> Timers.due tm id now = None.
Proof.
  intros H. unfold Timers.due. now rewrite (find_not_in id _ H).
Qed.

End TimerFacts.

(* ====================================================================== *)
(** * Facts about the agent watcher *)
(* ====================================================================== *)

Module AgentFacts.
Import AgentWatcher.


Lemma agent_inv_init : inv init.
Proof. intros id H. destruct H. Qed.

Lemma agent_stop_pending (s : state) :
  inv s -> pending (stopAgentWatcher s) = [].
Proof.
  intros Hinv. unfold pending, stopAgentWatcher. simpl.
  destruct (agentIdleTimer s) as [id|] eqn:E.
  - destruct (Timers.ids (Timers.clearTimeout (timers s) id)) as [|x l] eqn:El;
      [reflexivity|].
    assert (Hx : In x (Timers.ids (Timers.clearTimeout (timers s) id)))
      by (rewrite El; now left).
    apply ids_clearTimeout in Hx. destruct Hx as [Hx Hne].
    destruct (Hinv x Hx) as [Heq _]. congruence.
  - destruct (Timers.ids (timers s)) as [|x l] eqn:El; [reflexivity|].
    destruct (Hinv x) as [Heq _]; [unfold pending; rewrite El; now left|].
    congruence.
Qed.

Lemma agent_clear_idle_pending (s : state) :
  inv s ->
  Timers.ids (match agentIdleTimer s with
              | Some id => Timers.clearTimeout (timers s) id
              | None => timers s
              end) = [].
Proof.
  intros Hinv. exact (agent_stop_pending s Hinv).
Qed.

Lemma agent_clear_idle_next (s : state) :
  Timers.next_id (match agentIdleTimer s with
                  | Some id => Timers.clearTimeout (timers s) id
                  | None => timers s
                  end) = next_id s.
Proof. destruct (agentIdleTimer s); reflexivity. Qed.

Lemma agent_on_change_pending (s : state) (now : Z) (p : string) :
  inv s ->
  pending (on_change s now p) = [next_id s] /\
  agentIdleTimer (on_change s now p) = Some (next_id s) /\
  next_id (on_change s now p) = S (next_id s).
Proof.
  intros Hinv. unfold pending, next_id, on_change. simpl.
  unfold Timers.ids at 1. simpl.
  fold (Timers.ids (match agentIdleTimer s with
                    | Some id => Timers.clearTimeout (timers s) id
                    | None => timers s
                    end)).
  rewrite (agent_clear_idle_pending s Hinv), (agent_clear_idle_next s). auto.
Qed.

Lemma agent_on_timeout_timers (s : state) (now : Z) :
  timers (fst (on_timeout s now)) = timers s /\
  agentIdleTimer (fst (on_timeout s now)) = agentIdleTimer s.
Proof.
  unfold on_timeout.
  destruct (hasSeenActivity s && agentWatcherEnabled s); simpl; auto.
Qed.

Lemma agent_step_timer_pending (s : state) (now : Z) (id x : nat) :
  In x (pending (fst (step s (TimerFired now id)))) <->
  In x (pending s) /\ x <> id.
Proof.
  unfold pending. simpl.
  destruct (agent_on_timeout_timers
              (with_timers s (Timers.clearTimeout (timers s) id)) now) as [Ht _].
  rewrite Ht. simpl. apply ids_clearTimeout.
Qed.

Lemma agent_inv_step (s : state) (e : event) :
  inv s -> enabled s e = true -> inv (fst (step s e)).
Proof.
  intros Hinv Hen. destruct e as [path idle| | |now p|now p|now id|ok].
  - (* Start *)
    simpl. unfold startAgentWatcher.
    destruct (agentWatcher s).
    + intros x Hx.
      change (In x (pending (stopAgentWatcher s))) in Hx.
      rewrite (agent_stop_pending s Hinv) in Hx. destruct Hx.
    + exact Hinv.
  - (* Stop *)
    intros x Hx. simpl in Hx. rewrite (agent_stop_pending s Hinv) in Hx. destruct Hx.
  - exact Hinv.
  - simpl. destruct (agent_on_change_pending s now p Hinv) as (Hp & Ht & Hn).
    intros x Hx. rewrite Hp in Hx. destruct Hx as [<-|[]].
    rewrite Ht, Hn. auto.
  - simpl. destruct (agent_on_change_pending s now p Hinv) as (Hp & Ht & Hn).
    intros x Hx. rewrite Hp in Hx. destruct Hx as [<-|[]].
    rewrite Ht, Hn. auto.
  - intros x Hx. apply agent_step_timer_pending in Hx. destruct Hx as [Hx Hne].
    destruct (Hinv x Hx) as [Heq Hlt].
    simpl.
    destruct (agent_on_timeout_timers
                (with_timers s (Timers.clearTimeout (timers s) id)) now) as [Ht Hi].
    unfold next_id. rewrite Ht, Hi. simpl. auto.
  - exact Hinv.
Qed.

Lemma agent_pending_bound (s : state) (id : nat) :
  inv s -> In id (pending s) -> id < next_id s.
Proof. intros Hinv Hin. now destruct (Hinv id Hin). Qed.

Lemma agent_next_step (s : state) (e : event) :
  next_id s <= next_id (fst (step s e)).
Proof.
  destruct e as [path idle| | |now p|now p|now id|ok]; simpl; try apply Nat.le_refl.
  - unfold startAgentWatcher, next_id. simpl.
    destruct (agentWatcher s); simpl; [|apply Nat.le_refl].
    destruct (agentIdleTimer s); apply Nat.le_refl.
  - unfold next_id. simpl. destruct (agentIdleTimer s); apply Nat.le_refl.
  - unfold next_id, on_change. simpl. rewrite agent_clear_idle_next. unfold next_id. lia.
  - unfold next_id, on_change. simpl. rewrite agent_clear_idle_next. unfold next_id. lia.
  - unfold next_id.
    destruct (agent_on_timeout_timers
                (with_timers s (Timers.clearTimeout (timers s) id)) now) as [Ht _].
    rewrite Ht. simpl. apply Nat.le_refl.
Qed.

Lemma agent_pending_step (s : state) (e : event) (id : nat) :
  inv s -> enabled s e = true ->
  In id (pending (fst (step s e))) -> In id (pending s) \/ id = next_id s.
Proof.
  intros Hinv Hen Hin. destruct e as [path idle| | |now p|now p|now j|ok];
    try (left; exact Hin).
  - simpl in Hin. unfold startAgentWatcher in Hin.
    destruct (agentWatcher s); [|left; exact Hin].
    change (In id (pending (stopAgentWatcher s))) in Hin.
    rewrite (agent_stop_pending s Hinv) in Hin. destruct Hin.
  - change (In id (pending (stopAgentWatcher s))) in Hin.
    rewrite (agent_stop_pending s Hinv) in Hin. destruct Hin.
  - change (In id (pending (on_change s now p))) in Hin.
    destruct (agent_on_change_pending s now p Hinv) as (Hp & _).
    rewrite Hp in Hin. destruct Hin as [<-|[]]. now right.
  - change (In id (pending (on_change s now p))) in Hin.
    destruct (agent_on_change_pending s now p Hinv) as (Hp & _).
    rewrite Hp in Hin. destruct Hin as [<-|[]]. now right.
  - apply agent_step_timer_pending in Hin. tauto.
Qed.

Lemma agent_change_cancels (s : state) (e : event) (id : nat) :
  inv s -> enabled s e = true -> is_change e = true ->
  In id (pending (fst (step s e))) -> id = next_id s.
Proof.
  intros Hinv Hen Hc Hin. destruct e; try discriminate Hc;
    change (In id (pending (on_change s now relativePath))) in Hin;
    destruct (agent_on_change_pending s now relativePath Hinv) as (Hp & _);
    rewrite Hp in Hin; destruct Hin as [<-|[]]; reflexivity.
Qed.

Lemma agent_fire_removes (s : state) (e : event) (id : nat) :
  inv s -> fires e = Some id -> enabled s e = true ->
  In id (pending s) /\ ~ In id (pending (fst (step s e))).
Proof.
  intros Hinv Hf Hen. destruct e; try discriminate Hf.
  simpl in Hf. inversion Hf; subst. simpl in Hen.
  destruct (Timers.due (timers s) id now) as [c|] eqn:E; [|discriminate].
  split.
  - eapply due_in; eauto.
  - intros H. apply agent_step_timer_pending in H. tauto.
Qed.

End AgentFacts.

(* ====================================================================== *)
(** * Facts about the window watcher *)
(* ====================================================================== *)

Module WindowFacts.
Import WindowWatcher.


Lemma window_inv_init : inv init.
Proof. intros id H. destruct H. Qed.


Lemma window_clear_idle_ids (s : state) :
  inv s -> Timers.ids (clear_idle s) = [].
Proof.
  intros Hinv. unfold clear_idle.
  destruct (windowIdleTimer s) as [id|] eqn:E.
  - destruct (Timers.ids (Timers.clearTimeout (timers s) id)) as [|x l] eqn:El;
      [reflexivity|].
    assert (Hx : In x (Timers.ids (Timers.clearTimeout (timers s) id)))
      by (rewrite El; now left).
    apply ids_clearTimeout in Hx. destruct Hx as [Hx Hne].
    destruct (Hinv x Hx) as [Heq _]. congruence.
  - destruct (Timers.ids (timers s)) as [|x l] eqn:El; [reflexivity|].
    destruct (Hinv x) as [Heq _]; [unfold pending; rewrite El; now left|].
    congruence.
Qed.

Lemma window_clear_idle_next (s : state) :
  Timers.next_id (clear_idle s) = next_id s.
Proof. unfold clear_idle. destruct (windowIdleTimer s); reflexivity. Qed.

Lemma window_no_timer_no_pending (s : state) :
  inv s -> windowIdleTimer s = None -> pending s = [].
Proof.
  intros Hinv Hnone. destruct (pending s) as [|x l] eqn:E; [reflexivity|].
  destruct (Hinv x) as [H _]; [rewrite E; now left | congruence].
Qed.

Lemma window_stop_pending (s : state) :
  inv s ->
  pending (stopWindowWatcher s) = [] /\
  windowIdleTimer (stopWindowWatcher s) = None /\
  next_id (stopWindowWatcher s) = next_id s.
Proof.
  intros Hinv. unfold pending, next_id, stopWindowWatcher. simpl.
  fold (clear_idle s).
  rewrite (window_clear_idle_ids s Hinv), (window_clear_idle_next s). auto.
Qed.

Lemma window_start_pending (s : state) now found opts obs :
  inv s ->
  pending (startWindowWatcher s now found opts obs) = [] /\
  next_id (startWindowWatcher s now found opts obs) = next_id s.
Proof.
  intros Hinv. destruct (window_stop_pending s Hinv) as (Hp & _ & Hn).
  unfold startWindowWatcher.
  destruct found as [app|]; [|auto].
  destruct (info obs); auto.
Qed.

(** What a tick does to the timers, branch by branch. *)
Lemma window_poll_cases (s : state) (now : Z) (obs : observed) :
  inv s ->
  let s' := fst (on_poll s now obs) in
  (is_change s (Poll now obs) = true /\
   pending s' = [] /\ windowIdleTimer s' = None /\ next_id s' = next_id s /\
   lastWindowActivity s' = Some now /\ lastWindowHash s' = hash obs) \/
  (is_change s (Poll now obs) = false /\
   pending s' = [next_id s] /\ windowIdleTimer s' = Some (next_id s) /\
   next_id s' = S (next_id s) /\ pending s = [] /\
   lastWindowHash s' = lastWindowHash s) \/
  (is_change s (Poll now obs) = false /\ s' = s).
Proof.
  intros Hinv s'. subst s'. unfold on_poll, is_change.
  destruct (windowWatcherEnabled s); simpl; [|right; right; auto].
  destruct (info obs) as [title|]; [|right; right; auto].
  destruct (hasHashChanged (hash obs) (lastWindowHash s)).
  - left. simpl. fold (clear_idle s). unfold pending, next_id. simpl.
    rewrite (window_clear_idle_ids s Hinv), (window_clear_idle_next s).
    repeat split; reflexivity.
  - right.
    destruct (windowIdleTimer s) as [id|] eqn:Et; [right; auto|].
    destruct (idleThreshold (windowWatcherConfig s) <=?
              now - num (lastWindowActivity s))%Z; [|right; auto].
    left. simpl. unfold pending, next_id. simpl.
    pose proof (window_no_timer_no_pending s Hinv Et) as Hp.
    unfold pending in Hp. unfold Timers.ids in *. simpl. rewrite Hp.
    repeat split; reflexivity.
Qed.

Lemma window_on_timeout_fields (s : state) (now : Z) (title : string) :
  timers (fst (on_timeout s now title)) = timers s /\
  windowIdleTimer (fst (on_timeout s now title)) = None /\
  lastWindowHash (fst (on_timeout s now title)) = lastWindowHash s.
Proof. unfold on_timeout. simpl. auto. Qed.

Lemma window_step_timer_pending (s : state) (now : Z) (id x : nat) :
  enabled s (TimerFired now id) = true ->
  (In x (pending (fst (step s (TimerFired now id)))) <->
   In x (pending s) /\ x <> id).
Proof.
  simpl. destruct (Timers.due (timers s) id now) as [title|]; [|discriminate].
  intros _. unfold pending. simpl. apply ids_clearTimeout.
Qed.

Lemma window_inv_step (s : state) (e : event) :
  inv s -> enabled s e = true -> inv (fst (step s e)).
Proof.
  intros Hinv Hen. destruct e as [now found opts obs| |now obs|now id|ok].
  - intros x Hx. change (In x (pending (startWindowWatcher s now found opts obs))) in Hx.
    destruct (window_start_pending s now found opts obs Hinv) as [Hp _].
    rewrite Hp in Hx. destruct Hx.
  - intros x Hx. change (In x (pending (stopWindowWatcher s))) in Hx.
    destruct (window_stop_pending s Hinv) as [Hp _].
    rewrite Hp in Hx. destruct Hx.
  - change (inv (fst (on_poll s now obs))).
    destruct (window_poll_cases s now obs Hinv)
      as [(_ & Hp & _)|[(_ & Hp & Ht & Hn & _)|(_ & Heq)]].
    + intros x Hx. rewrite Hp in Hx. destruct Hx.
    + intros x Hx. rewrite Hp in Hx. destruct Hx as [<-|[]].
      rewrite Ht, Hn. auto.
    + rewrite Heq. exact Hinv.
  - intros x Hx. pose proof Hen as Hen'.
    apply (window_step_timer_pending s now id x Hen) in Hx.
    destruct Hx as [Hx Hne].
    destruct (Hinv x Hx) as [Heq _].
    destruct (Hinv id) as [Heq' _].
    { simpl in Hen'. destruct (Timers.due (timers s) id now) eqn:E; [|discriminate].
      eapply due_in; eauto. }
    congruence.
  - exact Hinv.
Qed.

Lemma window_pending_bound (s : state) (id : nat) :
  inv s -> In id (pending s) -> id < next_id s.
Proof. intros Hinv Hin. now destruct (Hinv id Hin). Qed.

Lemma window_next_step (s : state) (e : event) :
  inv s -> next_id s <= next_id (fst (step s e)).
Proof.
  intros Hinv. destruct e as [now found opts obs| |now obs|now id|ok];
    try apply Nat.le_refl.
  - change (next_id s <= next_id (startWindowWatcher s now found opts obs)).
    destruct (window_start_pending s now found opts obs Hinv) as [_ Hn]. lia.
  - change (next_id s <= next_id (stopWindowWatcher s)).
    destruct (window_stop_pending s Hinv) as (_ & _ & Hn). lia.
  - change (next_id s <= next_id (fst (on_poll s now obs))).
    destruct (window_poll_cases s now obs Hinv)
      as [(_ & _ & _ & Hn & _)|[(_ & _ & _ & Hn & _)|(_ & Heq)]];
      try lia. rewrite Heq. lia.
  - simpl. destruct (Timers.due (timers s) id now); simpl; apply Nat.le_refl.
Qed.

Lemma window_pending_step (s : state) (e : event) (id : nat) :
  inv s -> enabled s e = true ->
  In id (pending (fst (step s e))) -> In id (pending s) \/ id = next_id s.
Proof.
  intros Hinv Hen Hin. destruct e as [now found opts obs| |now obs|now j|ok];
    try (left; exact Hin).
  - change (In id (pending (startWindowWatcher s now found opts obs))) in Hin.
    destruct (window_start_pending s now found opts obs Hinv) as [Hp _].
    rewrite Hp in Hin. destruct Hin.
  - change (In id (pending (stopWindowWatcher s))) in Hin.
    destruct (window_stop_pending s Hinv) as [Hp _].
    rewrite Hp in Hin. destruct Hin.
  - change (In id (pending (fst (on_poll s now obs)))) in Hin.
    destruct (window_poll_cases s now obs Hinv)
      as [(_ & Hp & _)|[(_ & Hp & _)|(_ & Heq)]].
    + rewrite Hp in Hin. destruct Hin.
    + rewrite Hp in Hin. destruct Hin as [<-|[]]. now right.
    + rewrite Heq in Hin. now left.
  - apply (window_step_timer_pending s now j id Hen) in Hin. tauto.
Qed.

Lemma window_change_cancels (s : state) (e : event) (id : nat) :
  inv s -> enabled s e = true -> is_change s e = true ->
  In id (pending (fst (step s e))) -> id = next_id s.
Proof.
  intros Hinv Hen Hc Hin. destruct e as [now found opts obs| |now obs|now j|ok];
    try discriminate Hc.
  change (In id (pending (fst (on_poll s now obs)))) in Hin.
  destruct (window_poll_cases s now obs Hinv)
    as [(_ & Hp & _)|[(Hno & _)|(Hno & _)]]; try congruence.
  rewrite Hp in Hin. destruct Hin.
Qed.

Lemma window_fire_removes (s : state) (e : event) (id : nat) :
  inv s -> fires e = Some id -> enabled s e = true ->
  In id (pending s) /\ ~ In id (pending (fst (step s e))).
Proof.
  intros Hinv Hf Hen. destruct e; try discriminate Hf.
  simpl in Hf. inversion Hf; subst.
  split.
  - simpl in Hen.
    destruct (Timers.due (timers s) id now) as [c|] eqn:E; [|discriminate].
    eapply due_in; eauto.
  - intros H. apply (window_step_timer_pending s now id id Hen) in H. tauto.
Qed.

End WindowFacts.

(* ====================================================================== *)
(** * Facts about runs *)
(* ====================================================================== *)

Section RunFacts.

Variables state event : Type.
Variable enabled : state -> event -> bool.
Variable step : state -> event -> state * list output.

(** A property of every single step holds of every entry of a log. *)
Lemma run_log_forall (P : event * list output -> Prop) :
  (forall s e, P (e, snd (step s e))) ->
  forall evs s s' log,
    Machine.run enabled step s evs = Some (s', log) -> Forall P log.
Proof.
  intros HP. induction evs as [|e rest IH]; intros s s' log Hrun.
  - simpl in Hrun. inversion Hrun. constructor.
  - simpl in Hrun. destruct (enabled s e); [|discriminate].
    pose proof (HP s e) as He.
    destruct (step s e) as [s1 out].
    destruct (Machine.run enabled step s1 rest) as [[s2 log2]|] eqn:E;
      [|discriminate].
    inversion Hrun; subst. constructor; [exact He | eauto].
Qed.

Lemma any_change_existsb (is_change : event -> bool) (evs : list event) :
  forall s, Machine.any_change step (fun _ => is_change) s evs = existsb is_change evs.
Proof.
  induction evs as [|e rest IH]; intros s; simpl; [reflexivity|].
  now rewrite IH.
Qed.

Lemma run_app (a b : list event) :
  forall s s1 s2 la lb,
    Machine.run enabled step s a = Some (s1, la) ->
    Machine.run enabled step s1 b = Some (s2, lb) ->
    Machine.run enabled step s (a ++ b) = Some (s2, la ++ lb).
Proof.
  induction a as [|e a IH]; intros s s1 s2 la lb Ha Hb.
  - simpl in Ha. inversion Ha; subst. exact Hb.
  - simpl in Ha |- *. destruct (enabled s e); [|discriminate].
    destruct (step s e) as [s' out].
    destruct (Machine.run enabled step s' a) as [[sa loga]|] eqn:E; [|discriminate].
    inversion Ha; subst.
    rewrite (IH s' s1 s2 loga lb E Hb). reflexivity.
Qed.

End RunFacts.

(* ====================================================================== *)
(** * Cancellation of a pending finished *)
(* ====================================================================== *)


Lemma agent_reach_inv (evs : list AgentWatcher.event) s log :
  AgentWatcher.run AgentWatcher.init evs = Some (s, log) -> AgentWatcher.inv s.
Proof.
  apply (run_inv _ _ AgentWatcher.enabled AgentWatcher.step AgentWatcher.inv
           AgentFacts.agent_inv_step evs _ _ _ AgentFacts.agent_inv_init).
Qed.

Lemma window_reach_inv (evs : list WindowWatcher.event) s log :
  WindowWatcher.run WindowWatcher.init evs = Some (s, log) -> WindowWatcher.inv s.
Proof.
  apply (run_inv _ _ WindowWatcher.enabled WindowWatcher.step WindowWatcher.inv
           WindowFacts.window_inv_step evs _ _ _ WindowFacts.window_inv_init).
Qed.

Lemma agent_step_finished (s : AgentWatcher.state) (e : AgentWatcher.event) :
  Machine.one_finished_per_timer AgentWatcher.is_finished AgentWatcher.fires
    (e, snd (AgentWatcher.step s e)).
Proof.
  unfold Machine.one_finished_per_timer, Machine.count.
  destruct e; simpl; try (split; [lia | intros H; inversion H]).
  unfold AgentWatcher.on_timeout. simpl.
  destruct (AgentWatcher.hasSeenActivity s && AgentWatcher.agentWatcherEnabled s);
    [destruct (AgentWatcher.mainWindowOk s)|]; simpl;
    (split; [lia | intros _; discriminate]).
Qed.

Lemma window_step_finished (s : WindowWatcher.state) (e : WindowWatcher.event) :
  Machine.one_finished_per_timer WindowWatcher.is_finished WindowWatcher.fires
    (e, snd (WindowWatcher.step s e)).
Proof.
  unfold Machine.one_finished_per_timer, Machine.count.
  destruct e as [now found opts obs| |now obs|now id|ok]; simpl;
    try (split; [lia | intros H; inversion H]).
  - unfold WindowWatcher.on_poll.
    destruct (WindowWatcher.windowWatcherEnabled s); simpl;
      [|split; [lia | intros H; inversion H]].
    destruct (WindowWatcher.info obs); simpl;
      [|split; [lia | intros H; inversion H]].
    destruct (WindowWatcher.hasHashChanged _ _); simpl.
    + destruct (WindowWatcher.mainWindowOk s); simpl;
        (split; [lia | intros H; inversion H]).
    + destruct (WindowWatcher.windowIdleTimer s); simpl;
        [split; [lia | intros H; inversion H]|].
      destruct (_ <=? _)%Z; simpl; (split; [lia | intros H; inversion H]).
  - destruct (Timers.due (WindowWatcher.timers s) id now); simpl;
      [|split; [lia | intros _; discriminate]].
    unfold WindowWatcher.on_timeout. simpl.
    destruct (_ <=? _)%Z; [destruct (WindowWatcher.mainWindowOk s)|]; simpl;
      (split; [lia | intros _; discriminate]).
Qed.

Lemma agent_change_restarts (s : AgentWatcher.state) (now : Z) (p : string) (id : nat) :
  AgentWatcher.inv s ->
  In id (Timers.ids (AgentWatcher.timers s)) ->
  let s' := AgentWatcher.on_change s now p in
  (forall t, Timers.due (AgentWatcher.timers s') id t = None) /\
  AgentWatcher.agentIdleTimer s' = Some (Timers.next_id (AgentWatcher.timers s)) /\
  Timers.ids (AgentWatcher.timers s') = [Timers.next_id (AgentWatcher.timers s)] /\
  Timers.find (Timers.next_id (AgentWatcher.timers s))
              (Timers.pending (AgentWatcher.timers s')) =
    Some ((now + Timers.effective_delay (AgentWatcher.idleThreshold s))%Z, tt).
Proof.
  intros Hinv Hin s'.
  destruct (AgentFacts.agent_on_change_pending s now p Hinv) as (Hp & Ht & _).
  pose proof (AgentFacts.agent_pending_bound s id Hinv Hin) as Hlt.
  unfold AgentWatcher.pending, AgentWatcher.next_id in *.
  fold s' in Hp, Ht.
  repeat split; auto.
  - intros t. apply not_pending_not_due. rewrite Hp.
    intros [H|[]]. lia.
  - subst s'. unfold AgentWatcher.on_change. simpl.
    rewrite AgentFacts.agent_clear_idle_next. unfold AgentWatcher.next_id.
    now rewrite Nat.eqb_refl.
Qed.

(** C2.  In every state a watcher can reach from its initial state by a run:
    - a change arriving while a timer is pending cancels that timer, which
      can then no longer run, and restarts the cycle: the agent watcher
      installs a fresh timer due one idle threshold after the change as its
      only pending timer; the window watcher has no timer pending and
      counts idleness from the time of the change;
    - if a timer that is pending now runs after some further events, none of
      these events was a change, so no finished message is sent with a
      change inside its own window;
    - no timer runs twice, a finished message is sent only by a timer
      running, and one run sends at most one. *)
Theorem change_cancels_pending_finished :
  (forall (pre : list AgentWatcher.event) (s1 : AgentWatcher.state) log1,
      AgentWatcher.run AgentWatcher.init pre = Some (s1, log1) ->
      (forall (e : AgentWatcher.event) (now : Z) (p : string) (id : nat),
          e = AgentWatcher.Change now p \/ e = AgentWatcher.Add now p ->
          In id (Timers.ids (AgentWatcher.timers s1)) ->
          let s' := fst (AgentWatcher.step s1 e) in
          (forall t, Timers.due (AgentWatcher.timers s') id t = None) /\
          AgentWatcher.agentIdleTimer s' = Some (Timers.next_id (AgentWatcher.timers s1)) /\
          Timers.ids (AgentWatcher.timers s') = [Timers.next_id (AgentWatcher.timers s1)] /\
          Timers.find (Timers.next_id (AgentWatcher.timers s1))
                      (Timers.pending (AgentWatcher.timers s')) =
            Some ((now + Timers.effective_delay (AgentWatcher.idleThreshold s1))%Z, tt)) /\
      (forall (id : nat) (mid : list AgentWatcher.event) s2 log2 (now : Z),
          In id (Timers.ids (AgentWatcher.timers s1)) ->
          AgentWatcher.run s1 mid = Some (s2, log2) ->
          AgentWatcher.enabled s2 (AgentWatcher.TimerFired now id) = true ->
          existsb AgentWatcher.is_change mid = false) /\
      NoDup (Machine.fired AgentWatcher.fires pre) /\
      Forall (Machine.one_finished_per_timer AgentWatcher.is_finished AgentWatcher.fires) log1) /\
  (forall (pre : list WindowWatcher.event) (s1 : WindowWatcher.state) log1,
      WindowWatcher.run WindowWatcher.init pre = Some (s1, log1) ->
      (forall (now : Z) (obs : WindowWatcher.observed) (id : nat),
          WindowWatcher.is_change s1 (WindowWatcher.Poll now obs) = true ->
          In id (Timers.ids (WindowWatcher.timers s1)) ->
          let s' := fst (WindowWatcher.step s1 (WindowWatcher.Poll now obs)) in
          (forall t, Timers.due (WindowWatcher.timers s') id t = None) /\
          Timers.ids (WindowWatcher.timers s') = [] /\
          WindowWatcher.windowIdleTimer s' = None /\
          WindowWatcher.lastWindowActivity s' = Some now) /\
      (forall (id : nat) (mid : list WindowWatcher.event) s2 log2 (now : Z),
          In id (Timers.ids (WindowWatcher.timers s1)) ->
          WindowWatcher.run s1 mid = Some (s2, log2) ->
          WindowWatcher.enabled s2 (WindowWatcher.TimerFired now id) = true ->
          Machine.any_change WindowWatcher.step WindowWatcher.is_change s1 mid = false) /\
      NoDup (Machine.fired WindowWatcher.fires pre) /\
      Forall (Machine.one_finished_per_timer WindowWatcher.is_finished WindowWatcher.fires) log1).
Proof.
  split.
  - intros pre s1 log1 Hpre.
    pose proof (agent_reach_inv pre s1 log1 Hpre) as Hinv.
    split; [|split; [|split]].
    + intros e now p id He Hin.
      destruct He as [-> | ->]; exact (agent_change_restarts s1 now p id Hinv Hin).
    + intros id mid s2 log2 now Hin Hmid Hen.
      rewrite <- (any_change_existsb _ _ AgentWatcher.step AgentWatcher.is_change mid s1).
      apply (no_change_before_fire _ _ AgentWatcher.enabled AgentWatcher.step
               (fun _ => AgentWatcher.is_change) AgentWatcher.fires
               AgentWatcher.pending AgentWatcher.next_id AgentWatcher.inv
               AgentFacts.agent_inv_step AgentFacts.agent_pending_bound
               AgentFacts.agent_pending_step
               (fun s e _ => AgentFacts.agent_next_step s e)
               AgentFacts.agent_change_cancels AgentFacts.agent_fire_removes
               mid s1 s2 log2 id (AgentWatcher.TimerFired now id) Hinv Hin Hmid
               eq_refl Hen).
    + apply (fired_once _ _ AgentWatcher.enabled AgentWatcher.step
               AgentWatcher.fires
               AgentWatcher.pending AgentWatcher.next_id AgentWatcher.inv
               AgentFacts.agent_inv_step AgentFacts.agent_pending_bound
               AgentFacts.agent_pending_step
               (fun s e _ => AgentFacts.agent_next_step s e)
               AgentFacts.agent_fire_removes
               pre _ _ _ AgentFacts.agent_inv_init Hpre).
    + apply (run_log_forall _ _ AgentWatcher.enabled AgentWatcher.step _
               agent_step_finished pre _ _ _ Hpre).
  - intros pre s1 log1 Hpre.
    pose proof (window_reach_inv pre s1 log1 Hpre) as Hinv.
    split; [|split; [|split]].
    + intros now obs id Hc Hin s'.
      pose proof (WindowFacts.window_pending_bound s1 id Hinv Hin) as Hlt.
      destruct (WindowFacts.window_poll_cases s1 now obs Hinv)
        as [(_ & Hp & Ht & _ & Ha & _)|[(Hno & _)|(Hno & _)]]; try congruence.
      change (fst (WindowWatcher.on_poll s1 now obs)) with s' in Hp, Ht, Ha.
      unfold WindowWatcher.pending in Hp.
      repeat split; auto.
      intros t. apply not_pending_not_due. rewrite Hp. intros [].
    + intros id mid s2 log2 now Hin Hmid Hen.
      apply (no_change_before_fire _ _ WindowWatcher.enabled WindowWatcher.step
               WindowWatcher.is_change WindowWatcher.fires
               WindowWatcher.pending WindowWatcher.next_id WindowWatcher.inv
               WindowFacts.window_inv_step WindowFacts.window_pending_bound
               WindowFacts.window_pending_step WindowFacts.window_next_step
               WindowFacts.window_change_cancels WindowFacts.window_fire_removes
               mid s1 s2 log2 id (WindowWatcher.TimerFired now id) Hinv Hin Hmid
               eq_refl Hen).
    + apply (fired_once _ _ WindowWatcher.enabled WindowWatcher.step
               WindowWatcher.fires
               WindowWatcher.pending WindowWatcher.next_id WindowWatcher.inv
               WindowFacts.window_inv_step WindowFacts.window_pending_bound
               WindowFacts.window_pending_step WindowFacts.window_next_step
               WindowFacts.window_fire_removes
               pre _ _ _ WindowFacts.window_inv_init Hpre).
    + apply (run_log_forall _ _ WindowWatcher.enabled WindowWatcher.step _
               window_step_finished pre _ _ _ Hpre).
Qed.

(* ====================================================================== *)
(** * Change reports of the window watcher *)
(* ====================================================================== *)


Lemma hasHashChanged_iff (h : string) (last : option string) :
  h <> "" ->
  (WindowWatcher.hasHashChanged (Some h) last = true <-> last <> Some h).
Proof.
  intros Hne. unfold WindowWatcher.hasHashChanged.
  destruct (String.eqb_spec h "") as [->|_]; [contradiction|].
  destruct last as [l|].
  - destruct (String.eqb_spec h l) as [->|Hd]; simpl.
    + split; [discriminate | intros H; now elim H].
    + split; [intros _ H; inversion H; congruence | reflexivity].
  - split; [discriminate | reflexivity].
Qed.

Lemma unchanged_step (h : string) (s : WindowWatcher.state) (e : WindowWatcher.event) :
  WindowWatcher.lastWindowHash s = Some h ->
  WindowWatcher.region_unchanged h e ->
  Machine.count WindowWatcher.is_activity (snd (WindowWatcher.step s e)) = 0 /\
  WindowWatcher.lastWindowHash (fst (WindowWatcher.step s e)) = Some h.
Proof.
  intros Hlast Hun.
  destruct e as [now found opts obs| |now obs|now id|ok]; simpl in Hun;
    try contradiction; simpl.
  - unfold WindowWatcher.on_poll.
    destruct (WindowWatcher.windowWatcherEnabled s); simpl; [|auto].
    destruct (WindowWatcher.info obs) as [title|]; simpl; [|auto].
    assert (Hno : WindowWatcher.hasHashChanged (WindowWatcher.hash obs)
                    (WindowWatcher.lastWindowHash s) = false).
    { rewrite Hlast. destruct Hun as [-> | ->]; [|reflexivity].
      unfold WindowWatcher.hasHashChanged.
      destruct (String.eqb h ""); [reflexivity|].
      now rewrite String.eqb_refl. }
    rewrite Hno.
    destruct (WindowWatcher.windowIdleTimer s); simpl; [auto|].
    destruct (_ <=? _)%Z; simpl; auto.
  - destruct (Timers.due (WindowWatcher.timers s) id now); simpl; [|auto].
    unfold WindowWatcher.on_timeout, Machine.count. simpl.
    destruct (_ <=? _)%Z; [destruct (WindowWatcher.mainWindowOk s)|]; simpl; auto.
  - auto.
Qed.

Lemma on_poll_changed (s : WindowWatcher.state) (now : Z)
    (obs : WindowWatcher.observed) (title : string) :
  WindowWatcher.windowWatcherEnabled s = true ->
  WindowWatcher.info obs = Some title ->
  WindowWatcher.hasHashChanged (WindowWatcher.hash obs)
    (WindowWatcher.lastWindowHash s) = true ->
  snd (WindowWatcher.on_poll s now obs) =
    (if WindowWatcher.mainWindowOk s
     then [Send (window_activity (WindowWatcher.str (WindowWatcher.windowWatcherApp s))
                   title now)]
     else []) /\
  WindowWatcher.lastWindowHash (fst (WindowWatcher.on_poll s now obs)) =
    WindowWatcher.hash obs.
Proof.
  intros Hen Hi Hc. unfold WindowWatcher.on_poll.
  rewrite Hen, Hi, Hc. split; reflexivity.
Qed.

Lemma on_poll_unchanged (s : WindowWatcher.state) (now : Z)
    (obs : WindowWatcher.observed) :
  WindowWatcher.hasHashChanged (WindowWatcher.hash obs)
    (WindowWatcher.lastWindowHash s) = false ->
  snd (WindowWatcher.on_poll s now obs) = [] /\
  WindowWatcher.lastWindowHash (fst (WindowWatcher.on_poll s now obs)) =
    WindowWatcher.lastWindowHash s.
Proof.
  intros Hc. unfold WindowWatcher.on_poll.
  destruct (WindowWatcher.windowWatcherEnabled s); cbn [negb]; [|auto].
  destruct (WindowWatcher.info obs) as [title|]; [|auto].
  rewrite Hc.
  destruct (WindowWatcher.windowIdleTimer s); [auto|].
  destruct (_ <=? _)%Z; simpl; auto.
Qed.

(** C6.  A tick of the running window watcher that finds the window and
    computes a fingerprint [h] (the main window being there to be told)
    sends one window-activity message if [h] differs from the stored
    baseline and none if it is the baseline; either way the baseline is [h]
    afterwards.  A tick that finds no window or computes no fingerprint
    sends nothing and keeps the baseline.  And through any run of ticks that
    compute the baseline fingerprint again (with timers running in between)
    no window-activity message is sent and the baseline stays. *)
Theorem poll_reports_change_iff_hash_differs :
  (forall (s : WindowWatcher.state) (now : Z) (title h : string),
      WindowWatcher.windowWatcherEnabled s = true ->
      WindowWatcher.mainWindowOk s = true ->
      h <> "" ->
      let r := WindowWatcher.on_poll s now
                 (WindowWatcher.mkObserved (Some title) (Some h)) in
      (Machine.count WindowWatcher.is_activity (snd r) = 1 <->
       WindowWatcher.lastWindowHash s <> Some h) /\
      (Machine.count WindowWatcher.is_activity (snd r) = 0 <->
       WindowWatcher.lastWindowHash s = Some h) /\
      WindowWatcher.lastWindowHash (fst r) = Some h) /\
  (forall (s : WindowWatcher.state) (now : Z) (obs : WindowWatcher.observed),
      WindowWatcher.info obs = None \/ WindowWatcher.hash obs = None ->
      let r := WindowWatcher.on_poll s now obs in
      Machine.count WindowWatcher.is_activity (snd r) = 0 /\
      WindowWatcher.lastWindowHash (fst r) = WindowWatcher.lastWindowHash s) /\
  (forall (h : string) (evs : list WindowWatcher.event)
          (s s' : WindowWatcher.state) log,
      WindowWatcher.lastWindowHash s = Some h ->
      Forall (WindowWatcher.region_unchanged h) evs ->
      WindowWatcher.run s evs = Some (s', log) ->
      Forall (fun entry => Machine.count WindowWatcher.is_activity (snd entry) = 0) log /\
      WindowWatcher.lastWindowHash s' = Some h).
Proof.
  split; [|split].
  - intros s now title h Hen Hmw Hne r.
    pose proof (hasHashChanged_iff h (WindowWatcher.lastWindowHash s) Hne) as Hiff.
    destruct (WindowWatcher.hasHashChanged (Some h) (WindowWatcher.lastWindowHash s))
      eqn:E.
    + destruct (on_poll_changed s now (WindowWatcher.mkObserved (Some title) (Some h))
                  title Hen eq_refl E) as [Hout Hb].
      fold r in Hout, Hb. rewrite Hout, Hb, Hmw. unfold Machine.count. simpl.
      assert (Hd : WindowWatcher.lastWindowHash s <> Some h) by (now apply Hiff).
      split; [split; [intros _; exact Hd | reflexivity]|].
      split; [split; [discriminate | intros H; contradiction] | reflexivity].
    + destruct (on_poll_unchanged s now (WindowWatcher.mkObserved (Some title) (Some h))
                  E) as [Hout Hb].
      fold r in Hout, Hb. rewrite Hout, Hb. unfold Machine.count. simpl.
      assert (Hs : WindowWatcher.lastWindowHash s = Some h).
      { destruct (WindowWatcher.lastWindowHash s) as [l|] eqn:El.
        - destruct (String.eqb_spec h l) as [->|Hd]; [reflexivity|].
          assert (H : Some l <> Some h) by congruence.
          apply Hiff in H. discriminate H.
        - assert (H : @None string <> Some h) by discriminate.
          apply Hiff in H. discriminate H. }
      split; [split; [discriminate | intros H; contradiction]|].
      split; [split; [intros _; exact Hs | reflexivity] | exact Hs].
  - intros s now obs Hfail r. subst r. unfold WindowWatcher.on_poll.
    destruct (WindowWatcher.windowWatcherEnabled s); simpl; [|auto].
    destruct (WindowWatcher.info obs) as [title|]; simpl; [|auto].
    destruct Hfail as [Hf|Hf]; [discriminate|]. rewrite Hf. simpl.
    destruct (WindowWatcher.windowIdleTimer s); simpl; [auto|].
    destruct (_ <=? _)%Z; simpl; auto.
  - intros h evs. induction evs as [|e rest IH]; intros s s' log Hlast Hall Hrun.
    + simpl in Hrun. inversion Hrun; subst. auto.
    + inversion Hall as [|? ? He Hrest]; subst.
      destruct (unchanged_step h s e Hlast He) as [Hc Hb].
      unfold WindowWatcher.run in Hrun. simpl in Hrun.
      destruct (WindowWatcher.enabled s e); [|discriminate].
      destruct (WindowWatcher.step s e) as [s1 out]. simpl in Hc, Hb.
      destruct (Machine.run WindowWatcher.enabled WindowWatcher.step s1 rest)
        as [[s2 log2]|] eqn:E; [|discriminate].
      inversion Hrun; subst.
      destruct (IH s1 s' log2 Hb Hrest E) as [Hlog Hfin].
      split; [constructor; auto | exact Hfin].
Qed.

(* ====================================================================== *)
(** * Agent finished needs activity *)
(* ====================================================================== *)


Lemma activity_extend l x :
  AgentWatcher.activity_since l -> AgentWatcher.quiet x -> AgentWatcher.activity_since (l ++ [x]).
Proof.
  intros (la & c & outc & lb & -> & Hc & Hq) Hx.
  exists la, c, outc, (lb ++ [x]). split; [|split; auto].
  - now rewrite <- app_assoc.
  - apply Forall_app. auto.
Qed.

Lemma activity_change l c out :
  AgentWatcher.is_change c = true -> AgentWatcher.activity_since (l ++ [(c, out)]).
Proof.
  intros Hc. exists l, c, out, []. auto.
Qed.

Lemma includes_nil_false (l : list string) (x : string) :
  AgentWatcher.includes l x = true -> l <> [].
Proof. destruct l; [discriminate | discriminate]. Qed.

Lemma includes_in (l : list string) (x : string) :
  AgentWatcher.includes l x = true <-> In x l.
Proof.
  induction l as [|y l IH]; simpl; [split; [discriminate | tauto]|].
  destruct (String.eqb_spec y x) as [->|Hne].
  - split; auto.
  - rewrite IH. split; [auto | intros [H|H]; [contradiction | auto]].
Qed.

Lemma on_change_files (s : AgentWatcher.state) (now : Z) (p : string) :
  AgentWatcher.hasSeenActivity (AgentWatcher.on_change s now p) = true /\
  AgentWatcher.changedFiles (AgentWatcher.on_change s now p) <> [] /\
  In p (AgentWatcher.changedFiles (AgentWatcher.on_change s now p)) /\
  (forall x, In x (AgentWatcher.changedFiles s) ->
             In x (AgentWatcher.changedFiles (AgentWatcher.on_change s now p))).
Proof.
  unfold AgentWatcher.on_change. simpl.
  destruct (AgentWatcher.includes (AgentWatcher.changedFiles s) p) eqn:E.
  - repeat split; auto.
    + now apply includes_nil_false in E.
    + now apply includes_in.
  - repeat split.
    + destruct (AgentWatcher.changedFiles s); discriminate.
    + apply in_or_app. right. now left.
    + intros x Hx. apply in_or_app. now left.
Qed.


Lemma seen_ok_step (s : AgentWatcher.state) (e : AgentWatcher.event) prefix :
  AgentWatcher.seen_ok s prefix ->
  AgentWatcher.seen_ok (fst (AgentWatcher.step s e)) (prefix ++ [(e, snd (AgentWatcher.step s e))]) /\
  (forall files w d,
      In (Send (agent_finished files w d)) (snd (AgentWatcher.step s e)) ->
      files <> [] /\ AgentWatcher.activity_since prefix).
Proof.
  intros Hok.
  assert (Hkeep : forall s1 : AgentWatcher.state,
             AgentWatcher.hasSeenActivity s1 = AgentWatcher.hasSeenActivity s ->
             AgentWatcher.changedFiles s1 = AgentWatcher.changedFiles s ->
             AgentWatcher.is_start e = false ->
             AgentWatcher.seen_ok s1 (prefix ++ [(e, [])])).
  { intros s1 H1 H2 H3 Hs. rewrite H1 in Hs. rewrite H2.
    destruct (Hok Hs) as [Hf Ha]. split; [exact Hf|].
    apply activity_extend; [exact Ha | split; [exact H3 | reflexivity]]. }
  destruct e as [path idle| | |now p|now p|now id|ok]; simpl.
  - split; [|intros ? ? ? []].
    intros Hs. unfold AgentWatcher.startAgentWatcher in Hs. simpl in Hs.
    discriminate Hs.
  - split; [|intros ? ? ? []]. apply Hkeep; reflexivity.
  - split; [|intros ? ? ? []]. apply Hkeep; reflexivity.
  - split; [|intros ? ? ? []].
    destruct (on_change_files s now p) as (_ & Hf & _).
    intros _. split; [exact Hf | now apply activity_change].
  - split; [|intros ? ? ? []].
    destruct (on_change_files s now p) as (_ & Hf & _).
    intros _. split; [exact Hf | now apply activity_change].
  - unfold AgentWatcher.on_timeout. simpl.
    destruct (AgentWatcher.hasSeenActivity s) eqn:Hs; simpl.
    + destruct (AgentWatcher.agentWatcherEnabled s); simpl.
      * destruct (Hok Hs) as [Hf Ha].
        split; [intros H; discriminate H|].
        intros files w d Hin.
        destruct (AgentWatcher.mainWindowOk s); simpl in Hin.
        -- destruct Hin as [H|[H|[]]]; inversion H; subst. auto.
        -- destruct Hin as [H|[]]; inversion H.
      * split; [|intros ? ? ? []].
        apply Hkeep; simpl; auto.
    + split; [|intros ? ? ? []].
      apply Hkeep; simpl; auto.
  - split; [|intros ? ? ? []]. apply Hkeep; reflexivity.
Qed.

Lemma finished_needs_activity_from (evs : list AgentWatcher.event) :
  forall s s' log prefix,
    AgentWatcher.seen_ok s prefix ->
    AgentWatcher.run s evs = Some (s', log) ->
    forall l1 e out l2 files w d,
      log = l1 ++ (e, out) :: l2 ->
      In (Send (agent_finished files w d)) out ->
      files <> [] /\ AgentWatcher.activity_since (prefix ++ l1).
Proof.
  induction evs as [|e0 rest IH]; intros s s' log prefix Hok Hrun
    l1 e out l2 files w d Hlog Hin.
  - simpl in Hrun. inversion Hrun; subst. destruct l1; discriminate.
  - unfold AgentWatcher.run in Hrun. simpl in Hrun.
    destruct (AgentWatcher.enabled s e0); [|discriminate].
    destruct (seen_ok_step s e0 prefix Hok) as [Hok1 Hfin].
    destruct (AgentWatcher.step s e0) as [s1 out1]. simpl in Hok1, Hfin.
    destruct (Machine.run AgentWatcher.enabled AgentWatcher.step s1 rest)
      as [[s2 log2]|] eqn:E; [|discriminate].
    inversion Hrun as [[Hs' Hl']]. clear Hrun.
    rewrite <- Hl' in Hlog. rewrite Hs' in E.
    destruct l1 as [|x l1].
    + simpl in Hlog. inversion Hlog; subst. rewrite app_nil_r. eauto.
    + simpl in Hlog. inversion Hlog as [[Hx Hrest]].
      destruct (IH s1 s' _ _ Hok1 E l1 e out l2 files w d Hrest Hin) as [Hf Ha].
      split; [exact Hf|]. now rewrite <- app_assoc in Ha.
Qed.

(** C10.  In every run of the agent watcher from its initial state, an
    agent-finished message is sent only if the log before it holds a change
    or add event that is followed by no new start and no earlier
    agent-finished message; and the [changedFiles] it carries is not
    empty. *)
Theorem agent_finished_needs_activity
    (evs : list AgentWatcher.event) (s : AgentWatcher.state)
    (log l1 l2 : list (AgentWatcher.event * list output))
    (e : AgentWatcher.event) (out : list output)
    (files : list string) (w : string) (d : Z) :
  AgentWatcher.run AgentWatcher.init evs = Some (s, log) ->
  log = l1 ++ (e, out) :: l2 ->
  In (Send (agent_finished files w d)) out ->
  files <> [] /\ AgentWatcher.activity_since l1.
Proof.
  intros Hrun Hlog Hin.
  apply (finished_needs_activity_from evs AgentWatcher.init s log []
           (fun H => ltac:(discriminate H)) Hrun l1 e out l2 files w d Hlog Hin).
Qed.

(* ====================================================================== *)
(** * The three-changes scenario under the ideal clock *)
(* ====================================================================== *)

Lemma add_file_in (l : list string) (p x : string) :
  In x (AgentWatcher.add_file l p) <-> In x l \/ x = p.
Proof.
  unfold AgentWatcher.add_file. destruct (AgentWatcher.includes l p) eqn:E.
  - apply includes_in in E. split; [auto | intros [H| ->]; auto].
  - rewrite in_app_iff. simpl. split; intros [H|H]; auto.
    + destruct H as [H|[]]; auto.
Qed.

(** The agent watcher right after the third change: timer 2 is pending and
    due at 4800 ms. *)
Lemma three_changes_played (tf : bool) (w a b c : string) :
  AgentClock.play tf AgentWatcher.init (Demo.three_changes w a b c) =
  (AgentWatcher.mkState true true (Some 1800%Z) (Some 2) true w 3000 true
     (AgentWatcher.add_file (AgentWatcher.add_file (AgentWatcher.add_file [] a) b) c)
     (Timers.mk [(2, (4800%Z, tt))] 3),
   [(0%Z, []); (1000%Z, []); (1800%Z, [])]).
Proof. destruct tf; reflexivity. Qed.

(** C3 (amended).  Under the ideal clock, with an idle threshold of 3000 ms
    and change events at 0, 1000 and 1800 ms followed by silence:
    - the window watcher, whose confirm delay is fixed at 2000 ms, polling
      at an interval that lets its ticks fall on the three changes (200 ms
      or one of its divisors below), reports the changes at 0, 1000 and 1800
      ms and sends its first window-agent-finished at 6800 ms (last change
      plus idle threshold plus confirm delay); the message carries the app,
      the window title and the idle time of 5000 ms;
    - the agent watcher, which has no confirm delay, sends agent-finished
      exactly once, at 4800 ms (last change plus idle threshold), whatever
      the horizon from 4800 ms on, and [changedFiles] holds the paths of the
      three changes and nothing else. *)
Theorem three_changes_finished :
  (forall (interval : Z) (timers_first : bool),
      In interval [200; 100; 50; 40; 25]%Z ->
      map fst (Clock.select WindowWatcher.is_activity
                 (WindowClock.simulate timers_first WindowWatcher.init
                    (Demo.polled_window interval) 10000)) = [0; 1000; 1800]%Z /\
      exists later,
        Clock.select WindowWatcher.is_finished
          (WindowClock.simulate timers_first WindowWatcher.init
             (Demo.polled_window interval) 10000) =
          (6800%Z, [Send (window_agent_finished "Cursor" "Editor" 5000)]) :: later) /\
  (forall (w a b c : string) (timers_first : bool) (horizon : Z),
      (4800 <= horizon)%Z ->
      exists files,
        Clock.select AgentWatcher.is_finished
          (AgentClock.simulate timers_first AgentWatcher.init
             (Demo.three_changes w a b c) horizon) =
          [(4800%Z, [Send (agent_finished files w 6000)])] /\
        (forall x, In x files <-> x = a \/ x = b \/ x = c)).
Proof.
  split.
  - intros interval tf Hin.
    repeat (destruct Hin as [<-|Hin];
            [destruct tf; (split; [vm_compute; reflexivity
                                  |eexists; vm_compute; reflexivity])|]).
    destruct Hin.
  - intros w a b c tf horizon Hh.
    exists (AgentWatcher.add_file (AgentWatcher.add_file (AgentWatcher.add_file [] a) b) c). split.
    + unfold AgentClock.simulate, Clock.simulate.
      change (Clock.play AgentWatcher.timers AgentWatcher.step
                AgentWatcher.TimerFired AgentClock.event_time tf
                AgentWatcher.init (Demo.three_changes w a b c))
        with (AgentClock.play tf AgentWatcher.init (Demo.three_changes w a b c)).
      rewrite three_changes_played.
      unfold Clock.settle. cbn [AgentWatcher.timers Timers.pending List.length].
      unfold Clock.advance.
      cbn [AgentWatcher.timers Timers.pending Timers.earliest].
      assert (Hc : ((4800 <? horizon) || (true && (4800 =? horizon)))%Z = true).
      { destruct (Z.ltb_spec 4800 horizon) as [|Hge]; [reflexivity|].
        assert (horizon = 4800%Z) as -> by lia. reflexivity. }
      rewrite Hc. reflexivity.
    + intros x. rewrite !add_file_in. simpl. tauto.
Qed.

Lemma three_changes_finished_witness :
  (map fst (Clock.select WindowWatcher.is_activity
              (WindowClock.simulate true WindowWatcher.init
                 (Demo.polled_window 200) 10000)) = [0; 1000; 1800]%Z /\
   exists later,
     Clock.select WindowWatcher.is_finished
       (WindowClock.simulate true WindowWatcher.init
          (Demo.polled_window 200) 10000) =
       (6800%Z, [Send (window_agent_finished "Cursor" "Editor" 5000)]) :: later) /\
  exists files,
    Clock.select AgentWatcher.is_finished
      (AgentClock.simulate true AgentWatcher.init
         (Demo.three_changes "/w" "a.js" "b.js" "c.js") 10000) =
      [(4800%Z, [Send (agent_finished files "/w" 6000)])] /\
    (forall x, In x files <-> x = "a.js" \/ x = "b.js" \/ x = "c.js").
Proof.
  split.
  - apply (proj1 three_changes_finished 200%Z true). left. reflexivity.
  - apply (proj2 three_changes_finished "/w" "a.js" "b.js" "c.js" true 10000%Z).
    lia.
Defined.

(** C3, as stated, fails.  In the scenario the agent watcher sends its
    agent-finished at 4800 ms and none at 6800 ms, whichever of a timer and
    an event due at the same time runs first.  And the window watcher, with
    the changes reported at 0, 1000 and 1800 ms, sends a
    window-agent-finished at 6800 ms but not exactly once: the next one
    follows at 8800 or 9000 ms. *)
Lemma finished_not_once_at_6800 :
  (~ In 6800%Z
       (map fst
          (Clock.select AgentWatcher.is_finished
             (AgentClock.simulate true AgentWatcher.init
                (Demo.three_changes "/w" "a.js" "b.js" "c.js") 10000))) /\
   ~ In 6800%Z
       (map fst
          (Clock.select AgentWatcher.is_finished
             (AgentClock.simulate false AgentWatcher.init
                (Demo.three_changes "/w" "a.js" "b.js" "c.js") 10000)))) /\
  map fst
    (Clock.select WindowWatcher.is_finished
       (WindowClock.simulate true WindowWatcher.init
          (Demo.polled_window 200) 10000)) = [6800; 8800]%Z /\
  map fst
    (Clock.select WindowWatcher.is_finished
       (WindowClock.simulate false WindowWatcher.init
          (Demo.polled_window 200) 10000)) = [6800; 9000]%Z.
Proof.
  split; [split|split].
  1,2: vm_compute; intros H; repeat (destruct H as [H|H]; [discriminate H|]);
       exact H.
  all: vm_compute; reflexivity.
Qed.

(* ====================================================================== *)
(** * The theorems at concrete runs *)
(* ====================================================================== *)

Lemma change_cancels_pending_finished_witness :
  ((forall t,
       Timers.due
         (AgentWatcher.timers
            (fst (AgentWatcher.step (fst (Demo.agent_after Demo.agent_pre))
                    (AgentWatcher.Change 1000 "b.js")))) 0 t = None) /\
   existsb AgentWatcher.is_change [AgentWatcher.MainWindow true] = false) /\
  ((forall t,
       Timers.due
         (WindowWatcher.timers
            (fst (WindowWatcher.step (fst (Demo.window_after Demo.window_pre))
                    (WindowWatcher.Poll 3500
                       (WindowWatcher.mkObserved (Some "Editor") (Some "h1"))))))
         0 t = None) /\
   Machine.any_change WindowWatcher.step WindowWatcher.is_change
     (fst (Demo.window_after Demo.window_pre))
     [WindowWatcher.Poll 3500
        (WindowWatcher.mkObserved (Some "Editor") (Some "h0"))] = false).
Proof.
  destruct change_cancels_pending_finished as [A W].
  destruct (A Demo.agent_pre (fst (Demo.agent_after Demo.agent_pre))
              (snd (Demo.agent_after Demo.agent_pre)) eq_refl) as (A1 & A2 & _).
  destruct (W Demo.window_pre (fst (Demo.window_after Demo.window_pre))
              (snd (Demo.window_after Demo.window_pre)) eq_refl) as (W1 & W2 & _).
  split; split.
  - apply (A1 (AgentWatcher.Change 1000 "b.js") 1000%Z "b.js" 0);
      [left; reflexivity | vm_compute; auto].
  - apply (A2 0 [AgentWatcher.MainWindow true]
              (fst (Demo.agent_after (Demo.agent_pre ++ [AgentWatcher.MainWindow true])))
              [(AgentWatcher.MainWindow true, [])] 3000%Z);
      [vm_compute; auto | reflexivity | reflexivity].
  - apply (W1 3500%Z (WindowWatcher.mkObserved (Some "Editor") (Some "h1")) 0);
      [reflexivity | vm_compute; auto].
  - apply (W2 0 [WindowWatcher.Poll 3500
                   (WindowWatcher.mkObserved (Some "Editor") (Some "h0"))]
              (fst (Demo.window_after
                      (Demo.window_pre ++
                       [WindowWatcher.Poll 3500
                          (WindowWatcher.mkObserved (Some "Editor") (Some "h0"))])))
              [(WindowWatcher.Poll 3500
                  (WindowWatcher.mkObserved (Some "Editor") (Some "h0")), [])]
              5000%Z);
      [vm_compute; auto | reflexivity | reflexivity].
Defined.

Lemma poll_reports_change_iff_hash_differs_witness :
  (let r := WindowWatcher.on_poll (fst (Demo.window_after Demo.window_pre)) 3500
              (WindowWatcher.mkObserved (Some "Editor") (Some "h1")) in
   (Machine.count WindowWatcher.is_activity (snd r) = 1 <->
    WindowWatcher.lastWindowHash (fst (Demo.window_after Demo.window_pre)) <> Some "h1") /\
   (Machine.count WindowWatcher.is_activity (snd r) = 0 <->
    WindowWatcher.lastWindowHash (fst (Demo.window_after Demo.window_pre)) = Some "h1") /\
   WindowWatcher.lastWindowHash (fst r) = Some "h1") /\
  (let r := WindowWatcher.on_poll (fst (Demo.window_after Demo.window_pre)) 3500
              (WindowWatcher.mkObserved (Some "Editor") None) in
   Machine.count WindowWatcher.is_activity (snd r) = 0 /\
   WindowWatcher.lastWindowHash (fst r) =
   WindowWatcher.lastWindowHash (fst (Demo.window_after Demo.window_pre))) /\
  (Forall (fun entry => Machine.count WindowWatcher.is_activity (snd entry) = 0)
     (snd (Demo.window_from Demo.window_started Demo.same_polls)) /\
   WindowWatcher.lastWindowHash
     (fst (Demo.window_from Demo.window_started Demo.same_polls)) = Some "h0").
Proof.
  destruct poll_reports_change_iff_hash_differs as (P1 & P2 & P3).
  split; [|split].
  - apply (P1 (fst (Demo.window_after Demo.window_pre)) 3500%Z "Editor" "h1");
      [reflexivity | reflexivity | discriminate].
  - apply (P2 (fst (Demo.window_after Demo.window_pre)) 3500%Z
              (WindowWatcher.mkObserved (Some "Editor") None)).
    right. reflexivity.
  - apply (P3 "h0" Demo.same_polls Demo.window_started
              (fst (Demo.window_from Demo.window_started Demo.same_polls))
              (snd (Demo.window_from Demo.window_started Demo.same_polls)));
      [reflexivity | repeat constructor | reflexivity].
Defined.

Lemma agent_finished_needs_activity_witness :
  ["a.js"; "b.js"; "c.js"] <> [] /\
  AgentWatcher.activity_since
    (firstn 5
       (snd (Demo.agent_after
               (Demo.three_changes "/w" "a.js" "b.js" "c.js" ++
                [AgentWatcher.TimerFired 4800 2])))).
Proof.
  apply (agent_finished_needs_activity
           (Demo.three_changes "/w" "a.js" "b.js" "c.js" ++
            [AgentWatcher.TimerFired 4800 2])
           (fst (Demo.agent_after
                   (Demo.three_changes "/w" "a.js" "b.js" "c.js" ++
                    [AgentWatcher.TimerFired 4800 2])))
           (snd (Demo.agent_after
                   (Demo.three_changes "/w" "a.js" "b.js" "c.js" ++
                    [AgentWatcher.TimerFired 4800 2])))
           _ []
           (AgentWatcher.TimerFired 4800 2)
           [Send (agent_finished ["a.js"; "b.js"; "c.js"] "/w" 6000);
            Notify "Agent Finished" 3]
           ["a.js"; "b.js"; "c.js"] "/w" 6000%Z);
    [reflexivity | reflexivity | left; reflexivity].
Defined.

(* ====================================================================== *)
(** * Further runs of the model *)
(* ====================================================================== *)

(** A session that did collect a chunk hands its samples to the engine
    once: the chunk pushed by the data callback is the one [stop] reads. *)
Example stop_with_audio_calls_engine :
  match Audio.stream_data unit Demo.silent unit 10 Demo.recording 0 [x01; x00; x02; x00] with
  | Returned s =>
      match Audio.stopNativeLeopardRecording unit unit Demo.transcribe Demo.env_ok s with
      | Returned (s', r) =>
          r = Audio.OkTranscript "hello" 4 2 /\
          Audio.leopard_calls _ _ s' = [[1%Z; 2%Z]]
      | _ => False
      end
  | _ => False
  end.
Proof. vm_compute. split; reflexivity. Qed.

(** When the capture utility's [stop()] throws, the call throws with it,
    before any use of the engine. *)
Lemma stop_throws (porcupine leopard : Type)
    (leopard_process : leopard -> list Z -> leopard * (string + string))
    (e : Audio.env porcupine leopard) (s : Audio.state porcupine leopard)
    (id : nat) (msg : string) :
  Audio.leopardRecording _ _ s = Some id ->
  Audio.recording_stop _ _ e = inr msg ->
  Audio.stopNativeLeopardRecording porcupine leopard leopard_process e s = Threw msg.
Proof.
  intros Hid Hstop. unfold Audio.stopNativeLeopardRecording.
  now rewrite Hid, Hstop.
Qed.

(** A chunk delivered on the wake word stream goes through the frame loop
    and the residual is stored back in the stream's closure. *)
Example wake_stream_keeps_residual :
  match Audio.stream_data unit Demo.silent unit 2000 Demo.listening 0 Demo.chunk1500 with
  | Returned s =>
      match Audio.lookup_stream 0 (Audio.streams _ _ s) with
      | Some (Audio.WakeListener audioBuffer fl) =>
          List.length audioBuffer = 476 /\ fl = 512
      | _ => False
      end
  | _ => False
  end.
Proof. vm_compute. split; reflexivity. Qed.

(** With the default capture interval of 500 ms the ticks cannot fall on
    all three changes: they report them at 500, 1000 and 2000 ms, and the
    first finished message is sent at 7000 ms.  While the window stays as it
    is, the window watcher comes back with a further finished message:
    [lastWindowActivity] is not touched by the confirm callback. *)
Example window_finished_comes_again :
  map fst (Clock.select WindowWatcher.is_finished
             (WindowClock.simulate true WindowWatcher.init Demo.watched_window 10000))
    = [7000%Z; 9000%Z] /\
  map fst (Clock.select WindowWatcher.is_finished
             (WindowClock.simulate false WindowWatcher.init Demo.watched_window 10000))
    = [7000%Z; 9500%Z].
Proof. split; vm_compute; reflexivity. Qed.

(** The ticks of the scenario report the three changes at 500, 1000 and
    2000 ms. *)
Example window_activity_ticks :
  map fst (Clock.select WindowWatcher.is_activity
             (WindowClock.simulate true WindowWatcher.init Demo.watched_window 10000))
    = [500%Z; 1000%Z; 2000%Z].
Proof. vm_compute. reflexivity. Qed.

(** A change inside the idle period of the agent watcher moves the finished
    message: with a fourth change at 4000 ms it is sent at 7000 ms. *)
Example agent_change_moves_finished :
  Clock.select AgentWatcher.is_finished
    (AgentClock.simulate true AgentWatcher.init
       (Demo.three_changes "/w" "a.js" "b.js" "c.js" ++ [AgentWatcher.Change 4000 "a.js"])
       10000)
  = [(7000%Z, [Send (agent_finished ["a.js"; "b.js"; "c.js"] "/w" 6000)])].
Proof. vm_compute. reflexivity. Qed.

(* ====================================================================== *)
(** * More facts about the wake word listener *)
(* ====================================================================== *)

Section WakeFacts.

Variable porcupine : Type.
Variable porcupine_frameLength : porcupine -> nat.
Variable porcupine_sampleRate : porcupine -> nat.
Variable porcupine_process : porcupine -> list Z -> porcupine * (Z + string).
Variable leopard : Type.

Local Abbreviation state := (Audio.state porcupine leopard).
Local Abbreviation env := (Audio.env porcupine leopard).
Local Abbreviation process_frames := (Audio.process_frames porcupine porcupine_process).
Local Abbreviation wake_on_data := (Audio.wake_on_data porcupine porcupine_process leopard).
Local Abbreviation engine_run := (AudioRuns.engine_run porcupine porcupine_process).
Local Abbreviation startWake :=
  (Audio.startNativeWakeWordListening porcupine porcupine_frameLength
     porcupine_sampleRate leopard).
Local Abbreviation stopWake := (Audio.stopNativeWakeWordListening porcupine leopard).

(** X1.  One data callback cuts as many frames as fit into the buffered bytes
    and leaves the remainder of the division: with [n] bytes in the buffer
    and the chunk together and frames of [b = frameLength * 2] bytes, it
    hands [n / b] frames to the engine and keeps [n mod b] bytes. *)
Theorem wake_frame_count (fl fuel : nat) (s : state) (h : porcupine)
    (buf data : Audio.Buffer) :
  0 < fl ->
  Audio.porcupineListening _ _ s = true ->
  Audio.porcupineHandle _ _ s = Some h ->
  List.length buf + List.length data < fuel ->
  exists s' rest trace,
    wake_on_data fuel s buf fl data = Returned (s', rest, trace) /\
    List.length trace = (List.length buf + List.length data) / (fl * 2) /\
    List.length rest = (List.length buf + List.length data) mod (fl * 2).
Proof.
  intros Hfl Hl Hh Hfuel.
  destruct (wake_on_data_spec porcupine porcupine_process leopard fl Hfl fuel s h
              buf data Hl Hh Hfuel)
    as (s' & rest & trace & Hrun & Hok & Hcat & Hrest & _).
  exists s', rest, trace. split; [exact Hrun|].
  pose proof (trace_bytes fl trace Hok) as Hb.
  apply (f_equal (@List.length _)) in Hcat.
  rewrite !length_app, Hb in Hcat.
  split.
  - apply (Nat.div_unique _ _ _ (List.length rest)); [exact Hrest | lia].
  - apply (Nat.mod_unique _ _ (List.length trace)); [exact Hrest | lia].
Qed.

Lemma process_frames_messages :
  forall (fuel fl : nat) (h : porcupine) (buf : Audio.Buffer) d,
    process_frames fuel fl h buf = Returned d ->
    engine_run h (map snd (Audio.d_trace _ d)) =
    (Audio.d_handle _ d, Audio.d_msgs _ d).
Proof.
  induction fuel as [|fuel IH]; intros fl h buf d Hrun; [discriminate|].
  rewrite process_frames_unfold in Hrun.
  destruct (fl * 2 <=? List.length buf).
  - destruct (Audio.Int16Array (firstn (fl * 2) buf) fl) as [fr| |];
      cbn [obind] in Hrun; try discriminate.
    destruct (porcupine_process h fr) as [h' r] eqn:Ep.
    destruct (process_frames fuel fl h' (skipn (fl * 2) buf)) as [d'| |] eqn:Ed;
      cbn [obind] in Hrun; try discriminate.
    inversion Hrun; subst. simpl. rewrite Ep.
    rewrite (IH fl h' _ d' Ed). reflexivity.
  - inversion Hrun; subst. reflexivity.
Qed.

Lemma sends_sent (msgs : list ipc_msg) :
  forall s : state,
    Audio.sent _ _ (fold_left (Audio.send porcupine leopard) msgs s) =
    Audio.sent _ _ s ++ (if Audio.mainWindowOk _ _ s then msgs else []).
Proof.
  induction msgs as [|m msgs IH]; intros s; simpl.
  - destruct (Audio.mainWindowOk _ _ s); now rewrite app_nil_r.
  - rewrite IH. unfold Audio.send.
    destruct (Audio.mainWindowOk _ _ s) eqn:E; simpl.
    + rewrite E, <- app_assoc. reflexivity.
    + rewrite E. reflexivity.
Qed.


Lemma lookup_open_stream (s : state) (c : Audio.listener) :
  Audio.lookup_stream (Audio.next_stream _ _ s)
    (Audio.streams _ _ (fst (Audio.open_stream _ _ s c))) = Some c.
Proof. simpl. now rewrite Nat.eqb_refl. Qed.

(** X4.  A wake word start from the not-listening state either succeeds and
    leaves the detector listening on a new stream with an empty buffer and
    the frame length of the new engine, or fails and leaves it stopped:
    not listening, no engine handle, no capture stream of its own. *)
Theorem wake_start_outcome (e : env) (s : state) (accessKey keyword : string) :
  Audio.record _ _ s = true ->
  Audio.Porcupine _ _ s = true ->
  Audio.porcupineListening _ _ s = false ->
  let r := startWake e s accessKey keyword in
  Audio.porcupineListening _ _ (fst r) = Audio.success (snd r) /\
  (Audio.success (snd r) = false ->
   Audio.porcupineHandle _ _ (fst r) = None /\
   Audio.audioInputStream _ _ (fst r) = None /\
   Audio.streams _ _ (fst r) = Audio.streams _ _ (fst (stopWake s))) /\
  (Audio.success (snd r) = true ->
   exists h,
     Audio.new_Porcupine _ _ e accessKey keyword = inl h /\
     Audio.porcupineHandle _ _ (fst r) = Some h /\
     Audio.audioInputStream _ _ (fst r) = Some (Audio.next_stream _ _ s) /\
     Audio.lookup_stream (Audio.next_stream _ _ s) (Audio.streams _ _ (fst r)) =
       Some (Audio.WakeListener [] (porcupine_frameLength h)) /\
     snd r = Audio.OkListening (porcupine_sampleRate h) (porcupine_frameLength h)).
Proof.
  intros Hrec Hp Hl r. subst r.
  unfold Audio.startNativeWakeWordListening.
  rewrite Hrec, Hp, Hl. cbn [negb orb].
  destruct (Audio.BuiltinKeyword _ _ e keyword); cbn [negb];
    [|simpl; repeat split; auto; discriminate].
  destruct (Audio.keyword_file_exists _ _ e keyword); cbn [negb];
    [|simpl; repeat split; auto; discriminate].
  destruct (Audio.model_file_exists _ _ e); cbn [negb];
    [|simpl; repeat split; auto; discriminate].
  destruct (Audio.new_Porcupine _ _ e accessKey keyword) as [h|msg];
    [|simpl; repeat split; auto; discriminate].
  destruct (Audio.record_record _ _ e) as [u|msg].
  - simpl. repeat split; try discriminate.
    intros _. exists h. rewrite Nat.eqb_refl. repeat split; reflexivity.
  - simpl. repeat split; auto; try discriminate.
Qed.

Lemma close_absent_stream (id : nat) (l : list (nat * Audio.listener)) :
  ~ In id (map fst l) ->
  filter (fun p : nat * Audio.listener => negb (Nat.eqb (fst p) id)) l = l.
Proof.
  intros Hfresh.
  induction l as [|[i c0] l IH]; simpl; [reflexivity|].
  simpl in Hfresh.
  destruct (Nat.eqb_spec i id) as [->|Hne]; [tauto|].
  simpl. f_equal. apply IH. tauto.
Qed.

Lemma wake_stop_idempotent (s : state) : stopWake (fst (stopWake s)) = stopWake s.
Proof. unfold Audio.stopNativeWakeWordListening. simpl. reflexivity. Qed.

(** X5.  A stop after a successful start closes the stream the start opened, so
    the capture streams that remain open are those of before the start; the
    detector is stopped, a recording session is not touched, and a second
    stop answers as the first and changes nothing more. *)
Theorem wake_stop_undoes_start (e : env) (s : state) (accessKey keyword : string) :
  Audio.record _ _ s = true ->
  Audio.Porcupine _ _ s = true ->
  Audio.porcupineListening _ _ s = false ->
  Audio.audioInputStream _ _ s = None ->
  ~ In (Audio.next_stream _ _ s) (Audio.open_ids _ _ s) ->
  Audio.success (snd (startWake e s accessKey keyword)) = true ->
  let stopped := stopWake (fst (startWake e s accessKey keyword)) in
  (Audio.streams _ _ (fst stopped) = Audio.streams _ _ s /\
   Audio.porcupineListening _ _ (fst stopped) = false /\
   Audio.porcupineHandle _ _ (fst stopped) = None /\
   Audio.leopardRecording _ _ (fst stopped) = Audio.leopardRecording _ _ s) /\
  stopWake (fst stopped) = stopped.
Proof.
  intros Hrec Hp Hl Hs Hfresh Hok stopped. subst stopped.
  split; [|apply wake_stop_idempotent].
  revert Hok. unfold Audio.startNativeWakeWordListening.
  rewrite Hrec, Hp, Hl. cbn [negb orb].
  unfold Audio.stopNativeWakeWordListening at 2 4. rewrite Hs.
  destruct (Audio.BuiltinKeyword _ _ e keyword); cbn [negb]; [|discriminate].
  destruct (Audio.keyword_file_exists _ _ e keyword); cbn [negb]; [|discriminate].
  destruct (Audio.model_file_exists _ _ e); cbn [negb]; [|discriminate].
  destruct (Audio.new_Porcupine _ _ e accessKey keyword) as [h|msg]; [|discriminate].
  destruct (Audio.record_record _ _ e) as [u|msg]; [|discriminate].
  intros _. simpl. rewrite Nat.eqb_refl. simpl.
  rewrite Hs. unfold Audio.close_stream.
  rewrite (close_absent_stream _ _ Hfresh). auto.
Qed.

End WakeFacts.

Lemma process_frames_same_slices
    (P1 P2 : Type)
    (process1 : P1 -> list Z -> P1 * (Z + string))
    (process2 : P2 -> list Z -> P2 * (Z + string))
    (fl : nat) (Hfl : 0 < fl) :
  forall (fuel : nat) (b : Audio.Buffer) (h1 : P1) (h2 : P2),
    List.length b < fuel ->
    exists d1 d2,
      Audio.process_frames P1 process1 fuel fl h1 b = Returned d1 /\
      Audio.process_frames P2 process2 fuel fl h2 b = Returned d2 /\
      Audio.d_rest _ d1 = Audio.d_rest _ d2 /\
      Audio.d_trace _ d1 = Audio.d_trace _ d2.
Proof.
  induction fuel as [|fuel IH]; intros b h1 h2 Hlen; [lia|].
  rewrite !process_frames_unfold.
  destruct (Nat.leb_spec (fl * 2) (List.length b)) as [Hge|Hlt].
  - destruct (Int16Array_slice fl b Hge) as [fr [Hfr _]].
    rewrite Hfr. cbn [obind].
    destruct (process1 h1 fr) as [h1' r1]. destruct (process2 h2 fr) as [h2' r2].
    destruct (IH (skipn (fl * 2) b) h1' h2') as (d1 & d2 & E1 & E2 & Hr & Ht).
    { rewrite length_skipn. lia. }
    rewrite E1, E2. cbn [obind].
    do 2 eexists. repeat split; simpl; congruence.
  - do 2 eexists. repeat split.
Qed.

(** X3.  Which frames are cut does not depend on the engine: two detectors with
    different engines, whatever these answer or throw, cut the same slices
    into the same frames and keep the same residual. *)
Theorem framing_ignores_engine
    (P1 P2 L1 L2 : Type)
    (process1 : P1 -> list Z -> P1 * (Z + string))
    (process2 : P2 -> list Z -> P2 * (Z + string))
    (fl fuel : nat) (s1 : Audio.state P1 L1) (s2 : Audio.state P2 L2)
    (h1 : P1) (h2 : P2) (buf data : Audio.Buffer) :
  0 < fl ->
  Audio.porcupineListening _ _ s1 = true -> Audio.porcupineHandle _ _ s1 = Some h1 ->
  Audio.porcupineListening _ _ s2 = true -> Audio.porcupineHandle _ _ s2 = Some h2 ->
  List.length buf + List.length data < fuel ->
  exists s1' s2' rest trace,
    Audio.wake_on_data P1 process1 L1 fuel s1 buf fl data = Returned (s1', rest, trace) /\
    Audio.wake_on_data P2 process2 L2 fuel s2 buf fl data = Returned (s2', rest, trace).
Proof.
  intros Hfl Hl1 Hh1 Hl2 Hh2 Hfuel.
  rewrite (wake_on_data_listening P1 process1 L1 fuel fl s1 h1 buf data Hl1 Hh1).
  rewrite (wake_on_data_listening P2 process2 L2 fuel fl s2 h2 buf data Hl2 Hh2).
  destruct (process_frames_same_slices P1 P2 process1 process2 fl Hfl fuel
              (buf ++ data) h1 h2) as (d1 & d2 & E1 & E2 & Hr & Ht).
  { rewrite length_app. lia. }
  rewrite E1, E2. cbn [obind]. rewrite Hr, Ht.
  do 4 eexists. split; reflexivity.
Qed.

(* ====================================================================== *)
(** * More facts about the Leopard recording session *)
(* ====================================================================== *)

Section LeopardFacts.

Variable porcupine : Type.
Variable porcupine_process : porcupine -> list Z -> porcupine * (Z + string).
Variable leopard : Type.
Variable leopard_process : leopard -> list Z -> leopard * (string + string).

Local Abbreviation state := (Audio.state porcupine leopard).
Local Abbreviation env := (Audio.env porcupine leopard).
Local Abbreviation startLeopard := (Audio.startNativeLeopardRecording porcupine leopard).
Local Abbreviation stopLeopard :=
  (Audio.stopNativeLeopardRecording porcupine leopard leopard_process).
Local Abbreviation deliver := (AudioRuns.deliver porcupine porcupine_process leopard).

(** A view of [n] samples over at least [2 n] bytes is no [RangeError]. *)
Lemma Int16Array_fits (n : nat) :
  forall b : Audio.Buffer,
    n * 2 <= List.length b ->
    exists fr, Audio.Int16Array b n = Returned fr /\ List.length fr = n.
Proof.
  induction n as [|n IH]; intros b Hlen.
  - exists []. destruct b; split; reflexivity.
  - destruct b as [|lo [|hi rest]]; simpl in Hlen; try lia.
    destruct (IH rest) as [fr [Hfr Hl]]; [lia|].
    exists (Audio.int16 lo hi :: fr). simpl. rewrite Hfr. simpl.
    split; [reflexivity | now rewrite Hl].
Qed.

Lemma lookup_update_stream (id : nat) (c : Audio.listener)
    (l : list (nat * Audio.listener)) (c0 : Audio.listener) :
  Audio.lookup_stream id l = Some c0 ->
  Audio.lookup_stream id (Audio.update_stream id c l) = Some c.
Proof.
  induction l as [|[i x] l IH]; simpl; [discriminate|].
  destruct (Nat.eqb_spec i id) as [->|Hne]; simpl.
  - intros _. now rewrite Nat.eqb_refl.
  - intros H. destruct (Nat.eqb_spec i id); [contradiction | auto].
Qed.

Lemma send_leopard_fields (s : state) (m : ipc_msg) :
  Audio.streams _ _ (Audio.send _ _ s m) = Audio.streams _ _ s /\
  Audio.leopardRecording _ _ (Audio.send _ _ s m) = Audio.leopardRecording _ _ s /\
  Audio.leopardHandle _ _ (Audio.send _ _ s m) = Audio.leopardHandle _ _ s /\
  Audio.leopardAccessKey _ _ (Audio.send _ _ s m) = Audio.leopardAccessKey _ _ s /\
  Audio.leopard_calls _ _ (Audio.send _ _ s m) = Audio.leopard_calls _ _ s.
Proof.
  unfold Audio.send. destruct (Audio.mainWindowOk _ _ s); simpl; auto.
Qed.

(** Chunks delivered on a recording stream are appended to its chunk list,
    in order; the session, the engine handle and the log of engine calls
    stay. *)
Lemma deliver_collects (fuel : nat) (id : nat) (chunks : list Audio.Buffer) :
  forall (s : state) (cs : list Audio.Buffer),
    Audio.lookup_stream id (Audio.streams _ _ s) = Some (Audio.LeopardCollector cs) ->
    exists s1,
      deliver fuel s id chunks = Returned s1 /\
      Audio.lookup_stream id (Audio.streams _ _ s1) =
        Some (Audio.LeopardCollector (cs ++ chunks)) /\
      Audio.leopardRecording _ _ s1 = Audio.leopardRecording _ _ s /\
      Audio.leopardHandle _ _ s1 = Audio.leopardHandle _ _ s /\
      Audio.leopardAccessKey _ _ s1 = Audio.leopardAccessKey _ _ s /\
      Audio.leopard_calls _ _ s1 = Audio.leopard_calls _ _ s.
Proof.
  induction chunks as [|c chunks IH]; intros s cs Hlook.
  - exists s. simpl. rewrite app_nil_r. repeat split; auto.
  - simpl. unfold Audio.stream_data. rewrite Hlook. cbn [obind].
    set (s1 := Audio.leopard_on_data porcupine leopard s id cs c).
    assert (H1 : Audio.lookup_stream id (Audio.streams _ _ s1) =
                 Some (Audio.LeopardCollector (cs ++ [c])) /\
                 Audio.leopardRecording _ _ s1 = Audio.leopardRecording _ _ s /\
                 Audio.leopardHandle _ _ s1 = Audio.leopardHandle _ _ s /\
                 Audio.leopardAccessKey _ _ s1 = Audio.leopardAccessKey _ _ s /\
                 Audio.leopard_calls _ _ s1 = Audio.leopard_calls _ _ s).
    { unfold s1, Audio.leopard_on_data.
      match goal with |- context [Audio.send _ _ ?s0 ?m] =>
        destruct (send_leopard_fields s0 m) as (A & B & C & D & E) end.
      rewrite A, B, C, D, E. simpl.
      split; [|auto]. eapply lookup_update_stream; eauto. }
    destruct H1 as (A & B & C & D & E).
    destruct (IH s1 (cs ++ [c]) A) as (s2 & Hrun & A2 & B2 & C2 & D2 & E2).
    exists s2. rewrite <- app_assoc in A2. simpl in A2.
    repeat split; congruence.
Qed.

(** X6.  Everything a recording session collected reaches the engine, once and in
    order: when chunks are delivered on the session's stream and the session
    is stopped (the capture utility's [stop()] returning), the engine is
    called exactly once, with the samples of the concatenation of all chunks
    in their order of arrival; the result reports the engine's answer, the
    number of bytes and the number of samples. *)
Theorem leopard_transcribes_all_chunks (e : env) (s : state) (id : nat)
    (h : leopard) (cs chunks : list Audio.Buffer) (fuel : nat) :
  Audio.leopardRecording _ _ s = Some id ->
  Audio.lookup_stream id (Audio.streams _ _ s) = Some (Audio.LeopardCollector cs) ->
  Audio.leopardHandle _ _ s = Some h ->
  Audio.recording_stop _ _ e = inl tt ->
  cs ++ chunks <> [] ->
  let bytes := List.concat (cs ++ chunks) in
  exists s1 s2 samples,
    deliver fuel s id chunks = Returned s1 /\
    Audio.Int16Array bytes (List.length bytes / 2) = Returned samples /\
    List.length samples = List.length bytes / 2 /\
    stopLeopard e s1 =
      Returned (s2,
                match snd (leopard_process h samples) with
                | inl transcript =>
                    Audio.OkTranscript transcript (List.length bytes) (List.length samples)
                | inr msg => Audio.Fail msg
                end) /\
    Audio.leopard_calls _ _ s2 = Audio.leopard_calls _ _ s ++ [samples] /\
    Audio.leopardHandle _ _ s2 = Some (fst (leopard_process h samples)) /\
    Audio.leopardRecording _ _ s2 = None.
Proof.
  intros Hid Hlook Hh Hstop Hne bytes.
  destruct (deliver_collects fuel id chunks s cs Hlook)
    as (s1 & Hrun & A & B & C & D & E).
  destruct (Int16Array_fits (List.length bytes / 2) bytes) as [samples [Hs Hl]].
  { rewrite Nat.mul_comm. apply Nat.Div0.mul_div_le. }
  assert (Hstopped : exists s2,
             stopLeopard e s1 =
               Returned (s2,
                         match snd (leopard_process h samples) with
                         | inl transcript =>
                             Audio.OkTranscript transcript (List.length bytes)
                               (List.length samples)
                         | inr msg => Audio.Fail msg
                         end) /\
             Audio.leopard_calls _ _ s2 = Audio.leopard_calls _ _ s ++ [samples] /\
             Audio.leopardHandle _ _ s2 = Some (fst (leopard_process h samples)) /\
             Audio.leopardRecording _ _ s2 = None).
  { unfold Audio.stopNativeLeopardRecording, Audio.chunks_of.
    rewrite B, Hid, A, Hstop.
    subst bytes.
    destruct (cs ++ chunks) as [|c0 rest] eqn:Ecs; [contradiction|].
    cbn [List.length Nat.eqb].
    rewrite Hs.
    change (Audio.leopardHandle porcupine leopard
              (Audio.set_leopard porcupine leopard
                 (Audio.set_streams porcupine leopard s1
                    (Audio.close_stream id (Audio.streams porcupine leopard s1)))
                 (Audio.leopardHandle porcupine leopard s1) None
                 (Audio.leopardAccessKey porcupine leopard s1)))
      with (Audio.leopardHandle porcupine leopard s1).
    rewrite C, Hh.
    destruct (leopard_process h samples) as [h' [t|msg]];
      eexists; (split; [reflexivity|]); simpl; rewrite E; auto. }
  destruct Hstopped as (s2 & H2 & H3 & H4 & H5).
  exists s1, s2, samples. repeat split; auto.
Qed.

(** X7.  After a stop that returns, no session is open: a second stop answers
    "No active recording" and changes nothing. *)
Theorem leopard_stop_twice (e : env) (s s1 : state) (r : Audio.result) :
  stopLeopard e s = Returned (s1, r) ->
  Audio.leopardRecording _ _ s1 = None /\
  stopLeopard e s1 = Returned (s1, Audio.Fail "No active recording").
Proof.
  intros Hstop.
  assert (Hnone : Audio.leopardRecording _ _ s1 = None).
  { revert Hstop. unfold Audio.stopNativeLeopardRecording.
    destruct (Audio.leopardRecording _ _ s) as [id|] eqn:Hid.
    - destruct (Audio.recording_stop _ _ e); [|discriminate].
      destruct (Nat.eqb _ 0); [intros H; inversion H; reflexivity|].
      destruct (Audio.Int16Array _ _) as [samples| |]; try discriminate.
      + simpl Audio.leopardHandle.
        destruct (Audio.leopardHandle _ _ s) as [h|].
        * destruct (leopard_process h samples) as [h' [t|msg]];
            intros H; inversion H; reflexivity.
        * intros H; inversion H; reflexivity.
      + intros H; inversion H; reflexivity.
    - intros H; inversion H; subst. exact Hid. }
  split; [exact Hnone|].
  unfold Audio.stopNativeLeopardRecording. now rewrite Hnone.
Qed.

(** X8.  The engine is built only when it has to be, and an engine made
    for another key is released first.
    - With a handle made for the same access key, a recording start keeps
      that handle and succeeds: nothing is released, nothing is built.
    - Without a handle, the start stands or falls with the constructor: if
      it returns, its handle and the key are stored; if it throws, the start
      fails with its message and nothing is changed.
    - With a handle made for another key, that handle is released first.  If
      the release throws, or if it returns and the constructor then throws,
      the start fails with the message thrown and opens no capture stream;
      [leopardHandle] goes on holding the old object as the release left it,
      under the old key.  If both return, the new handle and the key are
      stored.
    - Hence, after a start that failed in the constructor, a start with the
      old key succeeds on the released engine: it builds nothing. *)
Theorem leopard_engine_built_lazily (e : env) (s : state) (accessKey : string) :
  Audio.record _ _ s = true ->
  Audio.Leopard _ _ s = true ->
  Audio.record_record _ _ e = inl tt ->
  let r := startLeopard e s accessKey in
  (forall h,
      Audio.leopardHandle _ _ s = Some h ->
      Audio.leopardAccessKey _ _ s = Some accessKey ->
      snd r = Audio.OkPlain /\
      Audio.leopardHandle _ _ (fst r) = Some h /\
      Audio.leopardAccessKey _ _ (fst r) = Some accessKey) /\
  (Audio.leopardHandle _ _ s = None ->
   match Audio.new_Leopard _ _ e accessKey with
   | inl h' =>
       snd r = Audio.OkPlain /\
       Audio.leopardHandle _ _ (fst r) = Some h' /\
       Audio.leopardAccessKey _ _ (fst r) = Some accessKey
   | inr msg =>
       r = (s, Audio.Fail msg)
   end) /\
  (forall h,
      Audio.leopardHandle _ _ s = Some h ->
      Audio.option_string_eqb (Audio.leopardAccessKey _ _ s) accessKey = false ->
      let released := Audio.leopard_release _ _ e h in
      let kept := Audio.set_leopard _ _ s (Some (fst released))
                    (Audio.leopardRecording _ _ s) (Audio.leopardAccessKey _ _ s) in
      match snd released with
      | inr msg => r = (kept, Audio.Fail msg)
      | inl _ =>
          match Audio.new_Leopard _ _ e accessKey with
          | inl h' =>
              snd r = Audio.OkPlain /\
              Audio.leopardHandle _ _ (fst r) = Some h' /\
              Audio.leopardAccessKey _ _ (fst r) = Some accessKey
          | inr msg => r = (kept, Audio.Fail msg)
          end
      end) /\
  (forall h oldKey msg,
      Audio.leopardHandle _ _ s = Some h ->
      Audio.leopardAccessKey _ _ s = Some oldKey ->
      String.eqb oldKey accessKey = false ->
      snd (Audio.leopard_release _ _ e h) = inl tt ->
      Audio.new_Leopard _ _ e accessKey = inr msg ->
      let again := startLeopard e (fst r) oldKey in
      snd again = Audio.OkPlain /\
      Audio.leopardHandle _ _ (fst again) = Some (fst (Audio.leopard_release _ _ e h))).
Proof.
  intros Hrec Hleo Hcap r. subst r.
  split; [|split; [|split]].
  - intros h Hh Hk. unfold Audio.startNativeLeopardRecording.
    rewrite Hrec, Hleo. cbn [negb orb].
    rewrite Hh, Hk, option_string_eqb_same, Hcap. simpl. auto.
  - intros Hh. unfold Audio.startNativeLeopardRecording.
    rewrite Hrec, Hleo. cbn [negb orb]. rewrite Hh.
    destruct (Audio.new_Leopard _ _ e accessKey) as [h'|msg];
      [rewrite Hcap; simpl; auto | reflexivity].
  - intros h Hh Hn. unfold Audio.startNativeLeopardRecording.
    rewrite Hrec, Hleo. cbn [negb orb]. rewrite Hh, Hn.
    destruct (Audio.leopard_release _ _ e h) as [old' [u|msg]]; cbn [fst snd].
    + destruct (Audio.new_Leopard _ _ e accessKey) as [h'|msg];
        [rewrite Hcap; simpl; auto | reflexivity].
    + reflexivity.
  - intros h oldKey msg Hh Hk Hne Hrel Hnew.
    assert (E : startLeopard e s accessKey =
                (Audio.set_leopard _ _ s (Some (fst (Audio.leopard_release _ _ e h)))
                   (Audio.leopardRecording _ _ s) (Some oldKey),
                 Audio.Fail msg)).
    { unfold Audio.startNativeLeopardRecording.
      rewrite Hrec, Hleo. cbn [negb orb].
      rewrite Hh, Hk. cbn [Audio.option_string_eqb]. rewrite Hne, Hnew.
      destruct (Audio.leopard_release _ _ e h) as [old' released].
      simpl in Hrel. subst released. reflexivity. }
    rewrite E. cbn [fst].
    unfold Audio.startNativeLeopardRecording.
    cbn [Audio.set_leopard Audio.record Audio.Leopard Audio.leopardHandle
         Audio.leopardAccessKey].
    rewrite Hrec, Hleo, option_string_eqb_same, Hcap. simpl. auto.
Qed.

End LeopardFacts.

(* ====================================================================== *)
(** * More facts about the agent watcher *)
(* ====================================================================== *)

Lemma last_segment_snoc (log : list (AgentWatcher.event * list output)) x :
  AgentTrace.last_segment (log ++ [x]) =
  if AgentTrace.is_reset x then [] else AgentTrace.last_segment log ++ [x].
Proof. unfold AgentTrace.last_segment. rewrite fold_left_app. reflexivity. Qed.

Lemma change_paths_snoc (log : list (AgentWatcher.event * list output)) x :
  AgentTrace.change_paths (log ++ [x]) =
  AgentTrace.change_paths log ++
  match fst x with
  | AgentWatcher.Change _ p | AgentWatcher.Add _ p => [p]
  | _ => []
  end.
Proof.
  unfold AgentTrace.change_paths. rewrite flat_map_app. simpl.
  now rewrite app_nil_r.
Qed.

Lemma first_occurrences_snoc (paths : list string) (p : string) :
  AgentTrace.first_occurrences (paths ++ [p]) =
  AgentWatcher.add_file (AgentTrace.first_occurrences paths) p.
Proof. unfold AgentTrace.first_occurrences. now rewrite fold_left_app. Qed.

Lemma add_file_nodup (l : list string) (p : string) :
  NoDup l -> NoDup (AgentWatcher.add_file l p).
Proof.
  intros Hl. unfold AgentWatcher.add_file.
  destruct (AgentWatcher.includes l p) eqn:E; [exact Hl|].
  apply NoDup_app; [exact Hl | repeat constructor; intros [] |].
  intros x Hx [<-|[]].
  apply includes_in in Hx. congruence.
Qed.

Lemma first_occurrences_spec (paths : list string) :
  NoDup (AgentTrace.first_occurrences paths) /\
  forall x, In x (AgentTrace.first_occurrences paths) <-> In x paths.
Proof.
  induction paths as [|p paths IH] using rev_ind.
  - split; [constructor | reflexivity].
  - destruct IH as [Hn Hi]. rewrite first_occurrences_snoc. split.
    + now apply add_file_nodup.
    + intros x. rewrite add_file_in, Hi, in_app_iff. simpl.
      intuition congruence.
Qed.

Lemma files_ok_step (s : AgentWatcher.state) (e : AgentWatcher.event) prefix :
  AgentTrace.files_ok s prefix ->
  AgentTrace.files_ok (fst (AgentWatcher.step s e)) (prefix ++ [(e, snd (AgentWatcher.step s e))]) /\
  (forall files w d,
      In (Send (agent_finished files w d)) (snd (AgentWatcher.step s e)) ->
      files = AgentWatcher.changedFiles s).
Proof.
  unfold AgentTrace.files_ok. intros Hok.
  rewrite last_segment_snoc.
  destruct e as [path idle| | |now p|now p|now id|ok]; simpl.
  - split; [reflexivity | intros ? ? ? []].
  - split; [|intros ? ? ? []].
    unfold AgentTrace.is_reset. simpl. rewrite change_paths_snoc. simpl.
    now rewrite app_nil_r.
  - split; [|intros ? ? ? []].
    unfold AgentTrace.is_reset. simpl. rewrite change_paths_snoc. simpl.
    now rewrite app_nil_r.
  - split; [|intros ? ? ? []].
    unfold AgentTrace.is_reset. simpl. rewrite change_paths_snoc. simpl.
    rewrite first_occurrences_snoc, <- Hok. reflexivity.
  - split; [|intros ? ? ? []].
    unfold AgentTrace.is_reset. simpl. rewrite change_paths_snoc. simpl.
    rewrite first_occurrences_snoc, <- Hok. reflexivity.
  - unfold AgentWatcher.on_timeout. simpl.
    destruct (AgentWatcher.hasSeenActivity s && AgentWatcher.agentWatcherEnabled s).
    + split.
      * unfold AgentTrace.is_reset. simpl.
        rewrite existsb_app. simpl. rewrite orb_true_r. reflexivity.
      * intros files w d Hin. simpl in Hin.
        destruct (AgentWatcher.mainWindowOk s); simpl in Hin.
        -- destruct Hin as [H|[H|[]]]; inversion H; reflexivity.
        -- destruct Hin as [H|[]]; inversion H.
    + split; [|intros ? ? ? []].
      unfold AgentTrace.is_reset. simpl. rewrite change_paths_snoc. simpl.
      now rewrite app_nil_r.
  - split; [|intros ? ? ? []].
    unfold AgentTrace.is_reset. simpl. rewrite change_paths_snoc. simpl.
    now rewrite app_nil_r.
Qed.

Lemma finished_files_from (evs : list AgentWatcher.event) :
  forall s s' log prefix,
    AgentTrace.files_ok s prefix ->
    AgentWatcher.run s evs = Some (s', log) ->
    forall l1 e out l2 files w d,
      log = l1 ++ (e, out) :: l2 ->
      In (Send (agent_finished files w d)) out ->
      files = AgentTrace.first_occurrences
                (AgentTrace.change_paths (AgentTrace.last_segment (prefix ++ l1))).
Proof.
  induction evs as [|e0 rest IH]; intros s s' log prefix Hok Hrun
    l1 e out l2 files w d Hlog Hin.
  - simpl in Hrun. inversion Hrun; subst. destruct l1; discriminate.
  - unfold AgentWatcher.run in Hrun. simpl in Hrun.
    destruct (AgentWatcher.enabled s e0); [|discriminate].
    destruct (files_ok_step s e0 prefix Hok) as [Hok1 Hfin].
    destruct (AgentWatcher.step s e0) as [s1 out1]. simpl in Hok1, Hfin.
    destruct (Machine.run AgentWatcher.enabled AgentWatcher.step s1 rest)
      as [[s2 log2]|] eqn:E; [|discriminate].
    inversion Hrun as [[Hs' Hl']]. clear Hrun.
    rewrite <- Hl' in Hlog. rewrite Hs' in E.
    destruct l1 as [|x l1].
    + simpl in Hlog. inversion Hlog; subst. rewrite app_nil_r.
      rewrite (Hfin files w d Hin). exact Hok.
    + simpl in Hlog. inversion Hlog as [[Hx Hrest]].
      rewrite (IH s1 s' _ _ Hok1 E l1 e out l2 files w d Hrest Hin).
      now rewrite <- app_assoc.
Qed.


Lemma ids_nil_pending_nil {C : Type} (tm : Timers.t C) :
  Timers.ids tm = [] -> Timers.pending tm = [].
Proof.
  unfold Timers.ids. destruct (Timers.pending tm); [reflexivity | discriminate].
Qed.

Lemma find_cleared {C : Type} (tm : Timers.t C) (j : nat) :
  Timers.find j (Timers.pending (Timers.clearTimeout tm j)) = None.
Proof.
  apply find_not_in.
  change (~ In j (Timers.ids (Timers.clearTimeout tm j))).
  rewrite ids_clearTimeout. tauto.
Qed.

Lemma find_clearTimeout {C : Type} (tm : Timers.t C) (j id : nat) (x : Z * C) :
  Timers.find id (Timers.pending (Timers.clearTimeout tm j)) = Some x ->
  Timers.find id (Timers.pending tm) = Some x.
Proof.
  destruct (Nat.eq_dec id j) as [->|Hne].
  - rewrite find_cleared. discriminate.
  - unfold Timers.clearTimeout. simpl.
    induction (Timers.pending tm) as [|[i c] l IH]; simpl; [discriminate|].
    destruct (Nat.eqb_spec i j) as [->|Hij]; simpl.
    + destruct (Nat.eqb_spec j id) as [->|_]; [contradiction | exact IH].
    + destruct (Nat.eqb_spec i id); auto.
Qed.

Lemma agent_timer_ok_step (s : AgentWatcher.state) (e : AgentWatcher.event) :
  AgentWatcher.inv s -> AgentTrace.timer_ok s ->
  AgentWatcher.enabled s e = true ->
  AgentTrace.timer_ok (fst (AgentWatcher.step s e)).
Proof.
  intros Hinv [Hoff Hdue] Hen.
  assert (Hstop : Timers.pending (AgentWatcher.timers (AgentWatcher.stopAgentWatcher s)) = []).
  { apply ids_nil_pending_nil. exact (AgentFacts.agent_stop_pending s Hinv). }
  destruct e as [path idle| | |now p|now p|now id|ok].
  - (* Start *)
    change (fst (AgentWatcher.step s (AgentWatcher.Start path idle)))
      with (AgentWatcher.startAgentWatcher s path idle).
    assert (Hnil : Timers.pending
                     (AgentWatcher.timers
                        (AgentWatcher.startAgentWatcher s path idle)) = []).
    { unfold AgentWatcher.startAgentWatcher.
      destruct (AgentWatcher.agentWatcher s) eqn:Ew; [exact Hstop | exact (Hoff eq_refl)]. }
    split; [intros _; exact Hnil|].
    intros id due c Hf. rewrite Hnil in Hf. discriminate Hf.
  - change (fst (AgentWatcher.step s AgentWatcher.Stop))
      with (AgentWatcher.stopAgentWatcher s).
    split; [intros _; exact Hstop|].
    intros id due c Hf. rewrite Hstop in Hf. discriminate Hf.
  - split; [exact Hoff | exact Hdue].
  - change (fst (AgentWatcher.step s (AgentWatcher.Change now p)))
      with (AgentWatcher.on_change s now p).
    simpl in Hen. split; [simpl; congruence|].
    intros id due c Hf.
    unfold AgentWatcher.on_change in *. simpl in *.
    rewrite (ids_nil_pending_nil _ (AgentFacts.agent_clear_idle_pending s Hinv)) in Hf.
    simpl in Hf. destruct (Nat.eqb _ id); [|discriminate].
    inversion Hf; subst. eauto.
  - change (fst (AgentWatcher.step s (AgentWatcher.Add now p)))
      with (AgentWatcher.on_change s now p).
    simpl in Hen. split; [simpl; congruence|].
    intros id due c Hf.
    unfold AgentWatcher.on_change in *. simpl in *.
    rewrite (ids_nil_pending_nil _ (AgentFacts.agent_clear_idle_pending s Hinv)) in Hf.
    simpl in Hf. destruct (Nat.eqb _ id); [|discriminate].
    inversion Hf; subst. eauto.
  - assert (Hsame :
      forall s0 : AgentWatcher.state,
        AgentWatcher.agentWatcher (fst (AgentWatcher.on_timeout s0 now)) =
          AgentWatcher.agentWatcher s0 /\
        AgentWatcher.lastFileChange (fst (AgentWatcher.on_timeout s0 now)) =
          AgentWatcher.lastFileChange s0 /\
        AgentWatcher.idleThreshold (fst (AgentWatcher.on_timeout s0 now)) =
          AgentWatcher.idleThreshold s0 /\
        AgentWatcher.timers (fst (AgentWatcher.on_timeout s0 now)) =
          AgentWatcher.timers s0).
    { intros s0. unfold AgentWatcher.on_timeout.
      destruct (_ && _); simpl; auto. }
    simpl.
    destruct (Hsame (AgentWatcher.with_timers s
                       (Timers.clearTimeout (AgentWatcher.timers s) id)))
      as (A & B & C & D).
    unfold AgentTrace.timer_ok. rewrite A, B, C, D. simpl.
    split.
    + intros Hw. rewrite (Hoff Hw). reflexivity.
    + intros j due c Hf. apply find_clearTimeout in Hf. eauto.
  - split; [exact Hoff | exact Hdue].
Qed.

Lemma agent_reach_timer_ok (evs : list AgentWatcher.event) s log :
  AgentWatcher.run AgentWatcher.init evs = Some (s, log) ->
  AgentWatcher.inv s /\ AgentTrace.timer_ok s.
Proof.
  apply (run_inv _ _ AgentWatcher.enabled AgentWatcher.step
           (fun s => AgentWatcher.inv s /\ AgentTrace.timer_ok s)).
  - intros s0 e [Hi Ht] Hen. split.
    + now apply AgentFacts.agent_inv_step.
    + now apply agent_timer_ok_step.
  - split; [exact AgentFacts.agent_inv_init|].
    split; [reflexivity | intros id due c Hf; discriminate Hf].
Qed.

(** X10.  The [duration] of an agent-finished message is at least the idle
    threshold plus the (effective) delay of the timer, for the default
    threshold of 3000 ms at least 6000 ms: it is the time since the last
    change plus the threshold, and the timer runs no earlier than its delay
    after the last change.  The message names the watched path of the
    running watcher. *)
Theorem agent_finished_duration
    (pre : list AgentWatcher.event) (s : AgentWatcher.state)
    (log : list (AgentWatcher.event * list output))
    (now : Z) (id : nat) (files : list string) (w : string) (d : Z) :
  AgentWatcher.run AgentWatcher.init pre = Some (s, log) ->
  AgentWatcher.enabled s (AgentWatcher.TimerFired now id) = true ->
  In (Send (agent_finished files w d))
     (snd (AgentWatcher.step s (AgentWatcher.TimerFired now id))) ->
  (AgentWatcher.idleThreshold s +
   Timers.effective_delay (AgentWatcher.idleThreshold s) <= d)%Z /\
  (exists l, AgentWatcher.lastFileChange s = Some l /\
             d = (now - l + AgentWatcher.idleThreshold s)%Z) /\
  w = AgentWatcher.watchPath s.
Proof.
  intros Hrun Hen Hin.
  destruct (agent_reach_timer_ok pre s log Hrun) as [_ [_ Hdue]].
  simpl in Hen. unfold Timers.due in Hen.
  destruct (Timers.find id (Timers.pending (AgentWatcher.timers s)))
    as [[due c]|] eqn:Hf; [|discriminate].
  destruct (Z.leb_spec due now) as [Hle|]; [|discriminate].
  destruct (Hdue id due c Hf) as (l & Hl & Hd).
  simpl in Hin. unfold AgentWatcher.on_timeout in Hin. simpl in Hin.
  destruct (AgentWatcher.hasSeenActivity s && AgentWatcher.agentWatcherEnabled s);
    [|destruct Hin].
  simpl in Hin.
  assert (Hmsg : agent_finished files w d =
                 agent_finished (AgentWatcher.changedFiles s) (AgentWatcher.watchPath s)
                   (now - (AgentWatcher.num (AgentWatcher.lastFileChange s) -
                           AgentWatcher.idleThreshold s))).
  { destruct (AgentWatcher.mainWindowOk s); simpl in Hin.
    - destruct Hin as [H|[H|[]]]; inversion H; reflexivity.
    - destruct Hin as [H|[]]; inversion H. }
  inversion Hmsg; subst. rewrite Hl. simpl.
  repeat split; [lia | exists l; split; [reflexivity | lia]].
Qed.

(* ====================================================================== *)
(** * Silence after a stop *)
(* ====================================================================== *)

Lemma agent_rest_step (s : AgentWatcher.state) (e : AgentWatcher.event) :
  AgentTrace.at_rest s ->
  AgentWatcher.enabled s e = true ->
  AgentWatcher.is_start e = false ->
  AgentTrace.at_rest (fst (AgentWatcher.step s e)) /\
  snd (AgentWatcher.step s e) = [] /\
  AgentWatcher.fires e = None /\
  AgentWatcher.is_change e = false.
Proof.
  intros [Hw Hp] Hen Hns.
  destruct e as [path idle| | |now p|now p|now id|ok]; simpl in Hen, Hns;
    try discriminate; try congruence.
  - repeat split; auto. simpl.
    destruct (AgentWatcher.agentIdleTimer s) as [j|]; [|exact Hp].
    unfold Timers.clearTimeout. simpl. now rewrite Hp.
  - unfold Timers.due in Hen. rewrite Hp in Hen. discriminate Hen.
  - repeat split; auto.
Qed.

(** X12.  After [stopAgentWatcher], whatever happens until the next start,
    nothing is sent or notified: no file event is delivered any more and no
    timer runs. *)
Theorem agent_silent_after_stop
    (pre : list AgentWatcher.event) (s : AgentWatcher.state)
    (lg : list (AgentWatcher.event * list output))
    (evs : list AgentWatcher.event) (s' : AgentWatcher.state)
    (log : list (AgentWatcher.event * list output)) :
  AgentWatcher.run AgentWatcher.init pre = Some (s, lg) ->
  Forall (fun e => AgentWatcher.is_start e = false) evs ->
  AgentWatcher.run (AgentWatcher.stopAgentWatcher s) evs = Some (s', log) ->
  Forall (fun entry => snd entry = []) log /\
  Machine.fired AgentWatcher.fires evs = [] /\
  existsb AgentWatcher.is_change evs = false.
Proof.
  intros Hpre Hall Hrun.
  pose proof (agent_reach_inv pre s lg Hpre) as Hinv.
  assert (Hrest : AgentTrace.at_rest (AgentWatcher.stopAgentWatcher s)).
  { split; [reflexivity|].
    apply ids_nil_pending_nil. exact (AgentFacts.agent_stop_pending s Hinv). }
  clear Hpre Hinv.
  revert Hrest Hrun. generalize (AgentWatcher.stopAgentWatcher s) as s0.
  revert s' log.
  induction Hall as [|e evs He Hall IH]; intros s' log s0 Hrest Hrun.
  - simpl in Hrun. inversion Hrun. repeat split; constructor.
  - unfold AgentWatcher.run in Hrun. simpl in Hrun.
    destruct (AgentWatcher.enabled s0 e) eqn:Hen; [|discriminate].
    destruct (agent_rest_step s0 e Hrest Hen He) as (Hr & Ho & Hf & Hc).
    destruct (AgentWatcher.step s0 e) as [s1 out]. simpl in Hr, Ho.
    destruct (Machine.run AgentWatcher.enabled AgentWatcher.step s1 evs)
      as [[s2 log2]|] eqn:E; [|discriminate].
    inversion Hrun; subst.
    destruct (IH s' log2 s1 Hr E) as (A & B & C).
    simpl. rewrite Hf, Hc. repeat split; auto.
Qed.

Lemma window_rest_step (s : WindowWatcher.state) (e : WindowWatcher.event) :
  WindowTrace.at_rest s ->
  WindowWatcher.enabled s e = true ->
  WindowTrace.is_start e = false ->
  WindowTrace.at_rest (fst (WindowWatcher.step s e)) /\
  snd (WindowWatcher.step s e) = [] /\
  WindowWatcher.fires e = None.
Proof.
  intros [Hw Hp] Hen Hns.
  destruct e as [now found opts obs| |now obs|now id|ok]; simpl in Hen, Hns;
    try discriminate; try congruence.
  - repeat split; auto. simpl.
    destruct (WindowWatcher.windowIdleTimer s) as [j|]; [|exact Hp].
    unfold Timers.clearTimeout. simpl. now rewrite Hp.
  - unfold Timers.due in Hen. rewrite Hp in Hen. discriminate Hen.
  - repeat split; auto.
Qed.

Lemma window_rest_run (evs : list WindowWatcher.event) :
  Forall (fun e => WindowTrace.is_start e = false) evs ->
  forall s0 s' log,
    WindowTrace.at_rest s0 ->
    WindowWatcher.run s0 evs = Some (s', log) ->
    Forall (fun entry => snd entry = []) log /\
    Machine.fired WindowWatcher.fires evs = [].
Proof.
  induction 1 as [|e evs He Hall IH]; intros s0 s' log Hrest Hrun.
  - simpl in Hrun. inversion Hrun. split; constructor.
  - unfold WindowWatcher.run in Hrun. simpl in Hrun.
    destruct (WindowWatcher.enabled s0 e) eqn:Hen; [|discriminate].
    destruct (window_rest_step s0 e Hrest Hen He) as (Hr & Ho & Hf).
    destruct (WindowWatcher.step s0 e) as [s1 out]. simpl in Hr, Ho.
    destruct (Machine.run WindowWatcher.enabled WindowWatcher.step s1 evs)
      as [[s2 log2]|] eqn:E; [|discriminate].
    inversion Hrun; subst.
    destruct (IH s1 s' log2 Hr E) as (A & B).
    simpl. rewrite Hf. split; auto.
Qed.

(** X13.  After [stopWindowWatcher], whatever happens until the next start,
    nothing is sent or notified: the interval ticks no more and no confirm
    timer runs. *)
Theorem window_silent_after_stop
    (pre : list WindowWatcher.event) (s : WindowWatcher.state)
    (lg : list (WindowWatcher.event * list output))
    (evs : list WindowWatcher.event) (s' : WindowWatcher.state)
    (log : list (WindowWatcher.event * list output)) :
  WindowWatcher.run WindowWatcher.init pre = Some (s, lg) ->
  Forall (fun e => WindowTrace.is_start e = false) evs ->
  WindowWatcher.run (WindowWatcher.stopWindowWatcher s) evs = Some (s', log) ->
  Forall (fun entry => snd entry = []) log /\
  Machine.fired WindowWatcher.fires evs = [].
Proof.
  intros Hpre Hall Hrun.
  pose proof (window_reach_inv pre s lg Hpre) as Hinv.
  apply (window_rest_run evs Hall (WindowWatcher.stopWindowWatcher s) s' log);
    [|exact Hrun].
  split; [reflexivity|].
  apply ids_nil_pending_nil.
  now destruct (WindowFacts.window_stop_pending s Hinv).
Qed.

(** X14.  [startWindowWatcher] installs the polling interval exactly when it
    answers success.  When it fails, nothing is sent or notified until the
    next start, whatever happens; yet when it fails for a missing window of
    an app that was found, the status goes on saying [enabled: true]. *)
Theorem window_start_outcome
    (pre : list WindowWatcher.event) (s : WindowWatcher.state)
    (lg : list (WindowWatcher.event * list output))
    (now : Z) (found : option string) (opts : WindowWatcher.options)
    (obs : WindowWatcher.observed) :
  WindowWatcher.run WindowWatcher.init pre = Some (s, lg) ->
  let s1 := WindowWatcher.startWindowWatcher s now found opts obs in
  WindowWatcher.windowWatcherInterval s1 = WindowTrace.start_succeeds found obs /\
  (WindowTrace.start_succeeds found obs = true ->
   WindowWatcher.lastWindowHash s1 = WindowWatcher.hash obs /\
   WindowWatcher.lastWindowActivity s1 = Some now /\
   WindowWatcher.windowWatcherApp s1 = found) /\
  (WindowTrace.start_succeeds found obs = false ->
   (WindowTrace.status_enabled s1 = true <-> found <> None) /\
   forall evs s' log,
     Forall (fun e => WindowTrace.is_start e = false) evs ->
     WindowWatcher.run s1 evs = Some (s', log) ->
     Forall (fun entry => snd entry = []) log).
Proof.
  intros Hpre s1.
  pose proof (window_reach_inv pre s lg Hpre) as Hinv.
  destruct (WindowFacts.window_start_pending s now found opts obs Hinv) as [Hp _].
  fold s1 in Hp. apply ids_nil_pending_nil in Hp.
  subst s1. unfold WindowWatcher.startWindowWatcher, WindowTrace.start_succeeds in *.
  destruct found as [app|]; [destruct (WindowWatcher.info obs) as [title|]|].
  - simpl. split; [reflexivity|]. split; [intros _; auto | intros H; discriminate H].
  - simpl. split; [reflexivity|]. split; [discriminate|]. intros _. split.
    + split; [discriminate | reflexivity].
    + intros evs s' log Hall Hrun.
      eapply window_rest_run; [exact Hall| |exact Hrun].
      split; [reflexivity | exact Hp].
  - simpl. split; [reflexivity|]. split; [discriminate|]. intros _. split.
    + unfold WindowTrace.status_enabled. simpl.
      split; [discriminate | intros H; now elim H].
    + intros evs s' log Hall Hrun.
      eapply window_rest_run; [exact Hall| |exact Hrun].
      split; [reflexivity | exact Hp].
Qed.

(* ====================================================================== *)
(** * The idle time of a window finished message *)
(* ====================================================================== *)

Lemma window_confirm_ok_step (s : WindowWatcher.state) (e : WindowWatcher.event) :
  WindowWatcher.inv s -> WindowTrace.confirm_ok s ->
  WindowWatcher.enabled s e = true ->
  WindowTrace.confirm_ok (fst (WindowWatcher.step s e)).
Proof.
  intros Hinv Hok Hen.
  assert (Hnil : forall s1 : WindowWatcher.state,
             WindowWatcher.pending s1 = [] -> WindowTrace.confirm_ok s1).
  { intros s1 Hp id due c Hf. apply ids_nil_pending_nil in Hp.
    rewrite Hp in Hf. discriminate Hf. }
  destruct e as [now found opts obs| |now obs|now id|ok].
  - apply Hnil.
    now destruct (WindowFacts.window_start_pending s now found opts obs Hinv).
  - apply Hnil. now destruct (WindowFacts.window_stop_pending s Hinv).
  - change (fst (WindowWatcher.step s (WindowWatcher.Poll now obs)))
      with (fst (WindowWatcher.on_poll s now obs)).
    destruct (WindowFacts.window_poll_cases s now obs Hinv)
      as [(_ & Hp & _)|[(Hno & _ & _ & _ & Hp0 & _)|(_ & Heq)]].
    + apply Hnil. exact Hp.
    + (* the tick installs the timer *)
      apply ids_nil_pending_nil in Hp0.
      unfold WindowWatcher.on_poll, WindowWatcher.is_change in *.
      destruct (WindowWatcher.windowWatcherEnabled s); simpl in *; [|exact Hok].
      destruct (WindowWatcher.info obs) as [title|]; [|exact Hok].
      rewrite Hno.
      destruct (WindowWatcher.windowIdleTimer s); [exact Hok|].
      destruct (Z.leb_spec (WindowWatcher.idleThreshold (WindowWatcher.windowWatcherConfig s))
                  (now - WindowWatcher.num (WindowWatcher.lastWindowActivity s)))
        as [Hle|]; [|exact Hok].
      intros id due c Hf. simpl in Hf. rewrite Hp0 in Hf. simpl in Hf.
      destruct (Nat.eqb _ id); [|discriminate].
      inversion Hf; subst. simpl. unfold Timers.effective_delay. simpl. lia.
    + rewrite Heq. exact Hok.
  - simpl. destruct (Timers.due (WindowWatcher.timers s) id now) as [title|];
      [|exact Hok].
    intros j due c Hf. simpl in Hf. apply find_clearTimeout in Hf.
    exact (Hok j due c Hf).
  - exact Hok.
Qed.

Lemma window_reach_confirm_ok (evs : list WindowWatcher.event) s log :
  WindowWatcher.run WindowWatcher.init evs = Some (s, log) ->
  WindowWatcher.inv s /\ WindowTrace.confirm_ok s.
Proof.
  apply (run_inv _ _ WindowWatcher.enabled WindowWatcher.step
           (fun s => WindowWatcher.inv s /\ WindowTrace.confirm_ok s)).
  - intros s0 e [Hi Ht] Hen. split.
    + now apply WindowFacts.window_inv_step.
    + now apply window_confirm_ok_step.
  - split; [exact WindowFacts.window_inv_init|].
    intros id due c Hf. discriminate Hf.
Qed.

(** X15.  A confirm timer that runs always reports: the test of the idle time in
    its callback cannot fail.  It notifies, and sends one
    window-agent-finished message if the main window is there, and the idle
    time it gives is the time since the last activity, at least the idle
    threshold plus the 2000 ms of confirmation. *)
Theorem window_finished_idle_time
    (pre : list WindowWatcher.event) (s : WindowWatcher.state)
    (log : list (WindowWatcher.event * list output)) (now : Z) (id : nat) :
  WindowWatcher.run WindowWatcher.init pre = Some (s, log) ->
  WindowWatcher.enabled s (WindowWatcher.TimerFired now id) = true ->
  exists title idleTime,
    snd (WindowWatcher.step s (WindowWatcher.TimerFired now id)) =
      (if WindowWatcher.mainWindowOk s
       then [Send (window_agent_finished
                     (WindowWatcher.str (WindowWatcher.windowWatcherApp s))
                     title idleTime)]
       else []) ++ [Notify "Agent Finished!" idleTime] /\
    idleTime = (now - WindowWatcher.num (WindowWatcher.lastWindowActivity s))%Z /\
    (WindowWatcher.idleThreshold (WindowWatcher.windowWatcherConfig s) + 2000
     <= idleTime)%Z.
Proof.
  intros Hrun Hen.
  destruct (window_reach_confirm_ok pre s log Hrun) as [_ Hok].
  simpl in Hen |- *. unfold Timers.due in *.
  destruct (Timers.find id (Timers.pending (WindowWatcher.timers s)))
    as [[due title]|] eqn:Hf; [|discriminate].
  destruct (Z.leb_spec due now) as [Hle|]; [|discriminate].
  pose proof (Hok id due title Hf) as Hd.
  exists title, (now - WindowWatcher.num (WindowWatcher.lastWindowActivity s))%Z.
  unfold WindowWatcher.on_timeout. simpl.
  destruct (Z.leb_spec (WindowWatcher.idleThreshold (WindowWatcher.windowWatcherConfig s))
              (now - WindowWatcher.num (WindowWatcher.lastWindowActivity s)))
    as [_|Hlt]; [|lia].
  split; [reflexivity|]. split; [reflexivity | lia].
Qed.

(* ====================================================================== *)
(** * A burst of changes under the ideal clock *)
(* ====================================================================== *)

Lemma select_app (p : output -> bool) (a b : list (Z * list output)) :
  Clock.select p (a ++ b) = Clock.select p a ++ Clock.select p b.
Proof. unfold Clock.select. now rewrite map_app, filter_app. Qed.

Lemma select_silent (p : output -> bool) (l : list (Z * list output)) :
  Forall (fun x => snd x = []) l -> Clock.select p l = [].
Proof.
  induction 1 as [|x l Hx _ IH]; [reflexivity|].
  unfold Clock.select in *. simpl. rewrite Hx. simpl. exact IH.
Qed.

Lemma effective_delay_id (idle : Z) :
  (1 <= idle <= 2147483647)%Z -> Timers.effective_delay idle = idle.
Proof.
  intros H. unfold Timers.effective_delay.
  destruct (Z.ltb_spec idle 1); [lia|].
  destruct (Z.ltb_spec 2147483647 idle); [lia|]. reflexivity.
Qed.

Lemma settle_armed (tf : bool) (w : string) (idle : Z) (files : list string)
    (t : Z) (id next : nat) (t' : Z) :
  (t' < t + idle)%Z ->
  AgentClock.settle tf (AgentTrace.armed w idle files t id next) t' =
  (AgentTrace.armed w idle files t id next, []).
Proof.
  intros Hlt. unfold AgentClock.settle, Clock.settle. simpl.
  destruct (Z.ltb_spec (t + idle) t'); [lia|].
  destruct (Z.eqb_spec (t + idle) t'); [lia|].
  now rewrite andb_false_r.
Qed.

Lemma on_change_armed (w : string) (idle : Z) (files : list string)
    (t : Z) (id next : nat) (t' : Z) (p : string) :
  (1 <= idle <= 2147483647)%Z ->
  AgentWatcher.on_change (AgentTrace.armed w idle files t id next) t' p =
  AgentTrace.armed w idle (AgentWatcher.add_file files p) t' next (S next).
Proof.
  intros Hidle. unfold AgentWatcher.on_change, AgentTrace.armed. simpl.
  rewrite Nat.eqb_refl, (effective_delay_id idle Hidle). reflexivity.
Qed.

Lemma last_time_cons (t t' : Z) (rest : list Z) :
  AgentTrace.last_time t (t' :: rest) = AgentTrace.last_time t' rest.
Proof.
  unfold AgentTrace.last_time. revert t t'.
  induction rest as [|a rest IH]; intros t t'; [reflexivity|].
  change (last (t' :: a :: rest) t) with (last (a :: rest) t).
  change (last (a :: rest) t') with (last (a :: rest) t').
  rewrite (IH t a). symmetry. rewrite (IH t' a). reflexivity.
Qed.

Lemma play_armed (tf : bool) (w : string) (idle : Z) (Hidle : (1 <= idle <= 2147483647)%Z) :
  forall (later : list (Z * string)) (files : list string) (t : Z) (id next : nat),
    AgentTrace.close_together idle t (map fst later) ->
    exists id' next',
      AgentClock.play tf (AgentTrace.armed w idle files t id next)
        (map (fun c => AgentWatcher.Change (fst c) (snd c)) later) =
      (AgentTrace.armed w idle (fold_left AgentWatcher.add_file (map snd later) files)
         (AgentTrace.last_time t (map fst later)) id' next',
       map (fun c => (fst c, [])) later).
Proof.
  induction later as [|[t' p] later IH]; intros files t id next Hclose.
  - exists id, next. reflexivity.
  - simpl in Hclose. destruct Hclose as [[Hle Hlt] Hrest].
    destruct (IH (AgentWatcher.add_file files p) t' next (S next) Hrest)
      as (id' & next' & Hplay).
    exists id', next'.
    unfold AgentClock.play in *. simpl map. simpl Clock.play.
    change (Clock.settle AgentWatcher.timers AgentWatcher.step AgentWatcher.TimerFired
              tf (AgentTrace.armed w idle files t id next) t')
      with (AgentClock.settle tf (AgentTrace.armed w idle files t id next) t').
    rewrite (settle_armed tf w idle files t id next t' Hlt).
    rewrite (on_change_armed w idle files t id next t' p Hidle).
    rewrite Hplay. simpl map. rewrite last_time_cons. reflexivity.
Qed.

Lemma agent_play_untimed (tf : bool) (s : AgentWatcher.state)
    (e : AgentWatcher.event) (rest : list AgentWatcher.event) :
  AgentClock.event_time e = None ->
  AgentClock.play tf s (e :: rest) =
  AgentClock.play tf (fst (AgentWatcher.step s e)) rest.
Proof.
  intros He. unfold AgentClock.play. simpl. rewrite He.
  destruct (AgentWatcher.step s e). reflexivity.
Qed.

Lemma agent_play_change (tf : bool) (s : AgentWatcher.state) (t : Z) (p : string)
    (rest : list AgentWatcher.event) :
  AgentClock.play tf s (AgentWatcher.Change t p :: rest) =
  (let (s1, log1) := AgentClock.settle tf s t in
   let (s3, log3) := AgentClock.play tf (AgentWatcher.on_change s1 t p) rest in
   (s3, log1 ++ (t, []) :: log3)).
Proof. reflexivity. Qed.

Lemma on_change_fresh (w : string) (idle : Z) (t : Z) (p : string) :
  (1 <= idle <= 2147483647)%Z ->
  AgentWatcher.on_change
    (AgentWatcher.mkState true true None None true w idle false [] Timers.empty) t p =
  AgentTrace.armed w idle (AgentWatcher.add_file [] p) t 0 1.
Proof.
  intros Hidle. unfold AgentWatcher.on_change, AgentTrace.armed. simpl.
  rewrite (effective_delay_id idle Hidle). reflexivity.
Qed.

(** X11.  Debouncing, under the ideal clock.  When the changes of a burst each
    come less than the idle threshold after the one before, the watcher
    sends agent-finished exactly once, one idle threshold after the last
    change, whatever the horizon from then on; the message lists the changed
    paths, each once, in the order of their first change, and its duration
    is twice the threshold. *)
Theorem agent_burst_one_finished (w : string) (idle : Z) (t0 : Z) (p0 : string)
    (later : list (Z * string)) (timers_first : bool) (horizon : Z) :
  (1 <= idle <= 2147483647)%Z ->
  AgentTrace.close_together idle t0 (map fst later) ->
  (AgentTrace.last_time t0 (map fst later) + idle <= horizon)%Z ->
  Clock.select AgentWatcher.is_finished
    (AgentClock.simulate timers_first AgentWatcher.init
       (AgentTrace.burst w idle ((t0, p0) :: later)) horizon) =
  [((AgentTrace.last_time t0 (map fst later) + idle)%Z,
    [Send (agent_finished
             (AgentTrace.first_occurrences (p0 :: map snd later)) w (2 * idle))])].
Proof.
  intros Hidle Hclose Hh.
  set (tl := AgentTrace.last_time t0 (map fst later)) in *.
  destruct (play_armed timers_first w idle Hidle later
              (AgentWatcher.add_file [] p0) t0 0 1 Hclose)
    as (id' & next' & Hplay).
  fold tl in Hplay.
  assert (Hfirst :
    AgentClock.play timers_first AgentWatcher.init
      (AgentTrace.burst w idle ((t0, p0) :: later)) =
    (AgentTrace.armed w idle (AgentTrace.first_occurrences (p0 :: map snd later))
       tl id' next',
     (t0, []) :: map (fun c => (fst c, [])) later)).
  { unfold AgentTrace.burst.
    change (map (fun c : Z * string => AgentWatcher.Change (fst c) (snd c))
              ((t0, p0) :: later))
      with (AgentWatcher.Change t0 p0 ::
            map (fun c : Z * string => AgentWatcher.Change (fst c) (snd c)) later).
    rewrite (agent_play_untimed _ _ (AgentWatcher.Start w (Some idle))) by reflexivity.
    rewrite (agent_play_untimed _ _ AgentWatcher.Ready) by reflexivity.
    rewrite agent_play_change.
    change (fst (AgentWatcher.step
                   (fst (AgentWatcher.step AgentWatcher.init
                           (AgentWatcher.Start w (Some idle)))) AgentWatcher.Ready))
      with (AgentWatcher.mkState true true None None true w idle false []
              (@Timers.empty unit)).
    change (AgentClock.settle timers_first
              (AgentWatcher.mkState true true None None true w idle false []
                 Timers.empty) t0)
      with (AgentWatcher.mkState true true None None true w idle false []
              (@Timers.empty unit), @nil (Z * list output)).
    cbv beta iota zeta.
    rewrite (on_change_fresh w idle t0 p0 Hidle), Hplay. reflexivity. }
  unfold AgentClock.simulate, Clock.simulate.
  change (Clock.play AgentWatcher.timers AgentWatcher.step AgentWatcher.TimerFired
            AgentClock.event_time timers_first AgentWatcher.init
            (AgentTrace.burst w idle ((t0, p0) :: later)))
    with (AgentClock.play timers_first AgentWatcher.init
            (AgentTrace.burst w idle ((t0, p0) :: later))).
  rewrite Hfirst.
  unfold Clock.settle, AgentTrace.armed.
  cbn [AgentWatcher.timers Timers.pending List.length Clock.advance Timers.earliest].
  assert (Hc : ((tl + idle <? horizon) || (true && (tl + idle =? horizon)))%Z = true).
  { destruct (Z.ltb_spec (tl + idle) horizon) as [|Hge]; [reflexivity|].
    assert (horizon = (tl + idle)%Z) as -> by lia.
    now rewrite Z.eqb_refl. }
  rewrite Hc.
  cbn [AgentWatcher.step AgentWatcher.with_timers AgentWatcher.on_timeout
       AgentWatcher.hasSeenActivity AgentWatcher.agentWatcherEnabled andb
       AgentWatcher.mainWindowOk AgentWatcher.changedFiles AgentWatcher.watchPath
       AgentWatcher.lastFileChange AgentWatcher.num AgentWatcher.idleThreshold
       app fst snd].
  replace (tl + idle - (tl - idle))%Z with (2 * idle)%Z by lia.
  rewrite app_comm_cons, select_app, select_silent.
  - reflexivity.
  - constructor; [reflexivity|].
    apply Forall_forall. intros x Hx. apply in_map_iff in Hx.
    destruct Hx as (c & <- & _). reflexivity.
Qed.

(* ====================================================================== *)
(** * Facts about finding an app by name *)
(* ====================================================================== *)

Lemma prefix_refl (s : string) : String.prefix s s = true.
Proof.
  induction s as [|c s IH]; [reflexivity|].
  simpl. destruct (ascii_dec c c); [exact IH | congruence].
Qed.

Lemma includes_empty (s : string) : Resolver.includes s EmptyString = true.
Proof. destruct s; reflexivity. Qed.

Lemma find_some (pred : string -> bool) (l : list string) (x : string) :
  Resolver.find pred l = Some x -> In x l /\ pred x = true.
Proof.
  induction l as [|y l IH]; simpl; [discriminate|].
  destruct (pred y) eqn:Hy.
  - intros [= <-]. auto.
  - intros H. destruct (IH H). auto.
Qed.

Lemma find_none (pred : string -> bool) (l : list string) :
  Resolver.find pred l = None <-> forall x, In x l -> pred x = false.
Proof.
  induction l as [|y l IH]; simpl.
  - split; [intros _ x []|reflexivity].
  - destruct (pred y) eqn:Hy.
    + split; [discriminate|]. intros H. specialize (H y (or_introl eq_refl)). congruence.
    + rewrite IH. split.
      * intros H x [<-|Hx]; auto.
      * intros H x Hx. auto.
Qed.

Lemma getRunningApps_in (names : list string) (a : string) :
  In a (Resolver.getRunningApps names) <-> In a names /\ a <> EmptyString.
Proof.
  unfold Resolver.getRunningApps. rewrite filter_In.
  destruct (String.eqb_spec a EmptyString); simpl; intuition congruence.
Qed.

Lemma Returned_inj {A : Type} (a b : A) : Returned a = Returned b -> a = b.
Proof. congruence. Qed.

Section ResolverFacts.

Variable toLowerCase : string -> string.

Local Abbreviation search := (Resolver.search toLowerCase).
Local Abbreviation alias_matches := (Resolver.alias_matches toLowerCase).
Local Abbreviation aliases_of := (Resolver.aliases_of toLowerCase).
Local Abbreviation findAppByName := (Resolver.findAppByName toLowerCase).

Lemma search_some (aliases running : list string) (app : string) :
  search aliases running = Some app ->
  In app running /\ app <> EmptyString /\
  exists alias, In alias aliases /\ alias_matches alias app = true.
Proof.
  induction aliases as [|alias rest IH]; simpl; [discriminate|].
  destruct (Resolver.find _ running) as [found|] eqn:Hf.
  - destruct (String.eqb_spec found EmptyString) as [He|Hne].
    + intros H. destruct (IH H) as (Hin & Hn & al & Hal & Hm).
      repeat split; auto. exists al; auto.
    + intros [= <-]. apply find_some in Hf as [Hin Hm].
      repeat split; auto. exists alias; auto.
  - intros H. destruct (IH H) as (Hin & Hn & al & Hal & Hm).
    repeat split; auto. exists al; auto.
Qed.

Lemma search_none (aliases running : list string) :
  (forall a, In a running -> a <> EmptyString) ->
  (search aliases running = None <->
   forall alias app, In alias aliases -> In app running -> alias_matches alias app = false).
Proof.
  intros Hne. induction aliases as [|alias rest IH]; simpl.
  - split; [intros _ ? ? []|reflexivity].
  - destruct (Resolver.find _ running) as [found|] eqn:Hf.
    + apply find_some in Hf as [Hin Hm].
      destruct (String.eqb_spec found EmptyString) as [He|Hn];
        [exfalso; apply (Hne found); auto|].
      split; [discriminate|]. intros H.
      specialize (H alias found (or_introl eq_refl) Hin).
      unfold Resolver.alias_matches in *. congruence.
    + rewrite IH. pose proof (proj1 (find_none _ _) Hf) as Hnone. split.
      * intros H al app [<-|Hal] Happ; auto.
      * intros H al app Hal Happ. apply H; auto.
Qed.

Lemma findAppByName_returns (running : list string) (searchName : string)
    (r : option string) :
  findAppByName running searchName = Returned r ->
  search (aliases_of searchName) running = r.
Proof.
  unfold Resolver.findAppByName, Resolver.aliases_of.
  destruct (Resolver.get_property _ _); [|discriminate|]; apply Returned_inj.
Qed.

Lemma findAppByName_search (running : list string) (searchName : string) :
  Resolver.get_property Resolver.AI_APP_ALIASES (toLowerCase searchName) <>
    Resolver.Inherited ->
  findAppByName running searchName = Returned (search (aliases_of searchName) running).
Proof.
  unfold Resolver.findAppByName, Resolver.aliases_of.
  destruct (Resolver.get_property _ _); [|congruence|]; reflexivity.
Qed.

(** X16.  An app that [findAppByName] returns is one of the running apps, with a
    name that is not empty, and its name and one of the aliases tried (those
    of the table for a key of the table, else the search name itself)
    contain one another, case ignored. *)
Theorem findAppByName_sound (names : list string) (searchName app : string) :
  findAppByName (Resolver.getRunningApps names) searchName = Returned (Some app) ->
  In app names /\ app <> EmptyString /\
  exists alias, In alias (aliases_of searchName) /\
    (Resolver.includes (toLowerCase app) (toLowerCase alias) = true \/
     Resolver.includes (toLowerCase alias) (toLowerCase app) = true).
Proof.
  intros H. apply findAppByName_returns in H.
  apply search_some in H as (Hin & Hn & alias & Hal & Hm).
  apply getRunningApps_in in Hin as [Hin _].
  repeat split; auto. exists alias. split; [exact Hal|].
  unfold Resolver.alias_matches in Hm. apply orb_true_iff in Hm. exact Hm.
Qed.

(** X17.  [findAppByName] answers [null] exactly when no running app matches any
    of the aliases tried, in either direction: nothing that matches is
    missed.  (A search name that reads a property of [Object.prototype]
    gets no answer at all, see [findAppByName_throws].) *)
Theorem findAppByName_null (names : list string) (searchName : string) :
  Resolver.get_property Resolver.AI_APP_ALIASES (toLowerCase searchName) <>
    Resolver.Inherited ->
  (findAppByName (Resolver.getRunningApps names) searchName = Returned None <->
   forall alias app,
     In alias (aliases_of searchName) -> In app names -> app <> EmptyString ->
     Resolver.includes (toLowerCase app) (toLowerCase alias) = false /\
     Resolver.includes (toLowerCase alias) (toLowerCase app) = false).
Proof.
  intros Hp.
  assert (Hne : forall a, In a (Resolver.getRunningApps names) -> a <> EmptyString)
    by (intros a Ha; apply getRunningApps_in in Ha; tauto).
  split.
  - intros H. apply findAppByName_returns in H.
    pose proof (proj1 (search_none _ _ Hne) H) as Hall.
    intros alias app Hal Happ Hn.
    specialize (Hall alias app Hal (proj2 (getRunningApps_in _ _) (conj Happ Hn))).
    unfold Resolver.alias_matches in Hall. apply orb_false_iff in Hall. exact Hall.
  - intros H. rewrite (findAppByName_search _ _ Hp). f_equal.
    apply (proj2 (search_none _ _ Hne)). intros alias app Hal Happ.
    apply getRunningApps_in in Happ as [Happ Hn].
    destruct (H alias app Hal Happ Hn) as [H1 H2].
    unfold Resolver.alias_matches. rewrite H1, H2. reflexivity.
Qed.

(** X18.  A search name whose lower case is the name of a property that object
    literals inherit ([constructor], [__proto__], ...) makes [findAppByName]
    throw a [TypeError], whatever is running: the lookup in the alias table
    gives the inherited value, which is truthy and cannot be iterated. *)
Theorem findAppByName_throws (running : list string) (searchName : string) :
  In (toLowerCase searchName) Resolver.object_prototype_names ->
  findAppByName running searchName = Threw "TypeError: aliases is not iterable".
Proof.
  intros Hin. unfold Resolver.findAppByName, Resolver.get_property.
  assert (Hown : Resolver.own_property Resolver.AI_APP_ALIASES (toLowerCase searchName)
                 = None).
  { simpl in Hin. repeat (destruct Hin as [<-|Hin]; [reflexivity|]). destruct Hin. }
  rewrite Hown.
  assert (He : existsb (String.eqb (toLowerCase searchName))
                 Resolver.object_prototype_names = true).
  { apply existsb_exists. exists (toLowerCase searchName).
    split; [exact Hin|apply String.eqb_refl]. }
  rewrite He. reflexivity.
Qed.

(** X19.  The empty search name finds the first running app, whatever it is: the
    empty string is contained in every name. *)
Theorem findAppByName_empty_name (names : list string) :
  toLowerCase EmptyString = EmptyString ->
  findAppByName (Resolver.getRunningApps names) EmptyString =
  Returned (hd_error (Resolver.getRunningApps names)).
Proof.
  intros H0. unfold Resolver.findAppByName. rewrite H0. simpl.
  destruct (Resolver.getRunningApps names) as [|a l] eqn:Hr; [reflexivity|].
  simpl. unfold Resolver.alias_matches at 1. rewrite H0, includes_empty. simpl.
  assert (Ha : a <> EmptyString).
  { assert (Hin : In a (Resolver.getRunningApps names)) by (rewrite Hr; left; reflexivity).
    apply getRunningApps_in in Hin. tauto. }
  destruct (String.eqb_spec a EmptyString); [contradiction|reflexivity].
Qed.

End ResolverFacts.

(* ====================================================================== *)
(** * Facts about reading window descriptions *)
(* ====================================================================== *)

Lemma split_char_cons (sep : ascii) (s : string) :
  exists p ps, Resolver.split_char sep s = p :: ps.
Proof.
  induction s as [|c s IH]; simpl; [eauto|].
  destruct (Ascii.eqb c sep); [eauto|].
  destruct IH as (p & ps & ->). eauto.
Qed.

Lemma split_char_field (sep : ascii) (a b : string) :
  Resolver.free_of sep a = true ->
  Resolver.split_char sep (a ++ String sep b)%string = a :: Resolver.split_char sep b.
Proof.
  induction a as [|c a IH]; simpl.
  - intros _. rewrite Ascii.eqb_refl. reflexivity.
  - intros H. apply andb_true_iff in H as [Hc Ha].
    apply negb_true_iff in Hc. rewrite Hc, (IH Ha). reflexivity.
Qed.

Lemma join_char_cons (sep : ascii) (p : string) (l : list string) :
  l <> [] ->
  Resolver.join_char sep (p :: l) = (p ++ String sep (Resolver.join_char sep l))%string.
Proof. destruct l; [congruence|reflexivity]. Qed.

Lemma join_split_char (sep : ascii) (s : string) :
  Resolver.join_char sep (Resolver.split_char sep s) = s.
Proof.
  induction s as [|c s IH]; [reflexivity|].
  destruct (split_char_cons sep s) as (p & ps & Hs).
  simpl. destruct (Ascii.eqb_spec c sep) as [->|Hc].
  - rewrite join_char_cons, IH by (rewrite Hs; discriminate). reflexivity.
  - rewrite Hs in *. destruct ps as [|q ps].
    + simpl in *. rewrite IH. reflexivity.
    + rewrite join_char_cons in * by discriminate.
      rewrite <- IH. reflexivity.
Qed.

Section WindowEntryFacts.

Variable parseInt : string -> option Z.

(** X20.  An entry of [getAllWindows] is read back field by field, and a title
    that contains the separator [|] itself survives whole: the parts after
    the fifth are joined again with the separator. *)
Theorem window_entry_title_kept (appName index x y width height title : string) :
  Resolver.free_of "|" index = true ->
  Resolver.free_of "|" x = true ->
  Resolver.free_of "|" y = true ->
  Resolver.free_of "|" width = true ->
  Resolver.free_of "|" height = true ->
  Resolver.parse_window_entry parseInt appName
    (index ++ "|" ++ x ++ "|" ++ y ++ "|" ++ width ++ "|" ++ height ++ "|" ++ title)%string =
  Resolver.mkWindow (parseInt index) (parseInt x) (parseInt y) (parseInt width)
    (parseInt height) title appName.
Proof.
  intros Hi Hx Hy Hw Hh. unfold Resolver.parse_window_entry.
  cbn [append].
  rewrite !split_char_field by assumption.
  cbn [nth_error skipn Resolver.number]. rewrite join_split_char. reflexivity.
Qed.

(** X21.  The answer read by [getWindowInfo] likewise: the four numbers are read
    back and a title with commas in it survives whole; the index is the
    selector asked for. *)
Theorem window_info_title_kept (appName x y width height title : string) (n : Z) :
  Resolver.free_of "," x = true ->
  Resolver.free_of "," y = true ->
  Resolver.free_of "," width = true ->
  Resolver.free_of "," height = true ->
  Resolver.parse_window_info parseInt appName n
    (x ++ "," ++ y ++ "," ++ width ++ "," ++ height ++ "," ++ title)%string =
  Resolver.mkWindow (Some n) (parseInt x) (parseInt y) (parseInt width)
    (parseInt height) title appName.
Proof.
  intros Hx Hy Hw Hh. unfold Resolver.parse_window_info.
  cbn [append].
  rewrite !split_char_field by assumption.
  cbn [nth_error skipn Resolver.number]. rewrite join_split_char. reflexivity.
Qed.

End WindowEntryFacts.

(* ====================================================================== *)
(** * Facts about [executeCommand] *)
(* ====================================================================== *)

Ltac unit_answers :=
  repeat match goal with
  | u : unit |- _ => destruct u
  end.

Ltac by_action action :=
  destruct (String.eqb_spec action "type") as [->|?];
  [|destruct (String.eqb_spec action "type_and_send") as [->|?];
    [|destruct (String.eqb_spec action "open") as [->|?];
      [|destruct (String.eqb_spec action "open_url") as [->|?];
        [|destruct (String.eqb_spec action "search") as [->|?]]]]].

Ltac answers e command :=
  try (destruct (AppControl.typeText e command) as [?u|?m] eqn:?Ht);
  try (destruct (AppControl.pressKey e "enter") as [?u|?m] eqn:?Hp);
  try (destruct (AppControl.focusApp e command) as [?u|?m] eqn:?Hc);
  try (destruct (AppControl.encodeURIComponent e command) as [?q|?m] eqn:?He);
  unit_answers.

Ltac run_command e action command targetApp :=
  unfold AppControl.executeCommand, AppControl.and_then, AppControl.ask,
         AppControl.focused, AppControl.typed;
  destruct (AppControl.truthy targetApp) as [?a|];
    [destruct (AppControl.focusApp e _) as [?u|?m] eqn:?Hf|];
  by_action action; cbn [String.eqb Ascii.eqb Bool.eqb];
  answers e command; cbn [app fst snd In].

(** X22.  [executeCommand] stops at the first operation that fails: every
    operation asked of the desktop but the last one succeeded.  It answers
    success exactly when the last one succeeded too; when it answers an
    error, this is the error of the last operation asked, or that of
    [encodeURIComponent] for a search. *)
Theorem executeCommand_stops_at_first_failure
    (e : AppControl.env) (action command : string) (targetApp : option string) :
  let (ops, r) := AppControl.executeCommand e action command targetApp in
  Forall (fun o => AppControl.answer e o = inl tt) (removelast ops) /\
  match r with
  | AppControl.Success => Forall (fun o => AppControl.answer e o = inl tt) ops
  | AppControl.Failure msg =>
      (exists o, ops = removelast ops ++ [o] /\ AppControl.answer e o = inr msg) \/
      (action = "search" /\ AppControl.encodeURIComponent e command = inr msg)
  end.
Proof.
  unfold AppControl.executeCommand, AppControl.and_then, AppControl.ask.
  destruct (AppControl.truthy targetApp) as [a|];
    [destruct (AppControl.focusApp e a) as [u|m] eqn:Hf|];
    unit_answers; cbn [app].
  2: { simpl. split; [constructor|]. left. exists (AppControl.Focus a).
       split; [reflexivity|exact Hf]. }
  all: by_action action; cbn [String.eqb Ascii.eqb Bool.eqb];
    answers e command; cbn [app removelast];
    (split; [repeat constructor; assumption|]);
    try (repeat constructor; assumption);
    try (left; eexists; split; [reflexivity|eassumption]);
    try (right; split; [reflexivity|assumption]).
Qed.

(** X23.  Enter is pressed only to send what was typed: a key is pressed exactly
    when the action is [type_and_send], the target app (if one is given)
    was focused and typing the command succeeded; and the key is Enter. *)
Theorem executeCommand_enter_after_typing
    (e : AppControl.env) (action command : string) (targetApp : option string)
    (k : string) :
  In (AppControl.PressKey k)
     (fst (AppControl.executeCommand e action command targetApp)) <->
  k = "enter" /\ action = "type_and_send" /\
  AppControl.focused e targetApp = true /\ AppControl.typed e command = true.
Proof.
  run_command e action command targetApp;
    (split; [intros H; repeat (destruct H as [H|H]; try discriminate H);
             try contradiction; try (injection H as <-; auto)
            |intros (-> & Ha & Hfo & Hty); try discriminate; try congruence; auto]).
Qed.

(** X24.  What is typed is the command and nothing else, and it is typed for
    every action but [open], [open_url] and [search], an action that
    [executeCommand] does not know included, provided the target app (if
    one is given) could be focused. *)
Theorem executeCommand_types_command
    (e : AppControl.env) (action command : string) (targetApp : option string)
    (text : string) :
  In (AppControl.TypeText text)
     (fst (AppControl.executeCommand e action command targetApp)) <->
  text = command /\ AppControl.focused e targetApp = true /\
  ~ In action ["open"; "open_url"; "search"].
Proof.
  run_command e action command targetApp;
    (split; [intros H; repeat (destruct H as [H|H]; try discriminate H);
             try contradiction; try (injection H as <-);
             (split; [reflexivity|split; [reflexivity|]]);
             intros Hin;
             repeat (destruct Hin as [Hin|Hin]; try discriminate Hin; try congruence)
            |intros (-> & Hfo & Hno); try discriminate;
             try (exfalso; apply Hno; simpl; tauto); auto]).
Qed.

(* ====================================================================== *)
(** * The further facts at concrete inputs *)
(* ====================================================================== *)

Lemma wake_frame_count_witness :
  exists s' rest trace,
    Audio.wake_on_data unit Demo.silent unit 1501 Demo.listening [] 512 Demo.chunk1500 =
      Returned (s', rest, trace) /\
    List.length trace = (List.length (@nil byte) + List.length Demo.chunk1500) / (512 * 2) /\
    List.length rest = (List.length (@nil byte) + List.length Demo.chunk1500) mod (512 * 2).
Proof.
  apply (wake_frame_count unit Demo.silent unit 512 1501 Demo.listening tt []
           Demo.chunk1500);
    [lia | reflexivity | reflexivity | vm_compute; lia].
Defined.


Lemma wake_start_outcome_witness :
  let r := Audio.startNativeWakeWordListening unit Demo.frameLength512
             Demo.sampleRate16k unit Demo.env_ok Demo.idle "key" "jarvis" in
  Audio.porcupineListening _ _ (fst r) = Audio.success (snd r) /\
  (Audio.success (snd r) = false ->
   Audio.porcupineHandle _ _ (fst r) = None /\
   Audio.audioInputStream _ _ (fst r) = None /\
   Audio.streams _ _ (fst r) =
     Audio.streams _ _ (fst (Audio.stopNativeWakeWordListening unit unit Demo.idle))) /\
  (Audio.success (snd r) = true ->
   exists h,
     Audio.new_Porcupine _ _ Demo.env_ok "key" "jarvis" = inl h /\
     Audio.porcupineHandle _ _ (fst r) = Some h /\
     Audio.audioInputStream _ _ (fst r) = Some (Audio.next_stream _ _ Demo.idle) /\
     Audio.lookup_stream (Audio.next_stream _ _ Demo.idle) (Audio.streams _ _ (fst r)) =
       Some (Audio.WakeListener [] (Demo.frameLength512 h)) /\
     snd r = Audio.OkListening (Demo.sampleRate16k h) (Demo.frameLength512 h)).
Proof.
  apply (wake_start_outcome unit Demo.frameLength512 Demo.sampleRate16k unit
           Demo.env_ok Demo.idle "key" "jarvis"); reflexivity.
Defined.

Lemma wake_stop_undoes_start_witness :
  let stopped :=
    Audio.stopNativeWakeWordListening unit unit
      (fst (Audio.startNativeWakeWordListening unit Demo.frameLength512
              Demo.sampleRate16k unit Demo.env_ok Demo.idle "key" "jarvis")) in
  (Audio.streams _ _ (fst stopped) = Audio.streams _ _ Demo.idle /\
   Audio.porcupineListening _ _ (fst stopped) = false /\
   Audio.porcupineHandle _ _ (fst stopped) = None /\
   Audio.leopardRecording _ _ (fst stopped) = Audio.leopardRecording _ _ Demo.idle) /\
  Audio.stopNativeWakeWordListening unit unit (fst stopped) = stopped.
Proof.
  apply (wake_stop_undoes_start unit Demo.frameLength512 Demo.sampleRate16k unit
           Demo.env_ok Demo.idle "key" "jarvis");
    [reflexivity | reflexivity | reflexivity | reflexivity | intros [] | reflexivity].
Defined.

Lemma framing_ignores_engine_witness :
  exists s1' s2' rest trace,
    Audio.wake_on_data unit Demo.silent unit 1501 Demo.listening [] 512 Demo.chunk1500 =
      Returned (s1', rest, trace) /\
    Audio.wake_on_data unit Samples.eager unit 1501 Demo.listening [] 512 Demo.chunk1500 =
      Returned (s2', rest, trace).
Proof.
  apply (framing_ignores_engine unit unit unit unit Demo.silent Samples.eager 512 1501
           Demo.listening Demo.listening tt tt [] Demo.chunk1500);
    [lia | reflexivity | reflexivity | reflexivity | reflexivity | vm_compute; lia].
Defined.

Lemma leopard_transcribes_all_chunks_witness :
  let bytes := List.concat ([] ++ [Demo.chunk1500; Demo.chunk1500]) in
  exists s1 s2 samples,
    AudioRuns.deliver unit Demo.silent unit 10 Demo.recording 0
      [Demo.chunk1500; Demo.chunk1500] = Returned s1 /\
    Audio.Int16Array bytes (List.length bytes / 2) = Returned samples /\
    List.length samples = List.length bytes / 2 /\
    Audio.stopNativeLeopardRecording unit unit Demo.transcribe Demo.env_ok s1 =
      Returned (s2,
                match snd (Demo.transcribe tt samples) with
                | inl transcript =>
                    Audio.OkTranscript transcript (List.length bytes) (List.length samples)
                | inr msg => Audio.Fail msg
                end) /\
    Audio.leopard_calls _ _ s2 = Audio.leopard_calls _ _ Demo.recording ++ [samples] /\
    Audio.leopardHandle _ _ s2 = Some (fst (Demo.transcribe tt samples)) /\
    Audio.leopardRecording _ _ s2 = None.
Proof.
  apply (leopard_transcribes_all_chunks unit Demo.silent unit Demo.transcribe
           Demo.env_ok Demo.recording 0 tt [] [Demo.chunk1500; Demo.chunk1500] 10);
    [reflexivity | reflexivity | reflexivity | reflexivity | discriminate].
Defined.

Lemma leopard_stop_twice_witness :
  Audio.leopardRecording _ _ Samples.stopped = None /\
  Audio.stopNativeLeopardRecording unit unit Demo.transcribe Demo.env_ok Samples.stopped =
    Returned (Samples.stopped, Audio.Fail "No active recording").
Proof.
  apply (leopard_stop_twice unit unit Demo.transcribe Demo.env_ok Demo.recording
           Samples.stopped (Audio.Fail "No audio recorded")).
  reflexivity.
Defined.

Lemma leopard_engine_built_lazily_witness :
  (let r := Audio.startNativeLeopardRecording unit bool Samples.env_one_key
              Samples.keyed "key" in
   snd r = Audio.OkPlain /\
   Audio.leopardHandle _ _ (fst r) = Some true /\
   Audio.leopardAccessKey _ _ (fst r) = Some "key") /\
  Audio.startNativeLeopardRecording unit bool Samples.env_one_key Samples.keyed "other" =
    (Audio.set_leopard _ _ Samples.keyed (Some false) None (Some "key"),
     Audio.Fail "Invalid AccessKey") /\
  (let again :=
     Audio.startNativeLeopardRecording unit bool Samples.env_one_key
       (fst (Audio.startNativeLeopardRecording unit bool Samples.env_one_key
               Samples.keyed "other")) "key" in
   snd again = Audio.OkPlain /\
   Audio.leopardHandle _ _ (fst again) = Some false).
Proof.
  pose proof (leopard_engine_built_lazily unit bool Samples.env_one_key Samples.keyed
                "key" eq_refl eq_refl eq_refl) as Same.
  pose proof (leopard_engine_built_lazily unit bool Samples.env_one_key Samples.keyed
                "other" eq_refl eq_refl eq_refl) as Other.
  split; [exact (proj1 Same true eq_refl eq_refl)|].
  split; [exact (proj1 (proj2 (proj2 Other)) true eq_refl eq_refl)|].
  exact (proj2 (proj2 (proj2 Other)) true "key" "Invalid AccessKey"
           eq_refl eq_refl eq_refl eq_refl eq_refl).
Defined.


Lemma agent_finished_duration_witness :
  (AgentWatcher.idleThreshold
     (fst (Demo.agent_after (Demo.three_changes "/w" "a.js" "b.js" "c.js"))) +
   Timers.effective_delay
     (AgentWatcher.idleThreshold
        (fst (Demo.agent_after (Demo.three_changes "/w" "a.js" "b.js" "c.js"))))
   <= 6000)%Z /\
  (exists l,
     AgentWatcher.lastFileChange
       (fst (Demo.agent_after (Demo.three_changes "/w" "a.js" "b.js" "c.js"))) = Some l /\
     6000%Z =
       (4800 - l +
        AgentWatcher.idleThreshold
          (fst (Demo.agent_after (Demo.three_changes "/w" "a.js" "b.js" "c.js"))))%Z) /\
  "/w" = AgentWatcher.watchPath
           (fst (Demo.agent_after (Demo.three_changes "/w" "a.js" "b.js" "c.js"))).
Proof.
  apply (agent_finished_duration
           (Demo.three_changes "/w" "a.js" "b.js" "c.js")
           (fst (Demo.agent_after (Demo.three_changes "/w" "a.js" "b.js" "c.js")))
           (snd (Demo.agent_after (Demo.three_changes "/w" "a.js" "b.js" "c.js")))
           4800%Z 2 ["a.js"; "b.js"; "c.js"] "/w" 6000%Z);
    [reflexivity | reflexivity | left; reflexivity].
Defined.

Lemma agent_silent_after_stop_witness :
  Forall (fun entry : AgentWatcher.event * list output => snd entry = [])
    (snd (Samples.agent_from
            (AgentWatcher.stopAgentWatcher (fst (Demo.agent_after Demo.agent_pre)))
            Samples.agent_quiet)) /\
  Machine.fired AgentWatcher.fires Samples.agent_quiet = [] /\
  existsb AgentWatcher.is_change Samples.agent_quiet = false.
Proof.
  apply (agent_silent_after_stop Demo.agent_pre
           (fst (Demo.agent_after Demo.agent_pre))
           (snd (Demo.agent_after Demo.agent_pre))
           Samples.agent_quiet
           (fst (Samples.agent_from
                   (AgentWatcher.stopAgentWatcher (fst (Demo.agent_after Demo.agent_pre)))
                   Samples.agent_quiet)));
    [reflexivity | repeat constructor | reflexivity].
Defined.

Lemma window_silent_after_stop_witness :
  Forall (fun entry : WindowWatcher.event * list output => snd entry = [])
    (snd (Demo.window_from
            (WindowWatcher.stopWindowWatcher (fst (Demo.window_after Demo.window_pre)))
            Samples.window_quiet)) /\
  Machine.fired WindowWatcher.fires Samples.window_quiet = [].
Proof.
  apply (window_silent_after_stop Demo.window_pre
           (fst (Demo.window_after Demo.window_pre))
           (snd (Demo.window_after Demo.window_pre))
           Samples.window_quiet
           (fst (Demo.window_from
                   (WindowWatcher.stopWindowWatcher (fst (Demo.window_after Demo.window_pre)))
                   Samples.window_quiet)));
    [reflexivity | repeat constructor | reflexivity].
Defined.

Lemma window_start_outcome_witness :
  let found := Some "Cursor" in
  let obs := WindowWatcher.mkObserved None None in
  let s1 := WindowWatcher.startWindowWatcher
              (fst (Demo.window_after Demo.window_pre)) 9000 found
              (WindowWatcher.mkOptions None None) obs in
  WindowWatcher.windowWatcherInterval s1 = WindowTrace.start_succeeds found obs /\
  (WindowTrace.start_succeeds found obs = true ->
   WindowWatcher.lastWindowHash s1 = WindowWatcher.hash obs /\
   WindowWatcher.lastWindowActivity s1 = Some 9000%Z /\
   WindowWatcher.windowWatcherApp s1 = found) /\
  (WindowTrace.start_succeeds found obs = false ->
   (WindowTrace.status_enabled s1 = true <-> found <> None) /\
   forall evs s' log,
     Forall (fun e => WindowTrace.is_start e = false) evs ->
     WindowWatcher.run s1 evs = Some (s', log) ->
     Forall (fun entry => snd entry = []) log).
Proof.
  apply (window_start_outcome Demo.window_pre
           (fst (Demo.window_after Demo.window_pre))
           (snd (Demo.window_after Demo.window_pre))
           9000%Z (Some "Cursor") (WindowWatcher.mkOptions None None)
           (WindowWatcher.mkObserved None None)).
  reflexivity.
Defined.

Lemma window_finished_idle_time_witness :
  exists title idleTime,
    snd (WindowWatcher.step (fst (Demo.window_after Demo.window_pre))
           (WindowWatcher.TimerFired 5000 0)) =
      (if WindowWatcher.mainWindowOk (fst (Demo.window_after Demo.window_pre))
       then [Send (window_agent_finished
                     (WindowWatcher.str
                        (WindowWatcher.windowWatcherApp
                           (fst (Demo.window_after Demo.window_pre))))
                     title idleTime)]
       else []) ++ [Notify "Agent Finished!" idleTime] /\
    idleTime =
      (5000 - WindowWatcher.num
                (WindowWatcher.lastWindowActivity
                   (fst (Demo.window_after Demo.window_pre))))%Z /\
    (WindowWatcher.idleThreshold
       (WindowWatcher.windowWatcherConfig (fst (Demo.window_after Demo.window_pre)))
     + 2000 <= idleTime)%Z.
Proof.
  apply (window_finished_idle_time Demo.window_pre
           (fst (Demo.window_after Demo.window_pre))
           (snd (Demo.window_after Demo.window_pre)) 5000%Z 0);
    reflexivity.
Defined.

Lemma agent_burst_one_finished_witness :
  Clock.select AgentWatcher.is_finished
    (AgentClock.simulate true AgentWatcher.init
       (AgentTrace.burst "/w" 3000
          ((0%Z, "a.js") :: [(1000%Z, "b.js"); (1800%Z, "a.js")])) 10000) =
  [((AgentTrace.last_time 0 (map fst [(1000%Z, "b.js"); (1800%Z, "a.js")]) + 3000)%Z,
    [Send (agent_finished
             (AgentTrace.first_occurrences
                ("a.js" :: map snd [(1000%Z, "b.js"); (1800%Z, "a.js")]))
             "/w" (2 * 3000))])].
Proof.
  apply (agent_burst_one_finished "/w" 3000 0 "a.js"
           [(1000%Z, "b.js"); (1800%Z, "a.js")] true 10000);
    [lia | simpl; lia | simpl; lia].
Defined.

Lemma findAppByName_sound_witness :
  In "Cursor" Samples.running /\ "Cursor" <> EmptyString /\
  exists alias, In alias (Resolver.aliases_of Samples.toLowerCase "cursor") /\
    (Resolver.includes (Samples.toLowerCase "Cursor") (Samples.toLowerCase alias) = true \/
     Resolver.includes (Samples.toLowerCase alias) (Samples.toLowerCase "Cursor") = true).
Proof.
  apply (findAppByName_sound Samples.toLowerCase Samples.running "cursor" "Cursor").
  reflexivity.
Defined.

Lemma findAppByName_null_witness :
  Resolver.findAppByName Samples.toLowerCase
    (Resolver.getRunningApps Samples.running) "Slack" = Returned None <->
  forall alias app,
    In alias (Resolver.aliases_of Samples.toLowerCase "Slack") ->
    In app Samples.running -> app <> EmptyString ->
    Resolver.includes (Samples.toLowerCase app) (Samples.toLowerCase alias) = false /\
    Resolver.includes (Samples.toLowerCase alias) (Samples.toLowerCase app) = false.
Proof.
  apply (findAppByName_null Samples.toLowerCase Samples.running "Slack").
  vm_compute. discriminate.
Defined.

Lemma findAppByName_throws_witness :
  Resolver.findAppByName Samples.toLowerCase Samples.running "Constructor" =
  Threw "TypeError: aliases is not iterable".
Proof.
  apply (findAppByName_throws Samples.toLowerCase Samples.running "Constructor").
  left. reflexivity.
Defined.

Lemma findAppByName_empty_name_witness :
  Resolver.findAppByName Samples.toLowerCase
    (Resolver.getRunningApps Samples.running) EmptyString =
  Returned (hd_error (Resolver.getRunningApps Samples.running)).
Proof.
  apply (findAppByName_empty_name Samples.toLowerCase Samples.running).
  reflexivity.
Defined.

Lemma window_entry_title_kept_witness :
  Resolver.parse_window_entry Samples.parseInt "Cursor"
    ("1" ++ "|" ++ "0" ++ "|" ++ "25" ++ "|" ++ "1440" ++ "|" ++ "900" ++ "|" ++
     "main.js | cortona")%string =
  Resolver.mkWindow (Samples.parseInt "1") (Samples.parseInt "0") (Samples.parseInt "25")
    (Samples.parseInt "1440") (Samples.parseInt "900") "main.js | cortona" "Cursor".
Proof.
  apply (window_entry_title_kept Samples.parseInt "Cursor" "1" "0" "25" "1440" "900"
           "main.js | cortona"); reflexivity.
Defined.

Lemma window_info_title_kept_witness :
  Resolver.parse_window_info Samples.parseInt "Notes" 1
    ("0" ++ "," ++ "25" ++ "," ++ "1440" ++ "," ++ "900" ++ "," ++
     "Milk, eggs, bread")%string =
  Resolver.mkWindow (Some 1%Z) (Samples.parseInt "0") (Samples.parseInt "25")
    (Samples.parseInt "1440") (Samples.parseInt "900") "Milk, eggs, bread" "Notes".
Proof.
  apply (window_info_title_kept Samples.parseInt "Notes" "0" "25" "1440" "900"
           "Milk, eggs, bread" 1%Z); reflexivity.
Defined.
